(** * The run-event streaming server of codex-agent-app

    A shallow embedding of the HTTP handler of the server (the request
    handler, [pushEvent], the chat pipeline and the static-file branch) as
    state-passing functions over an explicit [World], followed by the
    properties of the run-event streaming engine.

    JavaScript runs every callback to completion on one thread, so one
    callback is one atomic step of the model: the call of the handler, up
    to its return or to its [await]; a chunk of a request body; the end of
    a request body; the continuation of the handler when [readFile]
    settles; the continuation of a pipeline when its response generation
    settles; a ['close'] listener. *)

From Stdlib Require Import Ascii DecimalString.
From stdpp Require Import base option list strings gmap.

Set Warnings "-register-all".

Open Scope N_scope.
Open Scope nat_scope.
Open Scope string_scope.
Open Scope list_scope.

(** ** JavaScript strings

    A JavaScript string is a sequence of UTF-16 code units. *)

Abbreviation jsstring := (list N).

Fixpoint js (s : string) : jsstring :=
  match s with
  | EmptyString => []
  | String c s' => N_of_ascii c :: js s'
  end.

Arguments js : simpl never.

(** [s.startsWith(p)] *)
Fixpoint startsWith (s p : jsstring) : bool :=
  match p, s with
  | [], _ => true
  | _ :: _, [] => false
  | a :: p', b :: s' => (a =? b)%N && startsWith s' p'
  end.

(** [s.split(sep)] for a separator of one code unit. *)
Fixpoint split (sep : N) (s : jsstring) : list jsstring :=
  match s with
  | [] => [[]]
  | c :: s' =>
      if (c =? sep)%N then [] :: split sep s'
      else match split sep s' with
           | h :: t => (c :: h) :: t
           | [] => [[c]]
           end
  end.

(** [a.pop()] on the array of a [split], which is never empty. *)
Definition pop (a : list jsstring) : jsstring := default [] (last a).

(** [a.join(sep)] *)
Fixpoint join (sep : jsstring) (a : list jsstring) : jsstring :=
  match a with
  | [] => []
  | [x] => x
  | x :: rest => x ++ sep ++ join sep rest
  end.

Definition slash : N := 47.
Definition dot : N := 46.

(** The code units that [String.prototype.trim] removes: white space and
    line terminators. *)
Definition isWhiteSpace (c : N) : bool :=
  ((9 <=? c) && (c <=? 13) || (c =? 32) || (c =? 160) || (c =? 5760)
   || (8192 <=? c) && (c <=? 8202) || (c =? 8232) || (c =? 8233)
   || (c =? 8239) || (c =? 8287) || (c =? 12288) || (c =? 65279))%N.

Fixpoint trimStart (s : jsstring) : jsstring :=
  match s with
  | [] => []
  | c :: s' => if isWhiteSpace c then trimStart s' else s
  end.

Definition trim (s : jsstring) : jsstring :=
  rev (trimStart (rev (trimStart s))).

(** The decimal text of a natural number, as a template literal prints it. *)
Definition decimal (n : nat) : jsstring :=
  js (NilZero.string_of_uint (Nat.to_uint n)).

(** ** node:path, POSIX flavour

    [normalizeString] keeps a stack of segments, the last one first. *)

Definition normalizeStep (allowAboveRoot : bool) (stack : list jsstring)
    (seg : jsstring) : list jsstring :=
  if bool_decide (seg = []) || bool_decide (seg = js ".") then stack
  else if bool_decide (seg = js "..") then
    match stack with
    | top :: rest =>
        if bool_decide (top = js "..")
        then (if allowAboveRoot then seg :: stack else stack)
        else rest
    | [] => if allowAboveRoot then [seg] else []
    end
  else seg :: stack.

Definition normalizeString (allowAboveRoot : bool) (path : jsstring) : jsstring :=
  join [slash] (rev (foldl (normalizeStep allowAboveRoot) [] (split slash path))).

(** One round of the loop of [path.resolve], which walks its arguments from
    the right until the path built so far is absolute. *)
Definition resolveStep (acc : jsstring * bool) (path : jsstring) : jsstring * bool :=
  if acc.2 then acc
  else if bool_decide (path = []) then acc
  else (path ++ [slash] ++ acc.1, startsWith path [slash]).

(** [path.resolve(...paths)], the current directory being the last resort. *)
Definition resolvePath (cwd : jsstring) (paths : list jsstring) : jsstring :=
  let acc := foldl resolveStep ([], false) (rev paths ++ [cwd]) in
  let n := normalizeString (negb acc.2) acc.1 in
  if acc.2 then slash :: n
  else if bool_decide (n = []) then js "." else n.

(** A path lies inside a directory when it is the directory itself or
    continues it after a separator. *)
Definition insideDir (dir path : jsstring) : bool :=
  bool_decide (path = dir) || startsWith path (dir ++ [slash]).

(** ** JSON values

    A number is kept as the bit pattern of its IEEE-754 double; the server
    only ever asks for its type and its truthiness. An object is the list of
    the properties a parser met, in order; a repeated key is read at its
    last occurrence. *)

Inductive JSON :=
| JNull
| JBool (b : bool)
| JNum (bits : N)
| JStr (s : jsstring)
| JArr (items : list JSON)
| JObj (props : list (jsstring * JSON)).

Fixpoint ownProp (k : jsstring) (props : list (jsstring * JSON)) : option JSON :=
  match props with
  | [] => None
  | (k', v) :: rest =>
      match ownProp k rest with
      | Some v' => Some v'
      | None => if bool_decide (k' = k) then Some v else None
      end
  end.

(** [v.k] for a key that no prototype defines; [None] is [undefined]. *)
Definition prop (k : jsstring) (v : JSON) : option JSON :=
  match v with
  | JObj props => ownProp k props
  | _ => None
  end.

Definition isZeroOrNaN (bits : N) : bool :=
  let e := ((bits / 2 ^ 52) mod 2 ^ 11)%N in
  let m := (bits mod 2 ^ 52)%N in
  ((e =? 0) && (m =? 0) || (e =? 2047) && negb (m =? 0))%N.

Definition truthy (v : option JSON) : bool :=
  match v with
  | None | Some JNull => false
  | Some (JBool b) => b
  | Some (JNum bits) => negb (isZeroOrNaN bits)
  | Some (JStr s) => negb (bool_decide (s = []))
  | Some (JArr _) | Some (JObj _) => true
  end.

(** ** Events

    An event is a plain object; these are the three literals of the
    pipeline. *)

Definition tool_start (message cardId : jsstring) : JSON :=
  JObj [(js "type", JStr (js "tool_start")); (js "tool", JStr (js "search"));
        (js "input", JObj [(js "query", JStr message)]);
        (js "cardId", JStr cardId)].

Definition fakeResults : JSON :=
  JObj [(js "hits",
         JArr [JObj [(js "title", JStr (js "Placeholder"));
                     (js "snippet", JStr (js "This is a fake result."))]])].

Definition tool_done (output : JSON) (cardId : jsstring) : JSON :=
  JObj [(js "type", JStr (js "tool_done")); (js "tool", JStr (js "search"));
        (js "output", output); (js "cardId", JStr cardId)].

Definition assistant_done (text threadId : jsstring) : JSON :=
  JObj [(js "type", JStr (js "assistant_done")); (js "text", JStr text);
        (js "threadId", JStr threadId)].

Definition isAssistantDone (ev : JSON) : bool :=
  match prop (js "type") ev with
  | Some (JStr t) => bool_decide (t = js "assistant_done")
  | _ => false
  end.

(** The echo agent: [generateAssistantResponse({ message, searchResults })]. *)
Definition generateAssistantResponse (message : jsstring) (searchResults : JSON) : jsstring :=
  let hits := match prop (js "hits") searchResults with
              | Some (JArr items) => length items
              | _ => 0
              end in
  js "You said: " ++ message ++ js ". I found " ++ decimal hits ++ js " search result(s).".

(** How the awaited response generation settles. A thrown value is kept as
    the two texts the [catch] block can print: [err.message] when that is
    truthy, and the text of [err] itself. *)
Record Thrown := { err_message : option jsstring; err_text : jsstring }.

Inductive Outcome :=
| Fulfilled (text : jsstring)
| Rejected (err : Thrown).

(** [`An error occurred: ${err?.message || err}`] *)
Definition errorText (err : Thrown) : jsstring :=
  js "An error occurred: " ++ default (err_text err) (err_message err).

(** ** The state of the process *)

Record Thread := { thread_id : jsstring; history : list JSON }.

(** A run object. [clients] is a [Set] of response objects: insertion
    order, no repetition. *)
Record Run := {
  run_id : jsstring;
  events : list JSON;
  clients : list nat;
  done : bool
}.

(** What the server called on a response object. *)
Inductive ResOp :=
| SetStatus (code : nat)
| SetHeader (name value : jsstring)
| FlushHeaders
| Write (chunk : jsstring)
| End (data : option jsstring).

(** A response object: the calls made on it, the chunks that reached the
    peer, and whether its socket has been destroyed. *)
Record Response := {
  calls : list ResOp;
  received : list jsstring;
  destroyed : bool
}.

Definition isEnd (op : ResOp) : bool :=
  match op with End _ => true | _ => false end.

(** [res.writableEnded]: [end] has been called on the response object. *)
Definition finished (r : Response) : bool := existsb isEnd (calls r).

(** A chunk reaches the peer when the socket is sound and the response has
    not been ended. Written to a destroyed socket, or after [end], it is
    dropped: [write] does not throw, it returns [false] and reports the
    error later, on another turn of the event loop. *)
Definition writable (r : Response) : bool :=
  negb (destroyed r) && negb (finished r).

(** The variables a pipeline keeps while it is suspended at its [await]. *)
Record Suspended := { s_message : jsstring; s_threadId : jsstring }.

(** What a request waits for when the handler has left it without an
    answer: the file that [readFile] is reading for it, the handler being
    suspended at its [await]; or the end of its body, of which [body] is
    what the ['data'] listener has collected so far. *)
Inductive Pending :=
| Reading (pathname : jsstring)
| Receiving (body : jsstring).

(** Objects live in two heaps, a run or a response being named by its
    position: [runs] maps a run id to its run object, a ['close'] listener
    and a suspended pipeline hold the run object itself. [pending] holds
    the requests whose handling is not over, under the position of their
    response object. *)
Record World := {
  runs : gmap (list N) nat;
  threads : gmap (list N) Thread;
  heap : list Run;
  responses : list Response;
  uuid_calls : nat;
  close_listeners : gmap nat nat;
  awaiting : gmap nat Suspended;
  pending : gmap nat Pending
}.

Definition init : World :=
  {| runs := ∅; threads := ∅; heap := []; responses := []; uuid_calls := 0;
     close_listeners := ∅; awaiting := ∅; pending := ∅ |}.

Definition with_runs (f : gmap (list N) nat → gmap (list N) nat) (w : World) : World :=
  {| runs := f (runs w); threads := threads w; heap := heap w;
     responses := responses w; uuid_calls := uuid_calls w;
     close_listeners := close_listeners w; awaiting := awaiting w;
     pending := pending w |}.

Definition with_threads (f : gmap (list N) Thread → gmap (list N) Thread) (w : World) : World :=
  {| runs := runs w; threads := f (threads w); heap := heap w;
     responses := responses w; uuid_calls := uuid_calls w;
     close_listeners := close_listeners w; awaiting := awaiting w;
     pending := pending w |}.

Definition with_heap (f : list Run → list Run) (w : World) : World :=
  {| runs := runs w; threads := threads w; heap := f (heap w);
     responses := responses w; uuid_calls := uuid_calls w;
     close_listeners := close_listeners w; awaiting := awaiting w;
     pending := pending w |}.

Definition with_responses (f : list Response → list Response) (w : World) : World :=
  {| runs := runs w; threads := threads w; heap := heap w;
     responses := f (responses w); uuid_calls := uuid_calls w;
     close_listeners := close_listeners w; awaiting := awaiting w;
     pending := pending w |}.

Definition with_uuid_calls (f : nat → nat) (w : World) : World :=
  {| runs := runs w; threads := threads w; heap := heap w;
     responses := responses w; uuid_calls := f (uuid_calls w);
     close_listeners := close_listeners w; awaiting := awaiting w;
     pending := pending w |}.

Definition with_close_listeners (f : gmap nat nat → gmap nat nat) (w : World) : World :=
  {| runs := runs w; threads := threads w; heap := heap w;
     responses := responses w; uuid_calls := uuid_calls w;
     close_listeners := f (close_listeners w); awaiting := awaiting w;
     pending := pending w |}.

Definition with_awaiting (f : gmap nat Suspended → gmap nat Suspended) (w : World) : World :=
  {| runs := runs w; threads := threads w; heap := heap w;
     responses := responses w; uuid_calls := uuid_calls w;
     close_listeners := close_listeners w; awaiting := f (awaiting w);
     pending := pending w |}.

Definition with_pending (f : gmap nat Pending → gmap nat Pending) (w : World) : World :=
  {| runs := runs w; threads := threads w; heap := heap w;
     responses := responses w; uuid_calls := uuid_calls w;
     close_listeners := close_listeners w; awaiting := awaiting w;
     pending := f (pending w) |}.

(** *** Run objects *)

Definition addEvent (ev : JSON) (r : Run) : Run :=
  {| run_id := run_id r; events := events r ++ [ev]; clients := clients r;
     done := done r |}.

(** [run.clients.add(res)] *)
Definition addClient (res : nat) (r : Run) : Run :=
  {| run_id := run_id r; events := events r;
     clients := if bool_decide (res ∈ clients r) then clients r
                else clients r ++ [res];
     done := done r |}.

(** [run.clients.delete(res)] *)
Definition deleteClient (res : nat) (r : Run) : Run :=
  {| run_id := run_id r; events := events r;
     clients := filter (λ c, c ≠ res) (clients r); done := done r |}.

Definition setDone (r : Run) : Run :=
  {| run_id := run_id r; events := events r; clients := clients r;
     done := true |}.

Definition eventsOf (run : nat) (w : World) : list JSON :=
  from_option events [] (heap w !! run).

Definition clientsOf (run : nat) (w : World) : list nat :=
  from_option clients [] (heap w !! run).

(** *** Response objects *)

Definition called (op : ResOp) (r : Response) : Response :=
  {| calls := calls r ++ [op]; received := received r; destroyed := destroyed r |}.

Definition sent (op : ResOp) (chunk : jsstring) (r : Response) : Response :=
  {| calls := calls r ++ [op];
     received := if writable r then received r ++ [chunk] else received r;
     destroyed := destroyed r |}.

Definition destroy (r : Response) : Response :=
  {| calls := calls r; received := received r; destroyed := true |}.

Definition onRes (res : nat) (f : Response → Response) : World → World :=
  with_responses (alter f res).

Definition setStatus (res code : nat) : World → World :=
  onRes res (called (SetStatus code)).

Definition setHeader (res : nat) (name value : string) : World → World :=
  onRes res (called (SetHeader (js name) (js value))).

Definition flushHeaders (res : nat) : World → World :=
  onRes res (called FlushHeaders).

Definition write (res : nat) (chunk : jsstring) : World → World :=
  onRes res (sent (Write chunk) chunk).

Definition end_ (res : nat) (data : option jsstring) : World → World :=
  onRes res (match data with
             | Some d => sent (End data) d
             | None => called (End None)
             end).

Definition callsOf (res : nat) (w : World) : list ResOp :=
  from_option calls [] (responses w !! res).

Definition receivedBy (res : nat) (w : World) : list jsstring :=
  from_option received [] (responses w !! res).

(** How many times [end] was called on a response object. *)
Definition ended (res : nat) (w : World) : nat :=
  length (List.filter isEnd (callsOf res w)).

(** The response object Node creates when a request arrives. *)
Definition newResponse : Response :=
  {| calls := []; received := []; destroyed := false |}.

Definition arrive : World → World :=
  with_responses (λ rs, rs ++ [newResponse]).

(** *** Loops over response objects *)

(** [f] applied once to the response object of every element of [l]. *)
Definition broadcast (f : Response → Response) (l : list nat) (rs : list Response) : list Response :=
  foldl (λ rs res, alter f res rs) rs l.

(** What a replay does to the response object it writes to. *)
Definition replayed (chunks : list jsstring) (r : Response) : Response :=
  {| calls := calls r ++ (Write <$> chunks);
     received := if writable r then received r ++ chunks else received r;
     destroyed := destroyed r |}.

(** ** The server *)

(** What the program takes from Node and from its environment:
    [JSON.stringify]; [JSON.parse], [None] when it throws; the value the
    n-th call of [randomUUID] returns; [readFile], [None] when its promise
    rejects; and [process.cwd()]. *)
Record Platform := {
  JSON_stringify : JSON → jsstring;
  JSON_parse : jsstring → option JSON;
  randomUUID : nat → jsstring;
  readFile : jsstring → option jsstring;
  cwd : jsstring
}.

Section Server.
Context (node : Platform).

Definition sendJson (res statusCode : nat) (data : JSON) (w : World) : World :=
  let w := setStatus res statusCode w in
  let w := setHeader res "Content-Type" "application/json" w in
  let w := setHeader res "Access-Control-Allow-Origin" "*" w in
  end_ res (Some (JSON_stringify node data)) w.

(** The text of one server-sent event. *)
Definition payload (ev : JSON) : jsstring :=
  js "data: " ++ JSON_stringify node ev ++ [10; 10]%N.

(** [pushEvent(run, ev)]: the event joins the log, then goes to every
    client of the run, in the order of the set. *)
Definition pushEvent (run : nat) (ev : JSON) (w : World) : World :=
  let w := with_heap (alter (addEvent ev) run) w in
  foldl (λ w res, write res (payload ev) w) w (clientsOf run w).

(** *** The static-file branch *)

Definition publicDir : jsstring := resolvePath (cwd node) [cwd node; js "public"].

Definition filePath (pathname : jsstring) : jsstring :=
  if bool_decide (pathname = js "/") then js "/index.html" else pathname.

Definition resolved (pathname : jsstring) : jsstring :=
  resolvePath (cwd node) [publicDir; dot :: filePath pathname].

Definition contentType (ext : jsstring) : string :=
  if bool_decide (ext = js "html") then "text/html"
  else if bool_decide (ext = js "js") then "application/javascript"
  else if bool_decide (ext = js "css") then "text/css"
  else if bool_decide (ext = js "json") then "application/json"
  else if bool_decide (ext = js "png") then "image/png"
  else if bool_decide (ext = js "jpg") || bool_decide (ext = js "jpeg") then "image/jpeg"
  else "text/plain".

(** The file the [try] block reads, if it gets as far as [readFile]. *)
Definition fileRead (pathname : jsstring) : option jsstring :=
  if startsWith (resolved pathname) publicDir then Some (resolved pathname)
  else None.

(** The [try] block: [None] when it throws, which the [catch] swallows. *)
Definition serveStatic (res : nat) (pathname : jsstring) (w : World) : option World :=
  path ← fileRead pathname;
  data ← readFile node path;
  let ext := pop (split dot path) in
  let w := setStatus res 200 w in
  let w := setHeader res "Content-Type" (contentType ext) w in
  let w := setHeader res "Access-Control-Allow-Origin" "*" w in
  Some (end_ res (Some data) w).

(** *** GET /api/stream/:id *)

Definition notFound (res : nat) (w : World) : World :=
  end_ res None (setStatus res 404 w).

Definition stream (res : nat) (pathname : jsstring) (w : World) : World :=
  let runId := pop (split slash pathname) in
  match runs w !! runId with
  | None => notFound res w
  | Some run =>
      let w := setHeader res "Content-Type" "text/event-stream" w in
      let w := setHeader res "Cache-Control" "no-cache" w in
      let w := setHeader res "Connection" "keep-alive" w in
      let w := flushHeaders res w in
      let w := with_heap (alter (addClient res) run) w in
      let w := foldl (λ w ev, write res (payload ev) w) w (eventsOf run w) in
      with_close_listeners <[res := run]> w
  end.

(** *** POST /api/chat *)

(** [threadId && threads.has(threadId)]: the keys of the map are strings. *)
Definition knownThread (threadId : option JSON) (w : World) : option Thread :=
  if truthy threadId then
    match threadId with
    | Some (JStr t) => threads w !! t
    | _ => None
    end
  else None.

(** The pipeline up to its [await]. *)
Definition pipelineStart (run : nat) (message threadId : jsstring) (w : World) : World :=
  let searchCardId := randomUUID node (uuid_calls w) in
  let w := with_uuid_calls S w in
  let w := pushEvent run (tool_start message searchCardId) w in
  let w := pushEvent run (tool_done fakeResults searchCardId) w in
  with_awaiting <[run := {| s_message := message; s_threadId := threadId |}]> w.

(** The [finally] block. *)
Definition finish (run : nat) (w : World) : World :=
  let w := with_heap (alter setDone run) w in
  foldl (λ w client, end_ client None w) w (clientsOf run w).

(** The pipeline from its [await] on: the rest of the [try] block or the
    [catch] block, then the [finally] block. *)
Definition pipelineResume (run : nat) (outcome : Outcome) (w : World) : World :=
  match awaiting w !! run with
  | None => w
  | Some k =>
      let w := with_awaiting (delete run) w in
      let text := match outcome with
                  | Fulfilled assistantOutput => assistantOutput
                  | Rejected err => errorText err
                  end in
      let w := pushEvent run (assistant_done text (s_threadId k)) w in
      finish run w
  end.

Definition errorBody (msg : string) : JSON := JObj [(js "error", JStr (js msg))].

Definition chat (res : nat) (body : jsstring) (w : World) : World :=
  match JSON_parse node (if bool_decide (body = []) then js "{}" else body) with
  | None | Some JNull => sendJson res 400 (errorBody "Invalid JSON") w
  | Some data =>
      match prop (js "message") data with
      | Some (JStr message) =>
          if bool_decide (trim message = []) then
            sendJson res 400 (errorBody "message is required") w
          else
            let threadId := prop (js "threadId") data in
            let runId := randomUUID node (uuid_calls w) in
            let w := with_uuid_calls S w in
            let run := length (heap w) in
            let w := with_heap (λ h, h ++ [{| run_id := runId; events := [];
                                              clients := []; done := false |}]) w in
            let w := with_runs <[runId := run]> w in
            let '(thread, w) :=
              match knownThread threadId w with
              | Some thread => (thread, w)
              | None =>
                  let thread := {| thread_id := randomUUID node (uuid_calls w);
                                   history := [] |} in
                  (thread, with_threads <[thread_id thread := thread]>
                             (with_uuid_calls S w))
              end in
            let w := pipelineStart run message (thread_id thread) w in
            sendJson res 200 (JObj [(js "runId", JStr runId);
                                    (js "threadId", JStr (thread_id thread))]) w
      | _ => sendJson res 400 (errorBody "message is required") w
      end
  end.

(** *** The request handler

    [handler] is the handling of a request from the call of the handler to
    the answer, in one piece: the body of a chat request is at hand, and
    the file of a static request is read on the spot. The pieces follow:
    what the handler does until it returns or is suspended, and what the
    callbacks it has left behind do later. *)

Definition handler (res : nat) (method pathname body : jsstring) (w : World) : World :=
  let w := setHeader res "Access-Control-Allow-Origin" "*" w in
  let w := setHeader res "Access-Control-Allow-Headers" "Content-Type" w in
  let w := setHeader res "Access-Control-Allow-Methods" "GET,POST,OPTIONS" w in
  if bool_decide (method = js "OPTIONS") then end_ res None (setStatus res 204 w)
  else
    let static :=
      if bool_decide (method = js "GET") && negb (bool_decide (pathname = []))
         && negb (startsWith pathname (js "/api"))
      then serveStatic res pathname w else None in
    match static with
    | Some w' => w'
    | None =>
        if bool_decide (method = js "GET") && bool_decide (pathname = js "/api/health")
        then sendJson res 200 (JObj [(js "status", JStr (js "ok"))]) w
        else if bool_decide (method = js "GET") && negb (bool_decide (pathname = []))
                && startsWith pathname (js "/api/stream/")
        then stream res pathname w
        else if bool_decide (method = js "POST") && bool_decide (pathname = js "/api/chat")
        then chat res body w
        else notFound res w
    end.

(** The routes of the API, which the handler comes to when the static
    branch does not apply or has thrown. For a chat request the handler
    registers the listeners of the body, of which nothing has arrived, and
    returns without an answer. *)
Definition api (res : nat) (method pathname : jsstring) (w : World) : World :=
  if bool_decide (method = js "GET") && bool_decide (pathname = js "/api/health")
  then sendJson res 200 (JObj [(js "status", JStr (js "ok"))]) w
  else if bool_decide (method = js "GET") && negb (bool_decide (pathname = []))
          && startsWith pathname (js "/api/stream/")
  then stream res pathname w
  else if bool_decide (method = js "POST") && bool_decide (pathname = js "/api/chat")
  then with_pending <[res := Receiving []]> w
  else notFound res w.

(** The handler from its call to its return, or to the [await] of the
    static branch: there it is suspended until [readFile] settles, unless
    the path is turned down before, which the [catch] swallows at once. *)
Definition handlerEntry (res : nat) (method pathname : jsstring) (w : World) : World :=
  let w := setHeader res "Access-Control-Allow-Origin" "*" w in
  let w := setHeader res "Access-Control-Allow-Headers" "Content-Type" w in
  let w := setHeader res "Access-Control-Allow-Methods" "GET,POST,OPTIONS" w in
  if bool_decide (method = js "OPTIONS") then end_ res None (setStatus res 204 w)
  else if bool_decide (method = js "GET") && negb (bool_decide (pathname = []))
          && negb (startsWith pathname (js "/api"))
  then match fileRead pathname with
       | Some _ => with_pending <[res := Reading pathname]> w
       | None => api res method pathname w
       end
  else api res method pathname w.

(** The handler from its [await] on: the file is served, or [readFile] has
    rejected and the request falls through to the routes of the API. *)
Definition handlerResume (res : nat) (pathname : jsstring) (w : World) : World :=
  match serveStatic res pathname w with
  | Some w' => w'
  | None => api res (js "GET") pathname w
  end.

(** The ['data'] listener of a chat request: [body += chunk]. *)
Definition onData (res : nat) (chunk : jsstring) (w : World) : World :=
  match pending w !! res with
  | Some (Receiving body) => with_pending <[res := Receiving (body ++ chunk)]> w
  | _ => w
  end.

(** The ['end'] listener of a chat request. *)
Definition onEnd (res : nat) (w : World) : World :=
  match pending w !! res with
  | Some (Receiving body) => chat res body (with_pending (delete res) w)
  | _ => w
  end.

(** [readFile] settles for the request that waits for it. *)
Definition onRead (res : nat) (w : World) : World :=
  match pending w !! res with
  | Some (Reading pathname) => handlerResume res pathname (with_pending (delete res) w)
  | _ => w
  end.

(** *** The event loop

    The awaited response generation of a pipeline settles; a socket breaks;
    the ['close'] event of a request fires; the handler is called for a
    request that has come in, on a new response object; a chunk of the body
    of a request arrives; the body of a request ends; the file read for a
    request settles. [Request] is a whole exchange in one step: the call of
    the handler, followed at once by the body of the request and its end or
    by the settling of the file read, nothing happening in between.

    Node emits the ['close'] event of a request some time after its socket
    is destroyed; a sequence of inputs may stop, or go on with other
    inputs, in between. *)
Inductive Input :=
| Request (method pathname body : jsstring)
| Settle (run : nat) (outcome : Outcome)
| Break (res : nat)
| Close (res : nat)
| Incoming (method pathname : jsstring)
| Data (res : nat) (chunk : jsstring)
| EndOfBody (res : nat)
| FileRead (res : nat).

Definition step (w : World) (i : Input) : World :=
  match i with
  | Request method pathname body =>
      let res := length (responses w) in
      handler res method pathname body (arrive w)
  | Settle run outcome => pipelineResume run outcome w
  | Break res => onRes res destroy w
  | Close res =>
      match close_listeners w !! res with
      | Some run => with_heap (alter (deleteClient res) run) w
      | None => w
      end
  | Incoming method pathname =>
      let res := length (responses w) in
      handlerEntry res method pathname (arrive w)
  | Data res chunk => onData res chunk w
  | EndOfBody res => onEnd res w
  | FileRead res => onRead res w
  end.

Definition exec (w : World) (inputs : list Input) : World := foldl step w inputs.

(** The calls the handler makes first on every response object, and the
    calls of [sendJson]. *)
Definition corsCalls : list ResOp :=
  [SetHeader (js "Access-Control-Allow-Origin") (js "*");
   SetHeader (js "Access-Control-Allow-Headers") (js "Content-Type");
   SetHeader (js "Access-Control-Allow-Methods") (js "GET,POST,OPTIONS")].

Definition jsonCalls (statusCode : nat) (data : JSON) : list ResOp :=
  [SetStatus statusCode;
   SetHeader (js "Content-Type") (js "application/json");
   SetHeader (js "Access-Control-Allow-Origin") (js "*");
   End (Some (JSON_stringify node data))].

(** The [message] of a request body, [None] when the body does not parse or
    has no such field; and whether the handler takes it: a string that is
    not empty once trimmed. *)
Definition messageOf (body : jsstring) : option JSON :=
  data ← JSON_parse node (if bool_decide (body = []) then js "{}" else body);
  prop (js "message") data.

Definition acceptable (message : option JSON) : bool :=
  match message with
  | Some (JStr m) => negb (bool_decide (trim m = []))
  | _ => false
  end.

(** The observer behind a response object stays connected during a
    sequence of inputs: neither its ['close'] event fires nor its socket
    breaks. *)
Definition connected (res : nat) (inputs : list Input) : bool :=
  forallb (λ i, match i with
                | Close res' | Break res' => negb (Nat.eqb res' res)
                | _ => true
                end) inputs.

End Server.


(** ** A platform to run the server on

    A serializer for the values the server sends (none of them holds a
    number), a parser that knows the request bodies of the scenarios below,
    identifiers of one character, and a disk of three files. *)
Module Scenario.

Definition quote (s : jsstring) : jsstring :=
  [34%N] ++ flat_map (λ c, if (c =? 34)%N then [92; 34]%N
                           else if (c =? 92)%N then [92; 92]%N
                           else if (c =? 10)%N then [92; 110]%N
                           else [c]) s ++ [34%N].

Fixpoint stringify (v : JSON) : jsstring :=
  match v with
  | JNull => js "null"
  | JBool b => if b then js "true" else js "false"
  | JNum bits => decimal (N.to_nat bits)
  | JStr s => quote s
  | JArr items =>
      js "[" ++ (fix go (l : list JSON) : jsstring :=
                   match l with
                   | [] => []
                   | x :: rest =>
                       stringify x ++ match rest with [] => [] | _ => js "," ++ go rest end
                   end) items ++ js "]"
  | JObj props =>
      js "{" ++ (fix go (l : list (jsstring * JSON)) : jsstring :=
                   match l with
                   | [] => []
                   | (k, x) :: rest =>
                       quote k ++ js ":" ++ stringify x
                       ++ match rest with [] => [] | _ => js "," ++ go rest end
                   end) props ++ js "}"
  end.

Definition uuid (n : nat) : jsstring := [(48 + N.of_nat n)%N].

Definition hello : JSON := JObj [(js "message", JStr (js "hello"))].
Definition helloAgain : JSON :=
  JObj [(js "message", JStr (js "hello")); (js "threadId", JStr (uuid 1))].
Definition noMessage : JSON := JObj [(js "threadId", JStr (uuid 1))].
Definition blankMessage : JSON := JObj [(js "message", JStr (js "   "))].

Definition parse (text : jsstring) : option JSON :=
  List.find (λ v, bool_decide (stringify v = text))
    [hello; helloAgain; noMessage; blankMessage; JNull; JObj []].

Definition disk (path : jsstring) : option jsstring :=
  if bool_decide (path = js "/app/public/index.html") then Some (js "<html></html>")
  else if bool_decide (path = js "/app/public/script.js") then Some (js "send()")
  else if bool_decide (path = js "/app/public-secret/key") then Some (js "secret")
  else None.

Definition node : Platform :=
  {| JSON_stringify := stringify; JSON_parse := parse; randomUUID := uuid;
     readFile := disk; cwd := js "/app" |}.

Definition GET : jsstring := js "GET".
Definition POST : jsstring := js "POST".

Definition chatHello : Input := Request POST (js "/api/chat") (stringify hello).
Definition chatHelloAgain : Input := Request POST (js "/api/chat") (stringify helloAgain).
Definition attach0 : Input := Request GET (js "/api/stream/0") [].
Definition settleOk : Input := Settle 0 (Fulfilled (js "ok")).
Definition settleThrow : Input :=
  Settle 0 (Rejected {| err_message := Some (js "boom"); err_text := js "Error: boom" |}).

(** An event appended out of turn. *)
Definition extra : JSON := tool_start (js "late") (js "x").

End Scenario.

(** ** The chat endpoint in closed form

    The thread a valid chat request runs under, and the state it leaves
    before the response is sent: [chat_accepted] below shows that [chat]
    computes exactly this. *)

Definition chatThread (node : Platform) (threadId : option JSON) (w : World) : Thread :=
  match knownThread threadId w with
  | Some thread => thread
  | None => {| thread_id := randomUUID node (S (uuid_calls w)); history := [] |}
  end.

Definition accepted (node : Platform) (message : jsstring) (threadId : option JSON)
    (w : World) : World :=
  let n := uuid_calls w in
  let known := bool_decide (is_Some (knownThread threadId w)) in
  let thread := chatThread node threadId w in
  let cardId := randomUUID node (if known then S n else S (S n)) in
  {| runs := <[randomUUID node n := length (heap w)]> (runs w);
     threads := if known then threads w
                else <[thread_id thread := thread]> (threads w);
     heap := heap w ++ [{| run_id := randomUUID node n;
                           events := [tool_start message cardId;
                                      tool_done fakeResults cardId];
                           clients := []; done := false |}];
     responses := responses w;
     uuid_calls := if known then S (S n) else S (S (S n));
     close_listeners := close_listeners w;
     awaiting := <[length (heap w) := {| s_message := message;
                                         s_threadId := thread_id thread |}]>
                   (awaiting w);
     pending := pending w |}.

(** The state the continuation of a suspended pipeline leaves. *)
Definition terminalText (outcome : Outcome) : jsstring :=
  match outcome with
  | Fulfilled assistantOutput => assistantOutput
  | Rejected err => errorText err
  end.

Definition settled (node : Platform) (run : nat) (outcome : Outcome) (k : Suspended)
    (r : Run) (w : World) : World :=
  let ev := assistant_done (terminalText outcome) (s_threadId k) in
  {| runs := runs w; threads := threads w;
     heap := alter (λ r, setDone (addEvent ev r)) run (heap w);
     responses := broadcast (called (End None)) (clients r)
                    (broadcast (sent (Write (payload node ev)) (payload node ev))
                       (clients r) (responses w));
     uuid_calls := uuid_calls w; close_listeners := close_listeners w;
     awaiting := delete run (awaiting w); pending := pending w |}.

(** ** The shapes of a step

    Whatever the input, a step changes the state in one of a few ways: it
    answers on the new response object only; it attaches the new response
    object to a run; it accepts a chat request; it finishes a pipeline; it
    does nothing; it marks a socket as destroyed; it removes a client; it
    leaves the new request pending; it adds to the body of a pending
    request; it answers a pending request; it accepts a pending chat
    request. *)

Definition keeps (F : Response → Response) : Prop :=
  ∀ x, destroyed (F x) = destroyed x.

Inductive Shape (node : Platform) (w : World) : Input → World → Prop :=
| shape_respond i F :
    keeps F →
    Shape node w i (onRes (length (responses w)) F (arrive w))
| shape_attach i run F :
    keeps F → run < length (heap w) →
    Shape node w i
      (with_close_listeners <[length (responses w) := run]>
         (with_heap (alter (addClient (length (responses w))) run)
            (onRes (length (responses w)) F (arrive w))))
| shape_accept i message threadId F :
    keeps F →
    Shape node w i
      (onRes (length (responses w)) F (accepted node message threadId (arrive w)))
| shape_settle run outcome k r :
    awaiting w !! run = Some k → heap w !! run = Some r →
    Shape node w (Settle run outcome) (settled node run outcome k r w)
| shape_idle i :
    Shape node w i w
| shape_break res :
    Shape node w (Break res) (onRes res destroy w)
| shape_close res run :
    close_listeners w !! res = Some run →
    Shape node w (Close res) (with_heap (alter (deleteClient res) run) w)
| shape_wait i p F :
    keeps F →
    Shape node w i
      (with_pending <[length (responses w) := p]>
         (onRes (length (responses w)) F (arrive w)))
| shape_data i res p p' :
    pending w !! res = Some p →
    Shape node w i (with_pending <[res := p']> w)
| shape_answer i res p F :
    i = EndOfBody res ∨ i = FileRead res →
    pending w !! res = Some p → keeps F →
    Shape node w i (onRes res F (with_pending (delete res) w))
| shape_accept_late i res p message threadId F :
    i = EndOfBody res ∨ i = FileRead res →
    pending w !! res = Some p → keeps F →
    Shape node w i
      (onRes res F (accepted node message threadId (with_pending (delete res) w))).

(** ** What holds of every state the server reaches *)

(** A run is in one of two phases: its pipeline is suspended at the [await]
    and the log holds the two tool events, or the pipeline is over and the
    log ends with the one terminal event. *)
Definition phase (k : option Suspended) (r : Run) : Prop :=
  match k with
  | Some k =>
      done r = false ∧
      ∃ c, events r = [tool_start (s_message k) c; tool_done fakeResults c]
  | None =>
      done r = true ∧
      ∃ m c text t,
        events r = [tool_start m c; tool_done fakeResults c; assistant_done text t]
  end.

(** The response object of a pending request: the handler has set the CORS
    headers on it and nothing else was called; it has no ['close']
    listener. *)
Definition untouched (res : nat) (w : World) : Prop :=
  close_listeners w !! res = None ∧
  ∃ d, responses w !! res =
       Some {| calls := corsCalls; received := []; destroyed := d |}.

Record Inv (node : Platform) (w : World) : Prop := {
  inv_runs : ∀ k a, runs w !! k = Some a → a < length (heap w);
  inv_run_ids : ∀ k a, runs w !! k = Some a →
    ∃ i, i < uuid_calls w ∧ k = randomUUID node i;
  inv_thread_ids : ∀ k th, threads w !! k = Some th →
    thread_id th = k ∧ ∃ i, i < uuid_calls w ∧ k = randomUUID node i;
  inv_nodup : ∀ a r, heap w !! a = Some r → NoDup (clients r);
  inv_listen : ∀ a r s, heap w !! a = Some r → s ∈ clients r →
    close_listeners w !! s = Some a;
  inv_listen_bound : ∀ s a, close_listeners w !! s = Some a →
    s < length (responses w);
  inv_phase : ∀ a r, heap w !! a = Some r → phase (awaiting w !! a) r;
  inv_awaiting_bound : ∀ a k, awaiting w !! a = Some k → a < length (heap w);
  inv_received : ∀ a r s x, heap w !! a = Some r → s ∈ clients r →
    responses w !! s = Some x → destroyed x = false →
    received x = payload node <$> events r;
  inv_open : ∀ a r s, heap w !! a = Some r → s ∈ clients r →
    done r = false → ended s w = 0;
  inv_pending : ∀ s p, pending w !! s = Some p → untouched s w;
  inv_reading : ∀ s pathname, pending w !! s = Some (Reading pathname) →
    startsWith pathname (js "/api") = false
}.

(** ** More vocabulary for the properties

    No ['Settle'] of a given run occurs in a sequence of inputs: its
    response generation is still under way. *)
Definition unsettled (run : nat) (inputs : list Input) : bool :=
  forallb (λ i, match i with
                | Settle run' _ => negb (Nat.eqb run' run)
                | _ => true
                end) inputs.

(** The calls on a response object are in order when [end] comes at most
    once and nothing comes after it. *)
Definition inOrder (ops : list ResOp) : Prop :=
  List.filter isEnd ops = [] ∨
  ∃ before data, ops = before ++ [End data] ∧ List.filter isEnd before = [].

(** The headers of a server-sent event stream. *)
Definition sseCalls : list ResOp :=
  [SetHeader (js "Content-Type") (js "text/event-stream");
   SetHeader (js "Cache-Control") (js "no-cache");
   SetHeader (js "Connection") (js "keep-alive");
   FlushHeaders].

(** A step that leaves the data of the server alone: the registries, the
    suspended pipelines, the count of identifiers drawn, and the log and
    the flag of every run. *)
Definition sameData (w w' : World) : Prop :=
  runs w' = runs w ∧ threads w' = threads w ∧ awaiting w' = awaiting w ∧
  uuid_calls w' = uuid_calls w ∧ length (heap w') = length (heap w) ∧
  ∀ run, eventsOf run w' = eventsOf run w ∧
         (done <$> heap w' !! run) = (done <$> heap w !! run).



(** A path segment that [normalizeString] keeps as it is. *)
Definition cleanSegment (seg : jsstring) : Prop :=
  seg ≠ [] ∧ seg ≠ js "." ∧ seg ≠ js ".." ∧ slash ∉ seg.
(** * Properties *)

Create HintDb keeps.

(** ** Calls on several response objects *)

Lemma broadcast_length f l rs : length (broadcast f l rs) = length rs.
Proof.
  revert rs. induction l as [|s l IH]; intros rs; simpl; [done|].
  unfold broadcast in *. simpl. rewrite IH. apply length_alter.
Qed.

Lemma broadcast_notin f l rs (s : nat) : s ∉ l → broadcast f l rs !! s = rs !! s.
Proof.
  revert rs. induction l as [|c l IH]; intros rs Hs; [done|].
  apply not_elem_of_cons in Hs as [Hne Hs].
  unfold broadcast in *. simpl. rewrite IH by done.
  by apply list_lookup_alter_ne.
Qed.

Lemma broadcast_in f l rs (s : nat) :
  NoDup l → s ∈ l → broadcast f l rs !! s = f <$> rs !! s.
Proof.
  revert rs. induction l as [|c l IH]; intros rs Hnd Hs.
  - by apply elem_of_nil in Hs.
  - apply NoDup_cons in Hnd as [Hc Hnd].
    unfold broadcast in *. simpl. apply elem_of_cons in Hs as [->|Hs].
    + fold (broadcast f l (alter f c rs)). rewrite broadcast_notin by done.
      apply list_lookup_alter_eq.
    + rewrite IH by done. rewrite list_lookup_alter_ne; [done|].
      intros ->. done.
Qed.

Lemma foldl_onRes f l w :
  foldl (λ w res, onRes res f w) w l = with_responses (broadcast f l) w.
Proof.
  revert w. induction l as [|s l IH]; intros w; simpl.
  - by destruct w.
  - rewrite IH. by destruct w.
Qed.

(** ** Ended responses *)

Lemma finished_filter ops : existsb isEnd ops = false ↔ List.filter isEnd ops = [].
Proof.
  induction ops as [|op ops IH]; simpl; [done|].
  destruct (isEnd op); simpl; [split; done|exact IH].
Qed.

Lemma finished_write chunk r : finished (sent (Write chunk) chunk r) = finished r.
Proof.
  unfold finished. simpl. rewrite existsb_app. simpl. by rewrite !orb_false_r.
Qed.

Lemma writable_write chunk r : writable (sent (Write chunk) chunk r) = writable r.
Proof. unfold writable. by rewrite finished_write. Qed.

(** A response object that is sound and open. *)
Lemma writable_open r :
  destroyed r = false → List.filter isEnd (calls r) = [] → writable r = true.
Proof.
  intros Hd He. unfold writable, finished. rewrite Hd.
  by rewrite (proj2 (finished_filter _) He).
Qed.

Lemma foldl_write (res : nat) (g : JSON → jsstring) evs w :
  foldl (λ w ev, write res (g ev) w) w evs = onRes res (replayed (g <$> evs)) w.
Proof.
  revert w. induction evs as [|ev evs IH]; intros w; simpl.
  - destruct w as [? ? ? rs ? ? ?]. unfold onRes, with_responses. simpl. f_equal.
    symmetry. apply list_alter_id. intros [c r d]. unfold replayed. simpl.
    rewrite !app_nil_r. by destruct (writable _).
  - rewrite IH. destruct w as [? ? ? rs ? ? ?]. unfold write, onRes, with_responses.
    simpl. f_equal. rewrite list_alter_alter_eq. apply list_alter_ext; [|done].
    intros x _. unfold replayed. simpl. rewrite writable_write.
    unfold sent. simpl. rewrite <- !app_assoc. simpl.
    by destruct (writable x); rewrite <- ?app_assoc.
Qed.

Lemma startsWith_app s p q : startsWith s (p ++ q) = true → startsWith s p = true.
Proof.
  revert s. induction p as [|a p IH]; intros s H; [by destruct s|].
  destruct s as [|b s]; [done|]. simpl in *.
  apply andb_true_iff in H as [-> H]. simpl. eauto.
Qed.

Section Facts.
Context (node : Platform).

Lemma pushEvent_unfold run ev w :
  pushEvent node run ev w =
  with_responses (broadcast (sent (Write (payload node ev)) (payload node ev)) (clientsOf run w))
    (with_heap (alter (addEvent ev) run) w).
Proof.
  unfold pushEvent. unfold write. rewrite foldl_onRes. f_equal. f_equal.
  unfold clientsOf. simpl. rewrite list_lookup_alter_eq.
  by destruct (heap w !! run).
Qed.

Lemma finish_unfold run w :
  finish run w =
  with_responses (broadcast (called (End None)) (clientsOf run w))
    (with_heap (alter setDone run) w).
Proof.
  unfold finish. unfold end_. rewrite foldl_onRes. f_equal. f_equal.
  unfold clientsOf. simpl. rewrite list_lookup_alter_eq.
  by destruct (heap w !! run).
Qed.

Lemma callsOf_onRes_ne (s res : nat) f w :
  s ≠ res → callsOf s (onRes res f w) = callsOf s w.
Proof.
  intros Hne. unfold callsOf, onRes. simpl. by rewrite list_lookup_alter_ne.
Qed.

Lemma ended_onRes_ne (s res : nat) f w :
  s ≠ res → ended s (onRes res f w) = ended s w.
Proof. intros Hne. unfold ended. by rewrite callsOf_onRes_ne. Qed.

Lemma lookup_alter_Some {A} (f : A → A) (a a' : nat) (h : list A) y :
  alter f a h !! a' = Some y →
  (a' = a ∧ ∃ x, h !! a = Some x ∧ y = f x) ∨ (a' ≠ a ∧ h !! a' = Some y).
Proof.
  destruct (decide (a' = a)) as [->|Hne].
  - rewrite list_lookup_alter_eq. destruct (h !! a) as [x|] eqn:E; [|done].
    simpl. intros [= <-]. left. eauto.
  - rewrite list_lookup_alter_ne by done. eauto.
Qed.

(** *** The invariant is kept *)

Lemma Inv_init : Inv node init.
Proof. split; simpl; intros; try done; by rewrite ?lookup_empty in *. Qed.

(** A client of a run is never the response object of a later request. *)
Lemma client_listens w a r (s res : nat) :
  Inv node w → close_listeners w !! res = None →
  heap w !! a = Some r → s ∈ clients r → s ≠ res.
Proof.
  intros HI Hres Hr Hs ->. rewrite (inv_listen _ _ HI _ _ _ Hr Hs) in Hres. done.
Qed.

Lemma Inv_new_response x0 w :
  Inv node w → Inv node (with_responses (λ rs, rs ++ [x0]) w).
Proof.
  intros HI. pose proof HI as [H1 H2 H3 H4 H5 H6 H7 H8 H9 H10 H11 H12].
  split; simpl; try done.
  - intros s a Hs. rewrite length_app. specialize (H6 _ _ Hs). lia.
  - intros a r s x Hr Hs Hx. apply (H9 a r s x Hr Hs).
    rewrite lookup_app_l in Hx; [done|]. eauto.
  - intros a r s Hr Hs Hd. rewrite <- (H10 a r s Hr Hs Hd).
    unfold ended, callsOf. simpl. rewrite lookup_app_l; [done|]. eauto.
  - intros s p Hp. destruct (H11 _ _ Hp) as (Hl & d & Hx).
    split; [done|]. exists d. simpl. rewrite lookup_app_l; [done|].
    by eapply lookup_lt_Some.
Qed.

Lemma new_response_fresh x0 w :
  Inv node w →
  close_listeners (with_responses (λ rs, rs ++ [x0]) w) !! length (responses w) = None.
Proof.
  intros HI. simpl. destruct (close_listeners w !! length (responses w)) eqn:E; [|done].
  apply (inv_listen_bound _ _ HI) in E. lia.
Qed.

(** A call on a response object that no run has as a client and whose
    request is not pending. *)
Lemma Inv_onRes res f w :
  Inv node w → close_listeners w !! res = None → pending w !! res = None →
  Inv node (onRes res f w).
Proof.
  intros HI Hres Hpend. pose proof HI as [H1 H2 H3 H4 H5 H6 H7 H8 H9 H10 H11 H12].
  split; simpl; try done.
  - intros s a Hs. rewrite length_alter. eauto.
  - intros a r s x Hr Hs Hx. apply (H9 a r s x Hr Hs).
    rewrite list_lookup_alter_ne in Hx; [done|].
    intros <-. by eapply client_listens.
  - intros a r s Hr Hs Hd. rewrite <- (H10 a r s Hr Hs Hd).
    apply ended_onRes_ne. by eapply client_listens.
  - intros s p Hp. destruct (H11 _ _ Hp) as (Hl & d & Hx).
    split; [done|]. exists d. simpl. rewrite list_lookup_alter_ne; [done|].
    intros <-. congruence.
Qed.

(** A request stops being pending, or its body grows. *)
Lemma Inv_unpend res w : Inv node w → Inv node (with_pending (delete res) w).
Proof.
  intros HI. pose proof HI as [H1 H2 H3 H4 H5 H6 H7 H8 H9 H10 H11 H12].
  split; simpl; try done.
  - intros s p [_ Hp]%lookup_delete_Some. exact (H11 _ _ Hp).
  - intros s p [_ Hp]%lookup_delete_Some. exact (H12 _ _ Hp).
Qed.

(** A request becomes pending, or the body of a pending request grows. *)
Lemma Inv_pend res p w :
  Inv node w → untouched res w →
  (∀ pathname, p = Reading pathname → startsWith pathname (js "/api") = false) →
  Inv node (with_pending <[res := p]> w).
Proof.
  intros HI Hres Hpath. pose proof HI as [H1 H2 H3 H4 H5 H6 H7 H8 H9 H10 H11 H12].
  split; simpl; try done.
  - intros s q [[<- _]|[_ Hq]]%lookup_insert_Some; [exact Hres|exact (H11 _ _ Hq)].
  - intros s q [[<- ->]|[_ Hq]]%lookup_insert_Some; [by apply Hpath|exact (H12 _ _ Hq)].
Qed.

Lemma ended_destroy (s res : nat) w : ended s (onRes res destroy w) = ended s w.
Proof.
  unfold ended, callsOf, onRes. simpl.
  destruct (decide (s = res)) as [->|Hne].
  - rewrite list_lookup_alter_eq. by destruct (responses w !! res).
  - by rewrite list_lookup_alter_ne.
Qed.

Lemma Inv_break res w : Inv node w → Inv node (onRes res destroy w).
Proof.
  intros HI. pose proof HI as [H1 H2 H3 H4 H5 H6 H7 H8 H9 H10 H11 H12].
  split; simpl; try done.
  - intros s a Hs. rewrite length_alter. eauto.
  - intros a r s x Hr Hs Hx Hd.
    apply lookup_alter_Some in Hx as [[-> (x' & Hx' & ->)]|[Hne Hx]]; [done|].
    by apply (H9 a r s x Hr Hs).
  - intros a r s Hr Hs Hd. rewrite <- (H10 a r s Hr Hs Hd). apply ended_destroy.
  - intros s p Hp. destruct (H11 _ _ Hp) as (Hl & d & Hx). split; [done|].
    destruct (decide (s = res)) as [->|Hne].
    + exists true. simpl. by rewrite list_lookup_alter_eq, Hx.
    + exists d. simpl. by rewrite list_lookup_alter_ne.
Qed.

Lemma Inv_close res w : Inv node w → Inv node (step node w (Close res)).
Proof.
  intros HI. simpl. destruct (close_listeners w !! res) as [run|]; [|done].
  pose proof HI as [H1 H2 H3 H4 H5 H6 H7 H8 H9 H10 H11 H12].
  split; simpl; try done.
  - intros k a Hk. rewrite length_alter. eauto.
  - intros a r Hr.
    apply lookup_alter_Some in Hr as [[-> (r0 & Hr0 & ->)]|[Hne Hr]]; [|eauto].
    simpl. apply NoDup_filter; eauto.
  - intros a r s Hr Hs.
    apply lookup_alter_Some in Hr as [[-> (r0 & Hr0 & ->)]|[Hne Hr]]; [|eauto].
    simpl in Hs. apply list_elem_of_filter in Hs as [_ Hs]. eauto.
  - intros a r Hr.
    apply lookup_alter_Some in Hr as [[-> (r0 & Hr0 & ->)]|[Hne Hr]]; [|eauto].
    exact (H7 _ _ Hr0).
  - intros a k Hk. rewrite length_alter. eauto.
  - intros a r s x Hr Hs Hx Hd.
    apply lookup_alter_Some in Hr as [[-> (r0 & Hr0 & ->)]|[Hne Hr]]; [|eauto].
    simpl in Hs. apply list_elem_of_filter in Hs as [_ Hs]. simpl. eauto.
  - intros a r s Hr Hs Hd.
    apply lookup_alter_Some in Hr as [[-> (r0 & Hr0 & ->)]|[Hne Hr]];
      [|exact (H10 _ _ _ Hr Hs Hd)].
    simpl in Hs. apply list_elem_of_filter in Hs as [_ Hs].
    exact (H10 _ _ _ Hr0 Hs Hd).
Qed.

Lemma filter_isEnd_writes (chunks : list jsstring) :
  List.filter isEnd (Write <$> chunks) = [].
Proof. induction chunks; simpl; done. Qed.

Lemma addClient_fresh res r :
  res ∉ clients r →
  addClient res r = {| run_id := run_id r; events := events r;
                       clients := clients r ++ [res]; done := done r |}.
Proof. intros Hn. unfold addClient. by rewrite bool_decide_eq_false_2. Qed.

(** The body of the stream endpoint once the run is found: the response
    object joins the clients, the log is replayed to it, and its ['close']
    listener is registered. *)
Lemma Inv_attach res run x w :
  Inv node w → close_listeners w !! res = None → pending w !! res = None →
  responses w !! res = Some x → received x = [] → List.filter isEnd (calls x) = [] →
  Inv node (with_close_listeners <[res := run]>
              (onRes res (replayed (payload node <$> eventsOf run w))
                 (with_heap (alter (addClient res) run) w))).
Proof.
  intros HI Hres Hpend Hx Hrx Hcx.
  pose proof HI as [H1 H2 H3 H4 H5 H6 H7 H8 H9 H10 H11 H12].
  assert (Hfresh : ∀ a r, heap w !! a = Some r → res ∉ clients r).
  { intros a r Hr Hin. by eapply (client_listens w a r res res). }
  split; simpl; try done.
  - intros k a Hk. rewrite length_alter. eauto.
  - intros a r Hr.
    apply lookup_alter_Some in Hr as [[-> (r0 & Hr0 & ->)]|[Hne Hr]]; [|eauto].
    rewrite addClient_fresh by eauto. simpl. apply NoDup_app.
    split; [eauto|]. split; [|apply NoDup_singleton].
    intros s Hs Hs'. apply list_elem_of_singleton in Hs' as ->.
    by apply (Hfresh _ _ Hr0).
  - intros a r s Hr Hs.
    apply lookup_alter_Some in Hr as [[-> (r0 & Hr0 & ->)]|[Hne Hr]].
    + rewrite addClient_fresh in Hs by eauto. simpl in Hs.
      apply elem_of_app in Hs as [Hs|Hs].
      * rewrite lookup_insert_ne; [eauto|]. intros <-. by apply (Hfresh _ _ Hr0).
      * apply list_elem_of_singleton in Hs as ->. apply lookup_insert_eq.
    + rewrite lookup_insert_ne; [eauto|]. intros <-. by apply (Hfresh _ _ Hr).
  - intros s a Hs. rewrite length_alter.
    destruct (decide (res = s)) as [<-|Hne].
    + apply lookup_lt_Some in Hx. done.
    + rewrite lookup_insert_ne in Hs by done. eauto.
  - intros a r Hr.
    apply lookup_alter_Some in Hr as [[-> (r0 & Hr0 & ->)]|[Hne Hr]]; [|eauto].
    exact (H7 _ _ Hr0).
  - intros a k Hk. rewrite length_alter. eauto.
  - intros a r s y Hr Hs Hy Hd.
    apply lookup_alter_Some in Hy as [[-> (x' & Hx' & ->)]|[Hne Hy]].
    + assert (x' = x) as -> by congruence.
      simpl in Hd. simpl. rewrite (writable_open x Hd Hcx), Hrx. simpl.
      apply lookup_alter_Some in Hr as [[-> (r0 & Hr0 & ->)]|[Hne Hr]].
      * unfold eventsOf. by rewrite Hr0.
      * exfalso. eapply (Hfresh _ _ Hr), Hs.
    + apply lookup_alter_Some in Hr as [[-> (r0 & Hr0 & ->)]|[Hne' Hr]]; [|eauto].
      rewrite addClient_fresh in Hs by eauto. simpl in Hs.
      apply elem_of_app in Hs as [Hs|Hs]; [simpl; eauto|].
      apply list_elem_of_singleton in Hs. done.
  - intros a r s Hr Hs Hd. unfold ended, callsOf. simpl.
    destruct (decide (s = res)) as [->|Hne].
    + rewrite list_lookup_alter_eq, Hx. simpl.
      rewrite List.filter_app, Hcx, filter_isEnd_writes. done.
    + rewrite list_lookup_alter_ne by done.
      apply lookup_alter_Some in Hr as [[-> (r0 & Hr0 & ->)]|[Hne' Hr]];
        [|exact (H10 _ _ _ Hr Hs Hd)].
      rewrite addClient_fresh in Hs by eauto. simpl in Hs.
      apply elem_of_app in Hs as [Hs|Hs]; [exact (H10 _ _ _ Hr0 Hs Hd)|].
      apply list_elem_of_singleton in Hs. done.
  - intros s p Hp. destruct (H11 _ _ Hp) as (Hl & d & Hxs).
    assert (Hne : s ≠ res) by (intros ->; congruence).
    split; [simpl; by rewrite lookup_insert_ne|].
    exists d. simpl. by rewrite list_lookup_alter_ne.
Qed.

(** The terminal event of a run and the world its pipeline leaves behind. *)
Lemma pipelineResume_unfold run outcome k r w :
  awaiting w !! run = Some k → heap w !! run = Some r →
  pipelineResume node run outcome w = settled node run outcome k r w.
Proof.
  intros Hk Hr. unfold pipelineResume, settled. rewrite Hk.
  fold (terminalText outcome). rewrite finish_unfold, pushEvent_unfold.
  unfold clientsOf. simpl. rewrite list_lookup_alter_eq, Hr. simpl.
  unfold with_responses, with_heap. simpl. f_equal.
  by rewrite list_alter_alter_eq.
Qed.

Lemma Inv_settle run outcome w :
  Inv node w → Inv node (pipelineResume node run outcome w).
Proof.
  intros HI. destruct (awaiting w !! run) as [k|] eqn:Hk;
    [|unfold pipelineResume; by rewrite Hk].
  pose proof HI as [H1 H2 H3 H4 H5 H6 H7 H8 H9 H10 H11 H12].
  destruct (heap w !! run) as [r|] eqn:Hr;
    [|apply H8 in Hk; apply lookup_ge_None in Hr; lia].
  rewrite (pipelineResume_unfold _ outcome _ _ _ Hk Hr). unfold settled.
  set (ev := assistant_done _ _).
  assert (Hother : ∀ a r' s, a ≠ run → heap w !! a = Some r' → s ∈ clients r' →
                             s ∉ clients r).
  { intros a r' s Hne Hr' Hs Hs'.
    pose proof (H5 _ _ _ Hr' Hs). pose proof (H5 _ _ _ Hr Hs'). congruence. }
  split; simpl; try done.
  - intros k' a Hk'. rewrite length_alter. eauto.
  - intros a r' Hr'.
    apply lookup_alter_Some in Hr' as [[-> (r0 & Hr0 & ->)]|[Hne Hr']]; [|eauto].
    simpl. eauto.
  - intros a r' s Hr' Hs.
    apply lookup_alter_Some in Hr' as [[-> (r0 & Hr0 & ->)]|[Hne Hr']]; [|eauto].
    simpl in Hs. eauto.
  - intros s a Hs. rewrite !broadcast_length. eauto.
  - intros a r' Hr'.
    apply lookup_alter_Some in Hr' as [[-> (r0 & Hr0 & ->)]|[Hne Hr']].
    + rewrite lookup_delete_eq. assert (r0 = r) as -> by congruence.
      specialize (H7 _ _ Hr). rewrite Hk in H7. destruct H7 as [_ [c Hev]].
      split; [done|]. simpl. rewrite Hev. simpl. unfold ev. eauto.
    + rewrite lookup_delete_ne by done. eauto.
  - intros a k' Hk'. rewrite length_alter.
    apply lookup_delete_Some in Hk' as [_ Hk']. eauto.
  - intros a r' s x Hr' Hs Hx Hd.
    apply lookup_alter_Some in Hr' as [[-> (r0 & Hr0 & ->)]|[Hne Hr']].
    + assert (r0 = r) as -> by congruence. simpl in Hs.
      rewrite !broadcast_in in Hx by eauto.
      destruct (responses w !! s) as [x0|] eqn:Hx0; [|done].
      simpl in Hx. injection Hx as <-. simpl in Hd. simpl.
      assert (Hopen : List.filter isEnd (calls x0) = []).
      { specialize (H7 _ _ Hr). rewrite Hk in H7. destruct H7 as [Hnd _].
        pose proof (H10 _ _ _ Hr Hs Hnd) as H0. unfold ended, callsOf in H0.
        rewrite Hx0 in H0. by apply length_zero_iff_nil in H0. }
      rewrite (writable_open x0 Hd Hopen).
      rewrite fmap_app. simpl. f_equal. eauto.
    + rewrite !broadcast_notin in Hx by eauto. eauto.
  - intros a r' s Hr' Hs Hd.
    apply lookup_alter_Some in Hr' as [[-> (r0 & Hr0 & ->)]|[Hne Hr']]; [done|].
    rewrite <- (H10 _ _ _ Hr' Hs Hd). unfold ended, callsOf. simpl.
    by rewrite !broadcast_notin by eauto.
  - intros s p Hp. destruct (H11 _ _ Hp) as (Hl & d & Hx).
    assert (Hnin : s ∉ clients r).
    { intros Hin. rewrite (H5 _ _ _ Hr Hin) in Hl. done. }
    split; [done|]. exists d. simpl. by rewrite !broadcast_notin.
Qed.

(** The pipeline of a run that was just created, up to its [await]. *)
Lemma pipelineStart_fresh w h r0 message threadId :
  heap w = h ++ [r0] → clients r0 = [] →
  let cardId := randomUUID node (uuid_calls w) in
  pipelineStart node (length h) message threadId w =
  {| runs := runs w; threads := threads w;
     heap := h ++ [addEvent (tool_done fakeResults cardId)
                     (addEvent (tool_start message cardId) r0)];
     responses := responses w; uuid_calls := S (uuid_calls w);
     close_listeners := close_listeners w;
     awaiting := <[length h := {| s_message := message; s_threadId := threadId |}]>
                   (awaiting w);
     pending := pending w |}.
Proof.
  intros Hh Hc cardId. unfold pipelineStart. fold cardId.
  rewrite !pushEvent_unfold. unfold clientsOf. simpl. rewrite Hh.
  rewrite list_lookup_alter_eq, !list_lookup_middle by done. simpl. rewrite Hc.
  unfold with_awaiting, with_responses, with_heap, with_uuid_calls, broadcast.
  simpl. rewrite Hh. f_equal.
  rewrite list_alter_alter_eq.
  replace (length h) with (length h + 0) at 1 by lia.
  by rewrite alter_app_r.
Qed.

Lemma chat_accepted res body data message w :
  JSON_parse node (if bool_decide (body = []) then js "{}" else body) = Some data →
  prop (js "message") data = Some (JStr message) → trim message ≠ [] →
  chat node res body w =
  sendJson node res 200
    (JObj [(js "runId", JStr (randomUUID node (uuid_calls w)));
           (js "threadId",
            JStr (thread_id (chatThread node (prop (js "threadId") data) w)))])
    (accepted node message (prop (js "threadId") data) w).
Proof.
  intros Hparse Hm Ht. unfold chat. rewrite Hparse.
  destruct data as [| | | | |props]; try done.
  rewrite Hm. rewrite bool_decide_eq_false_2 by done.
  unfold accepted, chatThread.
  change (knownThread (prop (js "threadId") (JObj props))
            (with_runs _ (with_heap _ (with_uuid_calls S w))))
    with (knownThread (prop (js "threadId") (JObj props)) w).
  destruct (knownThread (prop (js "threadId") (JObj props)) w) as [thread|] eqn:Hk.
  - rewrite bool_decide_eq_true_2 by eauto. simpl.
    erewrite (pipelineStart_fresh _ (heap w)); [|simpl; reflexivity|reflexivity].
    done.
  - rewrite bool_decide_eq_false_2 by (intros [? ?]; done). simpl.
    erewrite (pipelineStart_fresh _ (heap w)); [|simpl; reflexivity|reflexivity].
    done.
Qed.

Lemma knownThread_Some threadId w thread :
  knownThread threadId w = Some thread ↔
  ∃ t, threadId = Some (JStr t) ∧ t ≠ [] ∧ threads w !! t = Some thread.
Proof.
  unfold knownThread. split.
  - destruct threadId as [[| | |t| |]|]; simpl; try done;
      try (by destruct (negb _)); try (by destruct b).
    case_bool_decide; simpl; [done|]. eauto.
  - intros (t & -> & Ht & Hth). simpl. by rewrite bool_decide_eq_false_2.
Qed.

Lemma Inv_accept message threadId w :
  Inv node w → Inv node (accepted node message threadId w).
Proof.
  intros HI. pose proof HI as [H1 H2 H3 H4 H5 H6 H7 H8 H9 H10 H11 H12].
  unfold accepted. set (known := bool_decide _). set (thread := chatThread _ _ _).
  split; simpl.
  - intros k a [[<- <-]|[_ Hk']]%lookup_insert_Some; rewrite length_app; simpl;
      [lia|]. apply H1 in Hk'. lia.
  - intros k a [[<- <-]|[_ Hk']]%lookup_insert_Some.
    + exists (uuid_calls w). split; [destruct known; lia|done].
    + destruct (H2 _ _ Hk') as (i & Hi & ->). exists i.
      split; [destruct known; lia|done].
  - assert (Hold : ∀ k th, threads w !! k = Some th →
                thread_id th = k ∧
                ∃ i, i < (if known then S (S (uuid_calls w))
                          else S (S (S (uuid_calls w)))) ∧ k = randomUUID node i).
    { intros k th Hth. destruct (H3 _ _ Hth) as (? & i & Hi & ->).
      split; [done|]. exists i. split; [destruct known; lia|done]. }
    destruct known eqn:Hknown; [done|].
    intros k th [[<- <-]|[_ Hth]]%lookup_insert_Some; [|eauto].
    split; [done|]. subst thread. unfold chatThread.
    apply bool_decide_eq_false in Hknown.
    destruct (knownThread threadId w); [exfalso; eauto|]. simpl.
    exists (S (uuid_calls w)). split; [lia|done].
  - intros a r [[Ha Hr]|[-> <-]]%lookup_snoc_Some; [eauto|apply NoDup_nil_2].
  - intros a r s [[Ha Hr]|[-> <-]]%lookup_snoc_Some Hs;
      [eauto|by apply elem_of_nil in Hs].
  - exact H6.
  - intros a r [[Ha Hr]|[-> <-]]%lookup_snoc_Some.
    + rewrite lookup_insert_ne by lia. eauto.
    + rewrite lookup_insert_eq. simpl. eauto.
  - intros a k [[<- <-]|[_ Hk']]%lookup_insert_Some; rewrite length_app; simpl;
      [lia|]. apply H8 in Hk'. lia.
  - intros a r s x [[Ha Hr]|[-> <-]]%lookup_snoc_Some Hs;
      [eauto|by apply elem_of_nil in Hs].
  - intros a r s [[Ha Hr]|[-> <-]]%lookup_snoc_Some Hs Hd;
      [exact (H10 _ _ _ Hr Hs Hd)|by apply elem_of_nil in Hs].
  - exact H11.
  - exact H12.
Qed.

Lemma Inv_sendJson res statusCode data w :
  Inv node w → close_listeners w !! res = None → pending w !! res = None →
  Inv node (sendJson node res statusCode data w).
Proof.
  intros HI Hres Hpend. unfold sendJson, setStatus, setHeader, end_.
  repeat (apply Inv_onRes; [|done|done]). done.
Qed.

Lemma Inv_notFound res w :
  Inv node w → close_listeners w !! res = None → pending w !! res = None →
  Inv node (notFound res w).
Proof.
  intros HI Hres Hpend. unfold notFound, setStatus, end_.
  repeat (apply Inv_onRes; [|done|done]). done.
Qed.

Lemma Inv_chat res body w :
  Inv node w → close_listeners w !! res = None → pending w !! res = None →
  Inv node (chat node res body w).
Proof.
  intros HI Hres Hpend.
  destruct (JSON_parse node (if bool_decide (body = []) then js "{}" else body))
    as [data|] eqn:Hparse; [|unfold chat; rewrite Hparse; by apply Inv_sendJson].
  destruct (prop (js "message") data) as [[| | |message| |]|] eqn:Hm;
    try (unfold chat; rewrite Hparse; destruct data; try rewrite Hm;
         by apply Inv_sendJson).
  destruct (decide (trim message = [])) as [Ht|Ht].
  - unfold chat. rewrite Hparse. destruct data; try rewrite Hm;
      try rewrite bool_decide_eq_true_2 by done; by apply Inv_sendJson.
  - rewrite (chat_accepted _ _ _ _ _ Hparse Hm Ht).
    apply Inv_sendJson; [by apply Inv_accept|done|done].
Qed.

Lemma eventsOf_addClient res run w :
  eventsOf run (with_heap (alter (addClient res) run) w) = eventsOf run w.
Proof.
  unfold eventsOf. simpl. rewrite list_lookup_alter_eq.
  by destruct (heap w !! run).
Qed.

(** The stream endpoint on a run that exists. *)
Lemma stream_found res pathname run w :
  runs w !! pop (split slash pathname) = Some run →
  let w1 := flushHeaders res
              (setHeader res "Connection" "keep-alive"
                 (setHeader res "Cache-Control" "no-cache"
                    (setHeader res "Content-Type" "text/event-stream" w))) in
  stream node res pathname w =
  with_close_listeners <[res := run]>
    (onRes res (replayed (payload node <$> eventsOf run w1))
       (with_heap (alter (addClient res) run) w1)).
Proof.
  intros Hrun w1. unfold stream. rewrite Hrun. fold w1.
  by rewrite foldl_write, eventsOf_addClient.
Qed.

Lemma Inv_stream res pathname x w :
  Inv node w → close_listeners w !! res = None → pending w !! res = None →
  responses w !! res = Some x → received x = [] → List.filter isEnd (calls x) = [] →
  Inv node (stream node res pathname w).
Proof.
  intros HI Hres Hpend Hx Hrx Hcx.
  destruct (runs w !! pop (split slash pathname)) as [run|] eqn:Hrun;
    [|unfold stream; rewrite Hrun; by apply Inv_notFound].
  rewrite (stream_found _ _ _ _ Hrun). cbv zeta.
  eapply Inv_attach.
  - unfold flushHeaders, setHeader. repeat (apply Inv_onRes; [|done|done]). done.
  - done.
  - done.
  - unfold flushHeaders, setHeader, onRes. simpl.
    rewrite !list_lookup_alter_eq, Hx. simpl. reflexivity.
  - done.
  - simpl. rewrite !List.filter_app, Hcx. done.
Qed.

Lemma Inv_handler res method pathname body x w :
  Inv node w → close_listeners w !! res = None → pending w !! res = None →
  responses w !! res = Some x → received x = [] → List.filter isEnd (calls x) = [] →
  Inv node (handler node res method pathname body w).
Proof.
  intros HI Hres Hpend Hx Hrx Hcx. unfold handler.
  set (w1 := setHeader res "Access-Control-Allow-Methods" _ _).
  assert (HI1 : Inv node w1).
  { unfold w1, setHeader. repeat (apply Inv_onRes; [|done|done]). done. }
  assert (Hres1 : close_listeners w1 !! res = None) by done.
  assert (Hpend1 : pending w1 !! res = None) by done.
  case_bool_decide.
  { unfold setStatus, end_. repeat (apply Inv_onRes; [|done|done]). done. }
  destruct (if _ : bool then serveStatic node res pathname w1 else None)
    as [w'|] eqn:Hstatic.
  { destruct (_ && _ && _); [|done]. unfold serveStatic in Hstatic.
    destruct (fileRead node pathname) as [path|]; [|done]. simpl in Hstatic.
    destruct (readFile node path) as [data|]; [|done]. simpl in Hstatic.
    injection Hstatic as <-. unfold setStatus, setHeader, end_.
    repeat (apply Inv_onRes; [|done|done]). done. }
  destruct (bool_decide (method = js "GET") && bool_decide (pathname = js "/api/health"));
    [by apply Inv_sendJson|].
  destruct (bool_decide (method = js "GET") && negb (bool_decide (pathname = []))
            && startsWith pathname (js "/api/stream/")).
  { eapply Inv_stream; [done|done|done| | |].
    - unfold w1, setHeader, onRes. simpl.
      rewrite !list_lookup_alter_eq, Hx. simpl. reflexivity.
    - done.
    - simpl. rewrite !List.filter_app, Hcx. done. }
  destruct (bool_decide (method = js "POST") && bool_decide (pathname = js "/api/chat"));
    [by apply Inv_chat|by apply Inv_notFound].
Qed.

(** The pieces of the handler. The response object of a request that has
    just come in, and the one of a pending request, carry at most the CORS
    headers. *)
Lemma Inv_api res method pathname d w :
  Inv node w → close_listeners w !! res = None → pending w !! res = None →
  responses w !! res = Some {| calls := corsCalls; received := []; destroyed := d |} →
  Inv node (api node res method pathname w).
Proof.
  intros HI Hres Hpend Hx. unfold api.
  destruct (bool_decide (method = js "GET") && bool_decide (pathname = js "/api/health"));
    [by apply Inv_sendJson|].
  destruct (bool_decide (method = js "GET") && negb (bool_decide (pathname = []))
            && startsWith pathname (js "/api/stream/"));
    [by eapply Inv_stream|].
  destruct (bool_decide (method = js "POST") && bool_decide (pathname = js "/api/chat"));
    [|by apply Inv_notFound].
  apply Inv_pend; [done|split; eauto|done].
Qed.

Lemma cors_set res x w :
  responses w !! res = Some x → calls x = [] →
  responses (setHeader res "Access-Control-Allow-Methods" "GET,POST,OPTIONS"
               (setHeader res "Access-Control-Allow-Headers" "Content-Type"
                  (setHeader res "Access-Control-Allow-Origin" "*" w))) !! res =
  Some {| calls := corsCalls; received := received x; destroyed := destroyed x |}.
Proof.
  intros Hx Hc. unfold setHeader, onRes. simpl.
  rewrite !list_lookup_alter_eq, Hx. simpl. unfold called. simpl. by rewrite Hc.
Qed.

Lemma Inv_handlerEntry res method pathname x w :
  Inv node w → close_listeners w !! res = None → pending w !! res = None →
  responses w !! res = Some x → received x = [] → calls x = [] →
  Inv node (handlerEntry node res method pathname w).
Proof.
  intros HI Hres Hpend Hx Hrx Hcx. unfold handlerEntry.
  pose proof (cors_set res x w Hx Hcx) as Hx1. rewrite Hrx in Hx1.
  set (w1 := setHeader res "Access-Control-Allow-Methods" _ _) in *.
  assert (HI1 : Inv node w1).
  { unfold w1, setHeader. repeat (apply Inv_onRes; [|done|done]). done. }
  assert (Hres1 : close_listeners w1 !! res = None) by done.
  assert (Hpend1 : pending w1 !! res = None) by done.
  clearbody w1.
  case_bool_decide.
  { unfold setStatus, end_. repeat (apply Inv_onRes; [|done|done]). done. }
  destruct (_ && _ && negb (startsWith pathname (js "/api"))) eqn:Hroute;
    [|by eapply Inv_api].
  destruct (fileRead node pathname) as [path|]; [|by eapply Inv_api].
  apply Inv_pend; [done|split; eauto|].
  intros ? [= <-]. apply andb_true_iff in Hroute as [_ Hroute].
  by apply negb_true_iff in Hroute.
Qed.

Lemma Inv_handlerResume res pathname d w :
  Inv node w → close_listeners w !! res = None → pending w !! res = None →
  responses w !! res = Some {| calls := corsCalls; received := []; destroyed := d |} →
  Inv node (handlerResume node res pathname w).
Proof.
  intros HI Hres Hpend Hx. unfold handlerResume.
  destruct (serveStatic node res pathname w) as [w'|] eqn:Hstatic;
    [|by eapply Inv_api].
  unfold serveStatic in Hstatic.
  destruct (fileRead node pathname) as [path|]; [|done]. simpl in Hstatic.
  destruct (readFile node path) as [data|]; [|done]. simpl in Hstatic.
  injection Hstatic as <-. unfold setStatus, setHeader, end_.
  repeat (apply Inv_onRes; [|done|done]). done.
Qed.

(** A pending request, once it is taken out of [pending]. *)
Lemma unpend_facts res p w :
  Inv node w → pending w !! res = Some p →
  let w0 := with_pending (delete res) w in
  Inv node w0 ∧ close_listeners w0 !! res = None ∧ pending w0 !! res = None ∧
  ∃ d, responses w0 !! res =
       Some {| calls := corsCalls; received := []; destroyed := d |}.
Proof.
  intros HI Hp w0. destruct (inv_pending _ _ HI _ _ Hp) as (Hl & d & Hx).
  split; [by apply Inv_unpend|]. split; [done|].
  split; [apply lookup_delete_eq|eauto].
Qed.

Lemma Inv_step w i : Inv node w → Inv node (step node w i).
Proof.
  intros HI.
  assert (Hnew : pending (arrive w) !! length (responses w) = None).
  { simpl. destruct (pending w !! length (responses w)) as [p|] eqn:Hp; [|done].
    destruct (inv_pending _ _ HI _ _ Hp) as (_ & d & Hx).
    apply lookup_lt_Some in Hx. lia. }
  destruct i as [method pathname body|run outcome|res|res|method pathname|res chunk|res|res].
  - simpl. eapply Inv_handler.
    + by apply Inv_new_response.
    + by apply new_response_fresh.
    + done.
    + simpl. by apply list_lookup_middle.
    + done.
    + done.
  - by apply Inv_settle.
  - by apply Inv_break.
  - by apply Inv_close.
  - simpl. eapply Inv_handlerEntry.
    + by apply Inv_new_response.
    + by apply new_response_fresh.
    + done.
    + simpl. by apply list_lookup_middle.
    + done.
    + done.
  - simpl. unfold onData. destruct (pending w !! res) as [[p|b]|] eqn:Hp; try done.
    apply Inv_pend; [done|by eapply inv_pending|done].
  - simpl. unfold onEnd. destruct (pending w !! res) as [[p|b]|] eqn:Hp; try done.
    destruct (unpend_facts res _ w HI Hp) as (HI0 & Hl0 & Hp0 & d & Hx0).
    by apply Inv_chat.
  - simpl. unfold onRead. destruct (pending w !! res) as [[p|b]|] eqn:Hp; try done.
    destruct (unpend_facts res _ w HI Hp) as (HI0 & Hl0 & Hp0 & d & Hx0).
    by eapply Inv_handlerResume.
Qed.

(** Every state the server reaches from its start satisfies the invariant. *)
Lemma Inv_exec w inputs : Inv node w → Inv node (exec node w inputs).
Proof.
  revert w. induction inputs as [|i inputs IH]; intros w HI; [done|].
  simpl. apply IH. by apply Inv_step.
Qed.

Lemma Inv_reach inputs : Inv node (exec node init inputs).
Proof. apply Inv_exec, Inv_init. Qed.

(** *** The shape of every step *)

Lemma onRes_onRes res f g w : onRes res f (onRes res g w) = onRes res (f ∘ g) w.
Proof.
  unfold onRes, with_responses. simpl. f_equal. apply list_alter_alter_eq.
Qed.

Lemma keeps_called op : keeps (called op).
Proof. by intros x. Qed.

Lemma keeps_sent op chunk : keeps (sent op chunk).
Proof. by intros x. Qed.

Lemma keeps_replayed chunks : keeps (replayed chunks).
Proof. by intros x. Qed.

Lemma keeps_compose f g : keeps f → keeps g → keeps (f ∘ g).
Proof. intros Hf Hg x. simpl. by rewrite Hf, Hg. Qed.

#[local] Hint Resolve keeps_called keeps_sent keeps_replayed keeps_compose : keeps.

Lemma sendJson_onRes res statusCode data w :
  ∃ F, keeps F ∧ sendJson node res statusCode data w = onRes res F w.
Proof.
  eexists. split; [|unfold sendJson, setStatus, setHeader, end_;
                     rewrite !onRes_onRes; reflexivity].
  auto 10 with keeps.
Qed.

Lemma notFound_onRes res w : ∃ F, keeps F ∧ notFound res w = onRes res F w.
Proof.
  eexists. split; [|unfold notFound, setStatus, end_;
                     rewrite !onRes_onRes; reflexivity].
  auto with keeps.
Qed.

Lemma respond_after res G W w :
  keeps G → (∃ F, keeps F ∧ W = onRes res F (onRes res G w)) →
  ∃ F, keeps F ∧ W = onRes res F w.
Proof.
  intros HG (F & HF & ->). exists (F ∘ G). split; [auto with keeps|].
  apply onRes_onRes.
Qed.

(** The three shapes of a request. *)
Lemma handler_shape res method pathname body w :
  let W := handler node res method pathname body w in
  (∃ F, keeps F ∧ W = onRes res F w) ∨
  (∃ run F, keeps F ∧ runs w !! pop (split slash pathname) = Some run ∧
     W = with_close_listeners <[res := run]>
           (with_heap (alter (addClient res) run) (onRes res F w))) ∨
  (∃ message threadId F, keeps F ∧
     W = onRes res F (accepted node message threadId w)).
Proof.
  unfold handler.
  set (G := called (SetHeader (js "Access-Control-Allow-Methods") (js "GET,POST,OPTIONS"))
            ∘ (called (SetHeader (js "Access-Control-Allow-Headers") (js "Content-Type"))
               ∘ called (SetHeader (js "Access-Control-Allow-Origin") (js "*")))).
  assert (HG : keeps G) by (unfold G; auto with keeps).
  assert (Hw1 : setHeader res "Access-Control-Allow-Methods" "GET,POST,OPTIONS"
            (setHeader res "Access-Control-Allow-Headers" "Content-Type"
               (setHeader res "Access-Control-Allow-Origin" "*" w)) = onRes res G w).
  { unfold setHeader. by rewrite !onRes_onRes. }
  rewrite Hw1. clear Hw1. cbv zeta.
  case_bool_decide.
  { left. apply (respond_after _ G); [done|]. eexists.
    split; [|unfold setStatus, end_; rewrite onRes_onRes; reflexivity].
    auto with keeps. }
  destruct (if _ : bool then serveStatic node res pathname (onRes res G w) else None)
    as [w'|] eqn:Hstatic.
  { left. apply (respond_after _ G); [done|].
    destruct (_ && _ && _); [|done]. unfold serveStatic in Hstatic.
    destruct (fileRead node pathname) as [path|]; [|done]. simpl in Hstatic.
    destruct (readFile node path) as [data|]; [|done]. simpl in Hstatic.
    injection Hstatic as <-. eexists.
    split; [|unfold setStatus, setHeader, end_; rewrite !onRes_onRes; reflexivity].
    auto 10 with keeps. }
  destruct (bool_decide (method = js "GET") && bool_decide (pathname = js "/api/health")).
  { left. apply (respond_after _ G); [done|]. apply sendJson_onRes. }
  destruct (bool_decide (method = js "GET") && negb (bool_decide (pathname = []))
            && startsWith pathname (js "/api/stream/")).
  { destruct (runs w !! pop (split slash pathname)) as [run|] eqn:Hrun.
    - right. left. exists run. rewrite (stream_found _ _ run) by done. cbv zeta.
      eexists. split; [|split; [done|]].
      2:{ unfold flushHeaders, setHeader.
          change (onRes res ?f (with_heap ?h ?w0))
            with (with_heap h (onRes res f w0)).
          rewrite !onRes_onRes. reflexivity. }
      auto 10 with keeps.
    - left. apply (respond_after _ G); [done|]. unfold stream.
      change (runs (onRes res G w)) with (runs w). rewrite Hrun.
      apply notFound_onRes. }
  destruct (bool_decide (method = js "POST") && bool_decide (pathname = js "/api/chat"));
    [|left; apply (respond_after _ G); [done|]; apply notFound_onRes].
  destruct (JSON_parse node (if bool_decide (body = []) then js "{}" else body))
    as [data|] eqn:Hparse;
    [|left; apply (respond_after _ G); [done|]; unfold chat; rewrite Hparse;
      apply sendJson_onRes].
  destruct (prop (js "message") data) as [[| | |message| |]|] eqn:Hm;
    try (left; apply (respond_after _ G); [done|]; unfold chat; rewrite Hparse;
         destruct data; try rewrite Hm; apply sendJson_onRes).
  destruct (decide (trim message = [])) as [Ht|Ht].
  - left. apply (respond_after _ G); [done|]. unfold chat. rewrite Hparse.
    destruct data; try rewrite Hm; try rewrite bool_decide_eq_true_2 by done;
      apply sendJson_onRes.
  - right. right. rewrite (chat_accepted _ _ _ _ _ Hparse Hm Ht).
    destruct (sendJson_onRes res 200
                (JObj [(js "runId", JStr (randomUUID node (uuid_calls (onRes res G w))));
                       (js "threadId",
                        JStr (thread_id (chatThread node (prop (js "threadId") data)
                                           (onRes res G w))))])
                (accepted node message (prop (js "threadId") data) (onRes res G w)))
      as (F & HF & ->).
    exists message, (prop (js "threadId") data), (F ∘ G).
    split; [auto with keeps|].
    change (accepted node message (prop (js "threadId") data) (onRes res G w))
      with (onRes res G (accepted node message (prop (js "threadId") data) w)).
    apply onRes_onRes.
Qed.

(** The shapes of the pieces of the handler. *)
Lemma chat_shape res body w :
  (∃ F, keeps F ∧ chat node res body w = onRes res F w) ∨
  (∃ message threadId F, keeps F ∧
     chat node res body w = onRes res F (accepted node message threadId w)).
Proof.
  destruct (JSON_parse node (if bool_decide (body = []) then js "{}" else body))
    as [data|] eqn:Hparse;
    [|left; unfold chat; rewrite Hparse; apply sendJson_onRes].
  destruct (prop (js "message") data) as [[| | |message| |]|] eqn:Hm;
    try (left; unfold chat; rewrite Hparse;
         destruct data; try rewrite Hm; apply sendJson_onRes).
  destruct (decide (trim message = [])) as [Ht|Ht].
  - left. unfold chat. rewrite Hparse.
    destruct data; try rewrite Hm; try rewrite bool_decide_eq_true_2 by done;
      apply sendJson_onRes.
  - right. rewrite (chat_accepted _ _ _ _ _ Hparse Hm Ht).
    destruct (sendJson_onRes res 200
                (JObj [(js "runId", JStr (randomUUID node (uuid_calls w)));
                       (js "threadId",
                        JStr (thread_id (chatThread node (prop (js "threadId") data) w)))])
                (accepted node message (prop (js "threadId") data) w))
      as (F & HF & ->).
    eauto.
Qed.

Lemma api_shape res method pathname w :
  let W := api node res method pathname w in
  (∃ F, keeps F ∧ W = onRes res F w) ∨
  (∃ run F, keeps F ∧ runs w !! pop (split slash pathname) = Some run ∧
     W = with_close_listeners <[res := run]>
           (with_heap (alter (addClient res) run) (onRes res F w))) ∨
  W = with_pending <[res := Receiving []]> w.
Proof.
  unfold api.
  destruct (bool_decide (method = js "GET") && bool_decide (pathname = js "/api/health")).
  { left. apply sendJson_onRes. }
  destruct (bool_decide (method = js "GET") && negb (bool_decide (pathname = []))
            && startsWith pathname (js "/api/stream/")).
  { destruct (runs w !! pop (split slash pathname)) as [run|] eqn:Hrun.
    - right. left. exists run. rewrite (stream_found _ _ run) by done. cbv zeta.
      eexists. split; [|split; [done|]].
      2:{ unfold flushHeaders, setHeader.
          change (onRes res ?f (with_heap ?h ?w0))
            with (with_heap h (onRes res f w0)).
          rewrite !onRes_onRes. reflexivity. }
      auto 10 with keeps.
    - left. unfold stream. rewrite Hrun. apply notFound_onRes. }
  destruct (bool_decide (method = js "POST") && bool_decide (pathname = js "/api/chat"));
    [by right; right|left; apply notFound_onRes].
Qed.

(** After the static branch, a path that does not begin with /api finds no
    route. *)
Lemma api_static res pathname w :
  startsWith pathname (js "/api") = false →
  api node res (js "GET") pathname w = notFound res w.
Proof.
  intros Hapi. unfold api.
  assert (Hs : startsWith pathname (js "/api/stream/") = false).
  { destruct (startsWith pathname (js "/api/stream/")) eqn:E; [|done].
    apply (startsWith_app _ (js "/api") (js "/stream/")) in E. congruence. }
  assert (Hh : bool_decide (pathname = js "/api/health") = false).
  { apply bool_decide_eq_false. intros ->. done. }
  rewrite Hs, Hh, !andb_false_r.
  rewrite (bool_decide_eq_false_2 (js "GET" = js "POST")) by done. reflexivity.
Qed.

Lemma handlerResume_shape res pathname w :
  startsWith pathname (js "/api") = false →
  ∃ F, keeps F ∧ handlerResume node res pathname w = onRes res F w.
Proof.
  intros Hapi. unfold handlerResume.
  destruct (serveStatic node res pathname w) as [w'|] eqn:Hstatic.
  - unfold serveStatic in Hstatic.
    destruct (fileRead node pathname) as [path|]; [|done]. simpl in Hstatic.
    destruct (readFile node path) as [data|]; [|done]. simpl in Hstatic.
    injection Hstatic as <-. eexists.
    split; [|unfold setStatus, setHeader, end_; rewrite !onRes_onRes; reflexivity].
    auto 10 with keeps.
  - rewrite api_static by done. apply notFound_onRes.
Qed.

Lemma handlerEntry_shape res method pathname w :
  let W := handlerEntry node res method pathname w in
  (∃ F, keeps F ∧ W = onRes res F w) ∨
  (∃ run F, keeps F ∧ runs w !! pop (split slash pathname) = Some run ∧
     W = with_close_listeners <[res := run]>
           (with_heap (alter (addClient res) run) (onRes res F w))) ∨
  (∃ p F, keeps F ∧ W = with_pending <[res := p]> (onRes res F w)).
Proof.
  unfold handlerEntry.
  set (G := called (SetHeader (js "Access-Control-Allow-Methods") (js "GET,POST,OPTIONS"))
            ∘ (called (SetHeader (js "Access-Control-Allow-Headers") (js "Content-Type"))
               ∘ called (SetHeader (js "Access-Control-Allow-Origin") (js "*")))).
  assert (HG : keeps G) by (unfold G; auto with keeps).
  assert (Hw1 : setHeader res "Access-Control-Allow-Methods" "GET,POST,OPTIONS"
            (setHeader res "Access-Control-Allow-Headers" "Content-Type"
               (setHeader res "Access-Control-Allow-Origin" "*" w)) = onRes res G w).
  { unfold setHeader. by rewrite !onRes_onRes. }
  rewrite Hw1. clear Hw1. cbv zeta.
  assert (Hapi : ∀ m,
    (∃ F, keeps F ∧ api node res m pathname (onRes res G w) = onRes res F w) ∨
    (∃ run F, keeps F ∧ runs w !! pop (split slash pathname) = Some run ∧
       api node res m pathname (onRes res G w) =
       with_close_listeners <[res := run]>
         (with_heap (alter (addClient res) run) (onRes res F w))) ∨
    (∃ p F, keeps F ∧
       api node res m pathname (onRes res G w) = with_pending <[res := p]> (onRes res F w))).
  { intros m.
    destruct (api_shape res m pathname (onRes res G w))
      as [(F & HF & ->)|[(run & F & HF & Hrun & ->)| ->]].
    - left. exists (F ∘ G). split; [auto with keeps|apply onRes_onRes].
    - right. left. exists run, (F ∘ G). split; [auto with keeps|].
      split; [done|]. by rewrite onRes_onRes.
    - right. right. eauto. }
  case_bool_decide.
  { left. apply (respond_after _ G); [done|]. eexists.
    split; [|unfold setStatus, end_; rewrite onRes_onRes; reflexivity].
    auto with keeps. }
  destruct (_ && _ && negb (startsWith pathname (js "/api"))); [|apply Hapi].
  destruct (fileRead node pathname) as [path|]; [|apply Hapi].
  right. right. eauto.
Qed.

Lemma step_shape w i : Inv node w → Shape node w i (step node w i).
Proof.
  intros HI.
  destruct i as [method pathname body|run outcome|res|res|method pathname|res chunk|res|res];
    simpl.
  - destruct (handler_shape (length (responses w)) method pathname body (arrive w))
      as [(F & HF & ->)|[(run & F & HF & Hrun & ->)|(m & t & F & HF & ->)]].
    + by constructor.
    + constructor; [done|]. by apply (inv_runs _ _ HI) in Hrun.
    + by constructor.
  - destruct (awaiting w !! run) as [k|] eqn:Hk;
      [|unfold pipelineResume; rewrite Hk; constructor].
    destruct (heap w !! run) as [r|] eqn:Hr.
    + rewrite (pipelineResume_unfold _ _ _ _ _ Hk Hr). by constructor.
    + apply (inv_awaiting_bound _ _ HI) in Hk. apply lookup_ge_None in Hr. lia.
  - constructor.
  - destruct (close_listeners w !! res) as [run|] eqn:Hl; by constructor.
  - destruct (handlerEntry_shape (length (responses w)) method pathname (arrive w))
      as [(F & HF & ->)|[(run & F & HF & Hrun & ->)|(p & F & HF & ->)]].
    + by constructor.
    + constructor; [done|]. by apply (inv_runs _ _ HI) in Hrun.
    + by constructor.
  - unfold onData. destruct (pending w !! res) as [[p|b]|] eqn:Hp;
      try apply shape_idle.
    by eapply shape_data.
  - unfold onEnd. destruct (pending w !! res) as [[p|b]|] eqn:Hp;
      try apply shape_idle.
    destruct (chat_shape res b (with_pending (delete res) w))
      as [(F & HF & ->)|(m & t & F & HF & ->)].
    + eapply shape_answer; [by left|done|done].
    + eapply shape_accept_late; [by left|done|done].
  - unfold onRead. destruct (pending w !! res) as [[p|b]|] eqn:Hp;
      try apply shape_idle.
    destruct (handlerResume_shape res p (with_pending (delete res) w))
      as (F & HF & ->); [by eapply inv_reading|].
    eapply shape_answer; [by right|done|done].
Qed.

(** *** What a step leaves alone *)

(** A run object stays where it is; its log only grows, and not at all once
    the run is done; a client stays unless its own ['close'] event fires. *)
Lemma Shape_heap w i w' run r :
  Inv node w → Shape node w i w' → heap w !! run = Some r →
  ∃ r', heap w' !! run = Some r' ∧
        (∃ later, events r' = events r ++ later) ∧
        (done r = true → events r' = events r ∧ done r' = true) ∧
        (∀ s, s ∈ clients r → i ≠ Close s → s ∈ clients r').
Proof.
  intros HI HS Hr.
  assert (Hsame : ∃ r', Some r = Some r' ∧
            (∃ later, events r' = events r ++ later) ∧
            (done r = true → events r' = events r ∧ done r' = true) ∧
            (∀ s, s ∈ clients r → i ≠ Close s → s ∈ clients r')).
  { exists r. split; [done|]. split; [exists []; by rewrite app_nil_r|]. eauto. }
  destruct HS as [i F HF|i a F HF Ha|i m t F HF|a outcome k r0 Hk Hr0|i|res|res a Hl|i q F HF|i s0 q q' Hq|i s0 q F Hi0 Hq HF|i s0 q m t F Hi0 Hq HF];
    simpl; try (rewrite Hr; exact Hsame).
  - destruct (decide (run = a)) as [->|Hne];
      [|rewrite list_lookup_alter_ne by done; rewrite Hr; exact Hsame].
    rewrite list_lookup_alter_eq, Hr. simpl. eexists. split; [done|].
    split; [exists []; by rewrite app_nil_r|]. split; [done|].
    intros s Hs _. simpl. case_bool_decide; [done|]. apply elem_of_app. eauto.
  - rewrite lookup_app_l by (by eapply lookup_lt_Some). rewrite Hr. exact Hsame.
  - destruct (decide (run = a)) as [->|Hne];
      [|rewrite list_lookup_alter_ne by done; rewrite Hr; exact Hsame].
    rewrite list_lookup_alter_eq, Hr. simpl. eexists. split; [done|].
    split; [by eexists|]. split; [|done].
    intros Hd. pose proof (inv_phase _ _ HI _ _ Hr) as Hp.
    rewrite Hk in Hp. destruct Hp as [Hp _]. congruence.
  - destruct (decide (run = a)) as [->|Hne];
      [|rewrite list_lookup_alter_ne by done; rewrite Hr; exact Hsame].
    rewrite list_lookup_alter_eq, Hr. simpl. eexists. split; [done|].
    split; [exists []; by rewrite app_nil_r|]. split; [done|].
    intros s Hs Hi. simpl. apply list_elem_of_filter. split; [|done].
    intros ->. done.
  - rewrite lookup_app_l by (by eapply lookup_lt_Some). rewrite Hr. exact Hsame.
Qed.

(** An older response object stays where it is; its socket is destroyed
    only by a break; nothing is called on it once the run it listens to has
    no pipeline left. *)
(** An answer on the response object of a pending request, seen from any
    response object. *)
Lemma answered_res w (s0 : nat) q F (s : nat) x (P : Prop) :
  Inv node w → pending w !! s0 = Some q → keeps F → responses w !! s = Some x →
  ∃ x', alter F s0 (responses w) !! s = Some x' ∧
        (P → destroyed x' = destroyed x) ∧
        (∀ a, close_listeners w !! s = Some a → awaiting w !! a = None →
              calls x' = calls x).
Proof.
  intros HI Hq HF Hx. destruct (inv_pending _ _ HI _ _ Hq) as [Hl _].
  destruct (decide (s = s0)) as [->|Hne].
  - rewrite list_lookup_alter_eq, Hx. simpl. eexists. split; [done|].
    split; [by rewrite HF|]. intros a Ha. congruence.
  - rewrite list_lookup_alter_ne by done. eauto.
Qed.

Lemma Shape_res w i w' (s : nat) x :
  Inv node w → Shape node w i w' → responses w !! s = Some x →
  ∃ x', responses w' !! s = Some x' ∧
        (i ≠ Break s → destroyed x' = destroyed x) ∧
        (∀ a, close_listeners w !! s = Some a → awaiting w !! a = None →
              calls x' = calls x).
Proof.
  intros HI HS Hx. pose proof (lookup_lt_Some _ _ _ Hx) as Hlt.
  assert (Hsame : ∃ x', Some x = Some x' ∧
            (i ≠ Break s → destroyed x' = destroyed x) ∧
            (∀ a, close_listeners w !! s = Some a → awaiting w !! a = None →
                  calls x' = calls x)) by eauto.
  destruct HS as [i F HF|i a F HF Ha|i m t F HF|a outcome k r0 Hk Hr0|i|res|res a Hl|i q F HF|i s0 q q' Hq|i s0 q F Hi0 Hq HF|i s0 q m t F Hi0 Hq HF];
    simpl; try (rewrite Hx; exact Hsame).
  1-3: rewrite list_lookup_alter_ne by lia; rewrite lookup_app_l by done;
       rewrite Hx; exact Hsame.
  - destruct (decide (s ∈ clients r0)) as [Hin|Hnin].
    + rewrite !broadcast_in by eauto using inv_nodup. rewrite Hx. simpl.
      eexists. split; [done|]. split; [done|]. intros a' Ha' Hnone.
      rewrite (inv_listen _ _ HI _ _ _ Hr0 Hin) in Ha'. congruence.
    + rewrite !broadcast_notin by done. rewrite Hx. exact Hsame.
  - destruct (decide (s = res)) as [->|Hne];
      [|rewrite list_lookup_alter_ne by done; rewrite Hx; exact Hsame].
    rewrite list_lookup_alter_eq, Hx. simpl. eexists. split; [done|].
    split; [done|]. done.
  - rewrite list_lookup_alter_ne by lia. rewrite lookup_app_l by done.
    rewrite Hx. exact Hsame.
  - by apply (answered_res w s0 q F s x).
  - by apply (answered_res w s0 q F s x).
Qed.

Lemma Shape_listen w i w' (s a : nat) :
  Inv node w → Shape node w i w' → close_listeners w !! s = Some a →
  close_listeners w' !! s = Some a.
Proof.
  intros HI HS Hs. pose proof (inv_listen_bound _ _ HI _ _ Hs) as Hlt.
  destruct HS; simpl; try done. rewrite lookup_insert_ne by lia. done.
Qed.

Lemma Shape_awaiting w i w' (a : nat) :
  Inv node w → Shape node w i w' → a < length (heap w) →
  awaiting w !! a = None → awaiting w' !! a = None.
Proof.
  intros HI HS Ha Hnone. destruct HS; simpl; try done.
  - rewrite lookup_insert_ne by lia. done.
  - destruct (decide (run = a)) as [->|Hne];
      [apply lookup_delete_eq|by rewrite lookup_delete_ne].
  - rewrite lookup_insert_ne by lia. done.
Qed.

(** *** Along a whole sequence of inputs *)

(** A client that stays connected stays a client with a live socket, while
    the log of its run grows. *)
Lemma exec_attached inputs w run r (s : nat) x :
  Inv node w → heap w !! run = Some r → s ∈ clients r →
  responses w !! s = Some x → destroyed x = false →
  Close s ∉ inputs → Break s ∉ inputs →
  ∃ r' x' later,
    heap (exec node w inputs) !! run = Some r' ∧ events r' = events r ++ later ∧
    s ∈ clients r' ∧ responses (exec node w inputs) !! s = Some x' ∧
    destroyed x' = false.
Proof.
  revert w r x. induction inputs as [|i inputs IH]; intros w r x HI Hr Hs Hx Hd Hc Hb.
  - exists r, x, []. rewrite app_nil_r. done.
  - apply not_elem_of_cons in Hc as [Hci Hc]. apply not_elem_of_cons in Hb as [Hbi Hb].
    pose proof (step_shape w i HI) as HS.
    destruct (Shape_heap _ _ _ _ _ HI HS Hr) as (r1 & Hr1 & [l1 Hl1] & _ & Hcl).
    destruct (Shape_res _ _ _ _ _ HI HS Hx) as (x1 & Hx1 & Hd1 & _).
    destruct (IH (step node w i) r1 x1) as (r' & x' & later & Hr' & Hev & Hs' & Hx' & Hd');
      [by apply Inv_step|done|by apply Hcl|done|by rewrite Hd1|done|done|].
    exists r', x', (l1 ++ later). simpl. split; [done|].
    split; [by rewrite Hev, Hl1, app_assoc|done].
Qed.

(** Once the pipeline of a run is over, nothing more is called on the
    response objects that listen to it, and its log and flag are final. *)
Lemma exec_quiet inputs w run r (s : nat) x :
  Inv node w → heap w !! run = Some r → awaiting w !! run = None →
  close_listeners w !! s = Some run → responses w !! s = Some x →
  ∃ x', responses (exec node w inputs) !! s = Some x' ∧ calls x' = calls x.
Proof.
  revert w r x. induction inputs as [|i inputs IH]; intros w r x HI Hr Ha Hl Hx.
  - eauto.
  - pose proof (step_shape w i HI) as HS.
    destruct (Shape_heap _ _ _ _ _ HI HS Hr) as (r1 & Hr1 & _).
    destruct (Shape_res _ _ _ _ _ HI HS Hx) as (x1 & Hx1 & _ & Hc1).
    destruct (IH (step node w i) r1 x1) as (x' & Hx' & Hc');
      [by apply Inv_step|done| |by eapply Shape_listen|done|].
    { eapply Shape_awaiting; [done|done| |done]. by eapply lookup_lt_Some. }
    exists x'. simpl. split; [done|]. rewrite Hc'. eauto.
Qed.

Lemma exec_done inputs w run r :
  Inv node w → heap w !! run = Some r → done r = true →
  ∃ r', heap (exec node w inputs) !! run = Some r' ∧
        events r' = events r ∧ done r' = true.
Proof.
  revert w r. induction inputs as [|i inputs IH]; intros w r HI Hr Hd.
  - eauto.
  - pose proof (step_shape w i HI) as HS.
    destruct (Shape_heap _ _ _ _ _ HI HS Hr) as (r1 & Hr1 & _ & Hfin & _).
    destruct (Hfin Hd) as [He1 Hd1].
    destruct (IH (step node w i) r1) as (r' & Hr' & He' & Hd');
      [by apply Inv_step|done|done|].
    exists r'. simpl. split; [done|]. split; [congruence|done].
Qed.

(** *** The stream endpoint *)

Lemma handler_stream res pathname body w :
  startsWith pathname (js "/api/stream/") = true →
  handler node res (js "GET") pathname body w =
  stream node res pathname
    (setHeader res "Access-Control-Allow-Methods" "GET,POST,OPTIONS"
       (setHeader res "Access-Control-Allow-Headers" "Content-Type"
          (setHeader res "Access-Control-Allow-Origin" "*" w))).
Proof.
  intros Hp. unfold handler.
  assert (Hapi : startsWith pathname (js "/api") = true).
  { apply (startsWith_app _ _ (js "/stream/")). exact Hp. }
  assert (Hne : bool_decide (pathname = []) = false).
  { apply bool_decide_eq_false. intros ->. done. }
  assert (Hh : bool_decide (pathname = js "/api/health") = false).
  { apply bool_decide_eq_false. intros ->. done. }
  rewrite Hapi, Hne, Hh, Hp. reflexivity.
Qed.

(** Attaching to a run that exists, in closed form. *)
Lemma step_stream w pathname body run :
  startsWith pathname (js "/api/stream/") = true →
  runs w !! pop (split slash pathname) = Some run →
  ∃ F, keeps F ∧
       List.filter isEnd (calls (F newResponse)) = [] ∧
       step node w (Request (js "GET") pathname body) =
       with_close_listeners <[length (responses w) := run]>
         (with_heap (alter (addClient (length (responses w))) run)
            (onRes (length (responses w)) F (arrive w))).
Proof.
  intros Hp Hrun. simpl. rewrite handler_stream by done.
  rewrite (stream_found _ _ run) by done. cbv zeta.
  eexists. split; [|split].
  3:{ unfold flushHeaders, setHeader.
      change (onRes ?res ?f (with_heap ?h ?w0)) with (with_heap h (onRes res f w0)).
      rewrite !onRes_onRes. reflexivity. }
  - auto 10 with keeps.
  - unfold compose. simpl. apply filter_isEnd_writes.
Qed.

(** The stream endpoint answers 404 exactly when the run id is unknown. *)
Lemma stream_404 w pathname body :
  startsWith pathname (js "/api/stream/") = true →
  let w' := step node w (Request (js "GET") pathname body) in
  (SetStatus 404 ∈ callsOf (length (responses w)) w') ↔
  runs w !! pop (split slash pathname) = None.
Proof.
  intros Hp w'. unfold w'. simpl. rewrite handler_stream by done.
  destruct (runs w !! pop (split slash pathname)) as [run|] eqn:Hrun.
  - rewrite (stream_found _ _ run) by done. cbv zeta.
    unfold callsOf, flushHeaders, setHeader, onRes. simpl.
    rewrite !list_lookup_alter_eq, list_lookup_middle by done. simpl.
    split; [|done]. intros Hin. exfalso.
    repeat (apply elem_of_cons in Hin as [Hin|Hin]; [done|]).
    apply list_elem_of_fmap in Hin as (c & Hc & _). done.
  - unfold stream. change (runs (setHeader _ _ _ (setHeader _ _ _ (setHeader _ _ _ (arrive w)))))
      with (runs w). rewrite Hrun.
    unfold callsOf, notFound, setStatus, end_, setHeader, onRes. simpl.
    rewrite !list_lookup_alter_eq, list_lookup_middle by done. simpl.
    split; [done|]. intros _. set_solver.
Qed.

Lemma connected_spec (s : nat) inputs :
  connected s inputs = true → (Close s ∉ inputs) ∧ (Break s ∉ inputs).
Proof.
  induction inputs as [|i inputs IH]; simpl.
  - intros _. split; apply not_elem_of_nil.
  - intros [Hi Hrest]%andb_true_iff. destruct (IH Hrest) as [Hc Hb].
    split; apply not_elem_of_cons; (split; [|done]); intros <-;
      by rewrite Nat.eqb_refl in Hi.
Qed.

(** *** The end of a pipeline *)

Lemma exec_awaiting_none inputs w run r :
  Inv node w → heap w !! run = Some r → awaiting w !! run = None →
  awaiting (exec node w inputs) !! run = None.
Proof.
  revert w r. induction inputs as [|i inputs IH]; intros w r HI Hr Ha; [done|].
  pose proof (step_shape w i HI) as HS.
  destruct (Shape_heap _ _ _ _ _ HI HS Hr) as (r1 & Hr1 & _).
  simpl. apply (IH _ r1); [by apply Inv_step|done|].
  eapply Shape_awaiting; [done|done| |done]. by eapply lookup_lt_Some.
Qed.

(** A run that is not done has its pipeline suspended; when the awaited
    call settles, the step is the one of [settled]. *)
Lemma settle_open w run r outcome :
  Inv node w → heap w !! run = Some r → done r = false →
  ∃ k, awaiting w !! run = Some k ∧
       step node w (Settle run outcome) = settled node run outcome k r w.
Proof.
  intros HI Hr Hd. pose proof (inv_phase _ _ HI _ _ Hr) as Hp.
  destruct (awaiting w !! run) as [k|] eqn:Hk;
    [|destruct Hp as [Hp _]; congruence].
  exists k. split; [done|]. simpl. by apply pipelineResume_unfold.
Qed.

(** What [settled] calls on a client of the run: one write of the terminal
    event, then one [end], the first on that response object. *)
Lemma settled_client w run r k outcome (s : nat) :
  Inv node w → heap w !! run = Some r → done r = false → s ∈ clients r →
  let ev := assistant_done (terminalText outcome) (s_threadId k) in
  callsOf s (settled node run outcome k r w) =
    callsOf s w ++ [Write (payload node ev); End None] ∧
  ended s w = 0 ∧ ended s (settled node run outcome k r w) = 1.
Proof.
  intros HI Hr Hd Hs ev.
  pose proof (inv_open _ _ HI _ _ _ Hr Hs Hd) as H0.
  assert (Hc : callsOf s (settled node run outcome k r w) =
               callsOf s w ++ [Write (payload node ev); End None]).
  { unfold callsOf, settled. simpl.
    rewrite !broadcast_in by eauto using inv_nodup.
    destruct (responses w !! s) as [x|] eqn:Hx.
    - simpl. by rewrite <- app_assoc.
    - apply lookup_ge_None in Hx.
      pose proof (inv_listen_bound _ _ HI _ _ (inv_listen _ _ HI _ _ _ Hr Hs)). lia. }
  split; [done|]. split; [done|].
  unfold ended in *. rewrite Hc, List.filter_app, length_app, H0. done.
Qed.

(** *** Attaching and appending *)

(** What the stream endpoint leaves when the run exists. *)
Lemma attach_facts w pathname body run r :
  Inv node w → startsWith pathname (js "/api/stream/") = true →
  runs w !! pop (split slash pathname) = Some run → heap w !! run = Some r →
  let s := length (responses w) in
  let w' := step node w (Request (js "GET") pathname body) in
  ∃ x, heap w' !! run = Some (addClient s r) ∧ s ∈ clients (addClient s r) ∧
       responses w' !! s = Some x ∧ destroyed x = false ∧
       received x = payload node <$> events r ∧
       List.filter isEnd (calls x) = [] ∧
       close_listeners w' !! s = Some run ∧ awaiting w' = awaiting w.
Proof.
  intros HI Hp Hrun Hr s w'.
  assert (HI' : Inv node w') by by apply Inv_step.
  destruct (step_stream w pathname body run Hp Hrun) as (F & HF & HE & Hw').
  fold w' s in Hw'.
  assert (Hfresh : s ∉ clients r).
  { intros Hin. apply (inv_listen _ _ HI _ _ _ Hr) in Hin.
    apply (inv_listen_bound _ _ HI) in Hin. unfold s in Hin. lia. }
  assert (Hr' : heap w' !! run = Some (addClient s r)).
  { rewrite Hw'. simpl. by rewrite list_lookup_alter_eq, Hr. }
  assert (Hx' : responses w' !! s = Some (F newResponse)).
  { rewrite Hw'. simpl. rewrite list_lookup_alter_eq.
    by rewrite list_lookup_middle. }
  assert (Hs' : s ∈ clients (addClient s r)).
  { rewrite addClient_fresh by done. simpl. apply elem_of_app. right.
    by apply list_elem_of_singleton. }
  assert (Hd' : destroyed (F newResponse) = false) by by rewrite HF.
  exists (F newResponse). repeat (split; [done|]).
  split; [exact (inv_received _ _ HI' run _ s _ Hr' Hs' Hx' Hd')|].
  split; [done|]. rewrite Hw'. simpl. split; [apply lookup_insert_eq|done].
Qed.

(** An observer that attaches to a run that is already done gets the whole
    log, and [end] is never called on its response object. *)
Lemma late_attach_open pre post pathname body run r :
  let w1 := exec node init pre in
  let s := length (responses w1) in
  let w2 := step node w1 (Request (js "GET") pathname body) in
  startsWith pathname (js "/api/stream/") = true →
  runs w1 !! pop (split slash pathname) = Some run →
  heap w1 !! run = Some r → done r = true →
  receivedBy s w2 = payload node <$> events r ∧ ended s (exec node w2 post) = 0.
Proof.
  intros w1 s w2 Hp Hrun Hr Hd.
  assert (HI1 : Inv node w1) by apply Inv_reach.
  assert (HI2 : Inv node w2) by by apply Inv_step.
  destruct (attach_facts w1 pathname body run r HI1 Hp Hrun Hr)
    as (x & Hr2 & Hs2 & Hx2 & Hd2 & Hrx & Hcx & Hl2 & Ha2).
  fold s w2 in Hr2, Hs2, Hx2, Hl2, Ha2.
  split; [unfold receivedBy; by rewrite Hx2|].
  assert (Ha : awaiting w2 !! run = None).
  { rewrite Ha2. pose proof (inv_phase _ _ HI1 _ _ Hr) as Hph.
    destruct (awaiting w1 !! run); [|done]. destruct Hph as [Hph _]. congruence. }
  destruct (exec_quiet post w2 run _ s x HI2 Hr2 Ha Hl2 Hx2) as (x3 & Hx3 & Hc3).
  unfold ended, callsOf. rewrite Hx3. simpl. by rewrite Hc3, Hcx.
Qed.

(** [pushEvent] on a run of a reachable state: the log gains the event,
    the set of clients is untouched, and one write goes to every client. *)
Lemma pushEvent_facts w run r ev :
  Inv node w → heap w !! run = Some r →
  let w' := pushEvent node run ev w in
  heap w' !! run = Some (addEvent ev r) ∧
  ∀ s, s ∈ clients r →
       responses w' !! s =
       sent (Write (payload node ev)) (payload node ev) <$> responses w !! s.
Proof.
  intros HI Hr w'. unfold w'. rewrite pushEvent_unfold. simpl.
  rewrite list_lookup_alter_eq, Hr. split; [done|].
  intros s Hs. unfold clientsOf. rewrite Hr. simpl.
  apply broadcast_in; [by eapply inv_nodup|done].
Qed.

(** *** The chat endpoint *)

Lemma handler_chat res body w :
  handler node res (js "POST") (js "/api/chat") body w =
  chat node res body
    (setHeader res "Access-Control-Allow-Methods" "GET,POST,OPTIONS"
       (setHeader res "Access-Control-Allow-Headers" "Content-Type"
          (setHeader res "Access-Control-Allow-Origin" "*" w))).
Proof. reflexivity. Qed.

Lemma callsOf_sendJson res statusCode data w x :
  responses w !! res = Some x →
  callsOf res (sendJson node res statusCode data w) =
  calls x ++ jsonCalls node statusCode data.
Proof.
  intros Hx. unfold callsOf, sendJson, setStatus, setHeader, end_, onRes. simpl.
  rewrite !list_lookup_alter_eq, Hx. simpl. by rewrite <- !app_assoc.
Qed.

(** A chat request that is turned down: nothing but the answer changes. *)
Lemma chat_rejected res body w x :
  acceptable (messageOf node body) = false → responses w !! res = Some x →
  ∃ msg, chat node res body w = sendJson node res 400 (errorBody msg) w.
Proof.
  unfold messageOf, chat. intros Hacc Hx.
  destruct (JSON_parse node _) as [data|]; [|eauto]. simpl in Hacc.
  destruct data as [| | | | |props]; eauto.
  destruct (prop (js "message") (JObj props)) as [[| | |m| |]|]; eauto.
  simpl in Hacc. apply negb_false_iff in Hacc. rewrite Hacc. eauto.
Qed.

Lemma acceptable_message body :
  acceptable (messageOf node body) = true →
  ∃ data m,
    JSON_parse node (if bool_decide (body = []) then js "{}" else body) = Some data ∧
    prop (js "message") data = Some (JStr m) ∧ trim m ≠ [].
Proof.
  unfold messageOf. destruct (JSON_parse node _) as [data|]; [|done]. simpl.
  destruct (prop (js "message") data) as [[| | |m| |]|] eqn:Hm; try done. simpl.
  intros Hacc. exists data, m. split; [done|]. split; [done|].
  apply negb_true_iff, bool_decide_eq_false in Hacc. done.
Qed.

(** ** The claims *)

(** C1. Replay completeness. Whatever happened before ([pre]), an observer
    that attaches with GET /api/stream/:id to an existing run has, when the
    handler returns, received exactly the events appended so far, in append
    order; and whatever happens afterwards ([post]), as long as it stays
    connected, it has received exactly those events followed by exactly the
    events appended since, in append order: nothing twice, nothing skipped.
    An append cannot be under way while the handler runs, each callback
    being one step. *)
Theorem replay_completeness pre post pathname body run :
  let w1 := exec node init pre in
  let s := length (responses w1) in
  let w2 := step node w1 (Request (js "GET") pathname body) in
  let w3 := exec node w2 post in
  startsWith pathname (js "/api/stream/") = true →
  runs w1 !! pop (split slash pathname) = Some run →
  connected s post = true →
  ∃ later,
    eventsOf run w3 = eventsOf run w1 ++ later ∧
    receivedBy s w2 = payload node <$> eventsOf run w1 ∧
    receivedBy s w3 = (payload node <$> eventsOf run w1) ++ (payload node <$> later).
Proof.
  intros w1 s w2 w3 Hp Hrun [Hc Hb]%connected_spec.
  assert (HI1 : Inv node w1) by apply Inv_reach.
  assert (HI2 : Inv node w2) by by apply Inv_step.
  destruct (step_stream w1 pathname body run Hp Hrun) as (F & HF & _ & Hw2).
  fold w2 s in Hw2.
  pose proof (inv_runs _ _ HI1 _ _ Hrun) as Hlt.
  destruct (lookup_lt_is_Some_2 _ _ Hlt) as [r1 Hr1].
  assert (Hfresh : s ∉ clients r1).
  { intros Hin. apply (inv_listen _ _ HI1 _ _ _ Hr1) in Hin.
    apply (inv_listen_bound _ _ HI1) in Hin. unfold s in Hin. lia. }
  assert (Hr2 : heap w2 !! run = Some (addClient s r1)).
  { rewrite Hw2. simpl. by rewrite list_lookup_alter_eq, Hr1. }
  assert (Hx2 : responses w2 !! s = Some (F newResponse)).
  { rewrite Hw2. simpl. rewrite list_lookup_alter_eq.
    by rewrite list_lookup_middle. }
  assert (Hs2 : s ∈ clients (addClient s r1)).
  { rewrite addClient_fresh by done. simpl. apply elem_of_app. right.
    by apply list_elem_of_singleton. }
  assert (Hd2 : destroyed (F newResponse) = false) by by rewrite HF.
  destruct (exec_attached post w2 run _ s _ HI2 Hr2 Hs2 Hx2 Hd2 Hc Hb)
    as (r3 & x3 & later & Hr3 & Hev & Hs3 & Hx3 & Hd3).
  fold w3 in Hr3, Hx3.
  assert (HI3 : Inv node w3) by by apply Inv_exec.
  exists later. unfold eventsOf, receivedBy.
  rewrite Hr1, Hr3, Hx2, Hx3. simpl.
  split; [done|]. split.
  - by apply (inv_received _ _ HI2 run _ s _ Hr2 Hs2 Hx2 Hd2).
  - rewrite <- fmap_app.
    rewrite (inv_received _ _ HI3 run _ s _ Hr3 Hs3 Hx3 Hd3). by rewrite Hev.
Qed.

(** C3, as amended. Once the pipeline of a run has set [done], the log of
    the run never changes again and [done] stays set, whatever happens
    afterwards, a later attach included; and when the [finally] block is
    over, [end] has been called exactly once on every client the run had.
    The block takes no client out of the set: the set is as it was. *)
Theorem post_completion pre post run r1 outcome :
  let w1 := exec node init pre in
  let w2 := step node w1 (Settle run outcome) in
  let w3 := exec node w2 post in
  heap w1 !! run = Some r1 → done r1 = false →
  ∃ r2 r3,
    heap w2 !! run = Some r2 ∧ done r2 = true ∧
    clients r2 = clients r1 ∧ (∀ s, s ∈ clients r1 → ended s w2 = 1) ∧
    heap w3 !! run = Some r3 ∧ done r3 = true ∧ events r3 = events r2.
Proof.
  intros w1 w2 w3 Hr1 Hd1.
  assert (HI1 : Inv node w1) by apply Inv_reach.
  assert (HI2 : Inv node w2) by by apply Inv_step.
  destruct (settle_open w1 run r1 outcome HI1 Hr1 Hd1) as (k & Hk & Hw2).
  fold w2 in Hw2.
  assert (Hr2 : heap w2 !! run =
                Some (setDone (addEvent (assistant_done (terminalText outcome)
                                           (s_threadId k)) r1))).
  { rewrite Hw2. simpl. by rewrite list_lookup_alter_eq, Hr1. }
  destruct (exec_done post w2 run _ HI2 Hr2 eq_refl) as (r3 & Hr3 & He3 & Hd3).
  eexists _, r3. split; [exact Hr2|]. split; [done|]. split; [done|].
  split; [|done].
  intros s Hs. rewrite Hw2. by apply settled_client.
Qed.

(** C5. Single terminal event. Take a run in any state the server reaches.
    Its log holds no [assistant_done] event while the run is not done and
    exactly one once it is done, which is then the last event of the log.
    While the run is not done, its response generation is still to settle;
    when it does, with a value or with a throw, that step appends one
    [assistant_done] event, carrying the value or the text of the error, and
    sets [done]. Whatever happens afterwards, a further settlement included,
    the log stays as that step left it: the event is the only
    [assistant_done] of the log, and its last element. *)
Theorem single_terminal_event pre post run r1 outcome :
  let w1 := exec node init pre in
  let w2 := step node w1 (Settle run outcome) in
  let w3 := exec node w2 post in
  heap w1 !! run = Some r1 →
  length (List.filter isAssistantDone (events r1)) = (if done r1 then 1 else 0) ∧
  (done r1 = true →
   ∃ ev, last (events r1) = Some ev ∧ isAssistantDone ev = true) ∧
  (done r1 = false →
   ∃ threadId r2 r3,
     heap w2 !! run = Some r2 ∧ done r2 = true ∧
     events r2 = events r1 ++ [assistant_done (terminalText outcome) threadId] ∧
     heap w3 !! run = Some r3 ∧ done r3 = true ∧
     events r3 = events r1 ++ [assistant_done (terminalText outcome) threadId] ∧
     List.filter isAssistantDone (events r3) =
       [assistant_done (terminalText outcome) threadId] ∧
     last (events r3) = Some (assistant_done (terminalText outcome) threadId)).
Proof.
  intros w1 w2 w3 Hr1.
  assert (HI1 : Inv node w1) by apply Inv_reach.
  pose proof (inv_phase _ _ HI1 _ _ Hr1) as Hp.
  split; [|split].
  - destruct (awaiting w1 !! run) as [k|].
    + destruct Hp as [Hd [c ->]]. by rewrite Hd.
    + destruct Hp as [Hd (m & c & text & t & ->)]. by rewrite Hd.
  - intros Hd. destruct (awaiting w1 !! run) as [k|].
    + destruct Hp as [Hd' _]. congruence.
    + destruct Hp as [_ (m & c & text & t & ->)]. eexists. split; reflexivity.
  - intros Hd1.
    assert (HI2 : Inv node w2) by by apply Inv_step.
    destruct (settle_open w1 run r1 outcome HI1 Hr1 Hd1) as (k & Hk & Hw2).
    fold w2 in Hw2. rewrite Hk in Hp. destruct Hp as [_ [c Hev]].
    assert (Hr2 : heap w2 !! run =
                  Some (setDone (addEvent (assistant_done (terminalText outcome)
                                             (s_threadId k)) r1))).
    { rewrite Hw2. simpl. by rewrite list_lookup_alter_eq, Hr1. }
    destruct (exec_done post w2 run _ HI2 Hr2 eq_refl) as (r3 & Hr3 & He3 & Hd3).
    fold w3 in Hr3. simpl in He3.
    exists (s_threadId k). eexists _, r3.
    split; [exact Hr2|]. split; [done|]. split; [done|].
    split; [done|]. split; [done|]. split; [done|].
    rewrite He3, Hev. split; reflexivity.
Qed.

(** C6. Closure guarantee. Take any run that is not done, in any state the
    server reaches. When its response generation settles, with a value or
    with a throw, the step appends the terminal [assistant_done] event (on a
    throw its text is the failure description), sets [done], and calls
    [end] on every client of the run, for the first time. This happens once:
    afterwards the pipeline is gone, a further settlement changes nothing,
    and each of those clients keeps exactly one [end]. *)
Theorem closure_guarantee pre post run r1 outcome :
  let w1 := exec node init pre in
  let w2 := step node w1 (Settle run outcome) in
  let w3 := exec node w2 post in
  heap w1 !! run = Some r1 → done r1 = false →
  ∃ k r2,
    awaiting w1 !! run = Some k ∧
    heap w2 !! run = Some r2 ∧ done r2 = true ∧
    events r2 = events r1 ++
      [assistant_done
         (match outcome with
          | Fulfilled text => text
          | Rejected err =>
              js "An error occurred: " ++ default (err_text err) (err_message err)
          end) (s_threadId k)] ∧
    (∀ s, s ∈ clients r1 → ended s w1 = 0 ∧ ended s w2 = 1 ∧ ended s w3 = 1) ∧
    awaiting w3 !! run = None ∧
    (∀ outcome', step node w3 (Settle run outcome') = w3).
Proof.
  intros w1 w2 w3 Hr1 Hd1.
  assert (HI1 : Inv node w1) by apply Inv_reach.
  assert (HI2 : Inv node w2) by by apply Inv_step.
  destruct (settle_open w1 run r1 outcome HI1 Hr1 Hd1) as (k & Hk & Hw2).
  fold w2 in Hw2.
  assert (Hr2 : heap w2 !! run =
                Some (setDone (addEvent (assistant_done (terminalText outcome)
                                           (s_threadId k)) r1))).
  { rewrite Hw2. simpl. by rewrite list_lookup_alter_eq, Hr1. }
  assert (Ha2 : awaiting w2 !! run = None).
  { rewrite Hw2. simpl. apply lookup_delete_eq. }
  assert (Ha3 : awaiting w3 !! run = None) by by eapply exec_awaiting_none.
  exists k. eexists. split; [done|]. split; [exact Hr2|]. split; [done|].
  split; [by destruct outcome|]. split; [|split; [done|]].
  - intros s Hs.
    destruct (settled_client w1 run r1 k outcome s HI1 Hr1 Hd1 Hs) as (Hc & H0 & H1).
    rewrite <- Hw2 in H1, Hc. split; [done|]. split; [done|].
    assert (Hl2 : close_listeners w2 !! s = Some run).
    { rewrite Hw2. simpl. by eapply inv_listen. }
    destruct (responses w2 !! s) as [x2|] eqn:Hx2.
    2:{ apply lookup_ge_None in Hx2. apply (inv_listen_bound _ _ HI2) in Hl2. lia. }
    destruct (exec_quiet post w2 run _ s x2 HI2 Hr2 Ha2 Hl2 Hx2) as (x3 & Hx3 & Hc3).
    fold w3 in Hx3. rewrite <- H1. unfold ended, callsOf. rewrite Hx3, Hx2.
    simpl. by rewrite Hc3.
  - intros outcome'. simpl. unfold pipelineResume. by rewrite Ha3.
Qed.

(** C4, as amended. [pushEvent] does not look at [done] and cannot fail:
    on a run that is done, in any state the server reaches, it appends the
    event to the log and writes it to every client still in the set. *)
Theorem append_after_done inputs run r ev :
  let w := exec node init inputs in
  let w' := pushEvent node run ev w in
  heap w !! run = Some r → done r = true →
  heap w' !! run = Some (addEvent ev r) ∧
  eventsOf run w' = events r ++ [ev] ∧
  ∀ s, s ∈ clients r → callsOf s w' = callsOf s w ++ [Write (payload node ev)].
Proof.
  intros w w' Hr Hd.
  destruct (pushEvent_facts w run r ev (Inv_reach inputs) Hr) as [Hr' Hcl].
  fold w' in Hr', Hcl. split; [done|]. split.
  - unfold eventsOf. by rewrite Hr'.
  - intros s Hs. unfold callsOf. rewrite (Hcl s Hs).
    destruct (responses w !! s) as [x|] eqn:Hx; [done|].
    apply lookup_ge_None in Hx.
    pose proof (inv_listen_bound _ _ (Inv_reach inputs) _ _
                  (inv_listen _ _ (Inv_reach inputs) _ _ _ Hr Hs)).
    fold w in H. lia.
Qed.

(** C7, as amended. Appending an event to a run, in any state the server
    reaches: the event is recorded in the log; every client whose socket is
    sound and whose response is not ended receives it, whatever the state of
    the other clients; a client whose socket is destroyed, or whose response
    is ended, receives nothing; and no client leaves the set, a failing one
    included. While the run is not done, which is when the pipeline appends,
    no client is ended, so that a write fails on a destroyed socket only.
    What removes the failing client is the ['close'] event of its request,
    which follows the destruction of a socket: then it is gone and the
    others stay, in their order. *)
Theorem sink_failure_isolation inputs run r ev :
  let w := exec node init inputs in
  let w' := pushEvent node run ev w in
  heap w !! run = Some r →
  eventsOf run w' = events r ++ [ev] ∧
  clientsOf run w' = clients r ∧
  (∀ s x, s ∈ clients r → responses w !! s = Some x →
          receivedBy s w' = if writable x then received x ++ [payload node ev]
                            else received x) ∧
  (done r = false →
   ∀ s x, s ∈ clients r → responses w !! s = Some x →
          writable x = negb (destroyed x)) ∧
  (∀ s, s ∈ clients r →
        clientsOf run (step node w' (Close s)) = filter (λ c, c ≠ s) (clients r)).
Proof.
  intros w w' Hr. pose proof (Inv_reach inputs) as HI. fold w in HI.
  destruct (pushEvent_facts w run r ev HI Hr) as [Hr' Hcl].
  fold w' in Hr', Hcl. unfold eventsOf, clientsOf. rewrite Hr'.
  split; [done|]. split; [done|]. split; [|split].
  - intros s x Hs Hx. unfold receivedBy. rewrite (Hcl s Hs), Hx. simpl.
    by destruct (writable x).
  - intros Hd s x Hs Hx. pose proof (inv_open _ _ HI _ _ _ Hr Hs Hd) as H0.
    unfold ended, callsOf in H0. rewrite Hx in H0. simpl in H0.
    apply length_zero_iff_nil in H0. unfold writable, finished.
    by rewrite (proj2 (finished_filter _) H0), andb_true_r.
  - intros s Hs.
    assert (Hl : close_listeners w' !! s = Some run).
    { unfold w'. rewrite pushEvent_unfold. simpl. by eapply inv_listen. }
    simpl. rewrite Hl. simpl. by rewrite list_lookup_alter_eq, Hr'.
Qed.

(** C8. Inbound request validation. Take a POST /api/chat with any body,
    in any state. If its [message] is missing (be it that the body does not
    parse), is not a string, or is empty once trimmed, the answer is a 400
    with an error object and nothing else changes: no run is created, no
    entry joins the registry. Otherwise a run is created and registered
    under a new run id, and the answer is a 200 with [{ runId, threadId }]. *)
Theorem inbound_validation w body :
  let res := length (responses w) in
  let w' := step node w (Request (js "POST") (js "/api/chat") body) in
  if acceptable (messageOf node body) then
    runs w' = <[randomUUID node (uuid_calls w) := length (heap w)]> (runs w) ∧
    length (heap w') = S (length (heap w)) ∧
    runs w' !! randomUUID node (uuid_calls w) = Some (length (heap w)) ∧
    ∃ threadId,
      callsOf res w' =
      corsCalls ++ jsonCalls node 200
        (JObj [(js "runId", JStr (randomUUID node (uuid_calls w)));
               (js "threadId", JStr threadId)])
  else
    runs w' = runs w ∧ heap w' = heap w ∧ threads w' = threads w ∧
    awaiting w' = awaiting w ∧ uuid_calls w' = uuid_calls w ∧
    ∃ msg, callsOf res w' = corsCalls ++ jsonCalls node 400 (errorBody msg).
Proof.
  intros res w'. unfold w'. simpl. rewrite handler_chat. fold res.
  set (w1 := setHeader res "Access-Control-Allow-Methods" _ _).
  assert (Hx1 : responses w1 !! res =
                Some {| calls := corsCalls; received := []; destroyed := false |}).
  { unfold w1, setHeader, onRes. simpl.
    by rewrite !list_lookup_alter_eq, list_lookup_middle. }
  destruct (acceptable (messageOf node body)) eqn:Hacc.
  - destruct (acceptable_message body Hacc) as (data & m & Hparse & Hm & Ht).
    rewrite (chat_accepted _ _ _ _ _ Hparse Hm Ht).
    split; [done|]. split; [simpl; rewrite length_app; simpl; lia|].
    split; [simpl; apply lookup_insert_eq|].
    eexists. erewrite callsOf_sendJson by (simpl; exact Hx1). done.
  - destruct (chat_rejected res body w1 _ Hacc Hx1) as [msg ->].
    repeat (split; [done|]). exists msg.
    erewrite callsOf_sendJson by exact Hx1. done.
Qed.

(** C9. Thread resolution, the identifiers of [randomUUID] being pairwise
    distinct and not empty. For a valid POST /api/chat in a state the server
    reaches, the run id of the answer is new: no earlier call of
    [randomUUID] returned it and no run is registered under it. If the
    request names a stored thread, the thread store is unchanged and the
    answer carries that same thread id. If it names none (no [threadId], one
    that is not a string, or one that is not stored), a thread with a new
    identifier and an empty history is stored and the answer carries its
    id. *)
Theorem thread_resolution pre body data message :
  (∀ i j, randomUUID node i = randomUUID node j → i = j) →
  (∀ i, randomUUID node i ≠ []) →
  let w := exec node init pre in
  let res := length (responses w) in
  let w' := step node w (Request (js "POST") (js "/api/chat") body) in
  let runId := randomUUID node (uuid_calls w) in
  JSON_parse node (if bool_decide (body = []) then js "{}" else body) = Some data →
  prop (js "message") data = Some (JStr message) → trim message ≠ [] →
  (runs w !! runId = None ∧ ∀ i, i < uuid_calls w → randomUUID node i ≠ runId) ∧
  (∀ t thread,
     prop (js "threadId") data = Some (JStr t) → threads w !! t = Some thread →
     threads w' = threads w ∧
     callsOf res w' =
     corsCalls ++ jsonCalls node 200
       (JObj [(js "runId", JStr runId); (js "threadId", JStr t)])) ∧
  ((∀ t, prop (js "threadId") data = Some (JStr t) → threads w !! t = None) →
   let threadId := randomUUID node (S (uuid_calls w)) in
   threads w !! threadId = None ∧
   threads w' = <[threadId := {| thread_id := threadId; history := [] |}]> (threads w) ∧
   callsOf res w' =
   corsCalls ++ jsonCalls node 200
     (JObj [(js "runId", JStr runId); (js "threadId", JStr threadId)])).
Proof.
  intros Hinj Hne w res w' runId Hparse Hm Ht.
  assert (HI : Inv node w) by apply Inv_reach.
  assert (Hw' : w' = chat node res body
                  (setHeader res "Access-Control-Allow-Methods" "GET,POST,OPTIONS"
                     (setHeader res "Access-Control-Allow-Headers" "Content-Type"
                        (setHeader res "Access-Control-Allow-Origin" "*" (arrive w))))).
  { unfold w'. simpl. by rewrite handler_chat. }
  set (w1 := setHeader res "Access-Control-Allow-Methods" _ _) in Hw'.
  assert (Hx1 : responses w1 !! res =
                Some {| calls := corsCalls; received := []; destroyed := false |}).
  { unfold w1, setHeader, onRes. simpl.
    by rewrite !list_lookup_alter_eq, list_lookup_middle. }
  rewrite (chat_accepted _ _ _ _ _ Hparse Hm Ht) in Hw'.
  split; [|split].
  - split.
    + destruct (runs w !! runId) as [a|] eqn:Ha; [|done].
      destruct (inv_run_ids _ _ HI _ _ Ha) as (i & Hi & Heq).
      apply Hinj in Heq. lia.
    + intros i Hi Heq. apply Hinj in Heq. lia.
  - intros t thread Htid Hthread.
    assert (Hkn : knownThread (prop (js "threadId") data) w1 = Some thread).
    { apply knownThread_Some. exists t. split; [done|]. split; [|done].
      destruct (inv_thread_ids _ _ HI _ _ Hthread) as (_ & i & _ & ->). apply Hne. }
    destruct (inv_thread_ids _ _ HI _ _ Hthread) as [Hid _].
    rewrite Hw'. split.
    + unfold accepted. simpl. rewrite Hkn. by rewrite bool_decide_eq_true_2 by eauto.
    + erewrite callsOf_sendJson by (simpl; exact Hx1).
      unfold chatThread. rewrite Hkn, Hid. done.
  - intros Hnone threadId.
    assert (Hkn : knownThread (prop (js "threadId") data) w1 = None).
    { destruct (knownThread (prop (js "threadId") data) w1) as [thread|] eqn:Hkn; [|done].
      apply knownThread_Some in Hkn as (t & Htid & _ & Hthread).
      change (threads w !! t = Some thread) in Hthread.
      rewrite (Hnone t Htid) in Hthread. done. }
    split; [|rewrite Hw'; split].
    + destruct (threads w !! threadId) as [thread|] eqn:Hth; [|done].
      destruct (inv_thread_ids _ _ HI _ _ Hth) as (_ & i & Hi & Heq).
      apply Hinj in Heq. lia.
    + unfold accepted, chatThread. simpl. rewrite Hkn.
      by rewrite bool_decide_eq_false_2 by (intros [? ?]; done).
    + erewrite callsOf_sendJson by (simpl; exact Hx1).
      unfold chatThread. rewrite Hkn. done.
Qed.

End Facts.


(** * Further properties of the server *)

Section More.
Context (node : Platform).

(** ** Detaching *)

Lemma deleteClient_twice res r : deleteClient res (deleteClient res r) = deleteClient res r.
Proof.
  unfold deleteClient. simpl. f_equal.
  induction (clients r) as [|c l IH]; [done|].
  rewrite filter_cons. case_decide; [|done].
  rewrite filter_cons. rewrite decide_True by done. by f_equal.
Qed.

(** X1. Idempotent detach. The ['close'] listener of a request may run
    twice with the effect of running once. *)
Theorem detach_idempotent w res :
  step node (step node w (Close res)) (Close res) = step node w (Close res).
Proof.
  simpl. destruct (close_listeners w !! res) as [run|] eqn:Hl; simpl; rewrite Hl;
    [|done].
  unfold with_heap. simpl. f_equal. rewrite list_alter_alter_eq.
  apply list_alter_ext; [|done]. intros r _. apply deleteClient_twice.
Qed.

Lemma close_detaches w res run :
  Inv node w → res ∉ clientsOf run (step node w (Close res)).
Proof.
  intros HI. simpl. destruct (close_listeners w !! res) as [a|] eqn:Hl.
  - intros Hin. unfold clientsOf in Hin. simpl in Hin.
    destruct (decide (run = a)) as [->|Hne].
    + rewrite list_lookup_alter_eq in Hin.
      destruct (heap w !! a); [|by apply elem_of_nil in Hin].
      simpl in Hin. apply list_elem_of_filter in Hin as [Hin _]. done.
    + rewrite list_lookup_alter_ne in Hin by done.
      destruct (heap w !! run) as [r|] eqn:Hr; [|by apply elem_of_nil in Hin].
      simpl in Hin. pose proof (inv_listen _ _ HI _ _ _ Hr Hin). congruence.
  - intros Hin. unfold clientsOf in Hin.
    destruct (heap w !! run) as [r|] eqn:Hr; [|by apply elem_of_nil in Hin].
    simpl in Hin. pose proof (inv_listen _ _ HI _ _ _ Hr Hin). congruence.
Qed.

(** X2. Detach detaches, and only that. In a state the server reaches,
    after the ['close'] event of a response object no run has it as a
    client, while every log, every [done] flag, the registries, the
    suspended pipelines and all response objects are as before. *)
Theorem detach_removes inputs res :
  let w := exec node init inputs in
  let w' := step node w (Close res) in
  (∀ run, res ∉ clientsOf run w') ∧
  (∀ run, eventsOf run w' = eventsOf run w) ∧
  (∀ run, (done <$> heap w' !! run) = (done <$> heap w !! run)) ∧
  runs w' = runs w ∧ threads w' = threads w ∧ awaiting w' = awaiting w ∧
  responses w' = responses w.
Proof.
  intros w w'. pose proof (Inv_reach node inputs) as HI. fold w in HI.
  split; [intros run; by apply close_detaches|].
  unfold w'. simpl. destruct (close_listeners w !! res) as [a|] eqn:Hl; [|done].
  - split; [|split]; try done.
    + intros run. unfold eventsOf. simpl.
      destruct (decide (run = a)) as [->|Hne];
        [|by rewrite list_lookup_alter_ne].
      rewrite list_lookup_alter_eq. by destruct (heap w !! a).
    + intros run. simpl.
      destruct (decide (run = a)) as [->|Hne];
        [|by rewrite list_lookup_alter_ne].
      rewrite list_lookup_alter_eq. by destruct (heap w !! a).
Qed.

(** ** Runs do not interfere *)


(** ** The registries *)

Lemma reach_ind (P : World → Prop) :
  P init →
  (∀ w i w', Inv node w → P w → Shape node w i w' → P w') →
  ∀ inputs, P (exec node init inputs).
Proof.
  intros H0 Hstep inputs.
  assert (H : ∀ w, Inv node w → P w → P (exec node w inputs)).
  { induction inputs as [|i inputs IH]; intros w HI HP; [done|].
    simpl. apply IH; [by apply Inv_step|].
    eapply Hstep; [done|done|by apply step_shape]. }
  apply H; [apply Inv_init|done].
Qed.

Lemma lookup_alter_keeps {A B} (f : A → A) (g : A → B) (h : list A) (a i : nat) x :
  (∀ y, g (f y) = g y) → h !! a = Some x →
  ∃ x', alter f i h !! a = Some x' ∧ g x' = g x.
Proof.
  intros Hf Hx. destruct (decide (i = a)) as [->|Hne].
  - rewrite list_lookup_alter_eq, Hx. simpl. eauto.
  - rewrite list_lookup_alter_ne by done. eauto.
Qed.

(** X4. The registry and the run objects agree. In every state the server
    reaches, an id registered in [runs] leads to a run object that exists
    and whose [id] field is that id. *)
Theorem registry_consistent inputs k a :
  runs (exec node init inputs) !! k = Some a →
  ∃ r, heap (exec node init inputs) !! a = Some r ∧ run_id r = k.
Proof.
  revert k a. apply (reach_ind (λ w, ∀ k a, runs w !! k = Some a →
                                  ∃ r, heap w !! a = Some r ∧ run_id r = k)).
  { intros k a H. simpl in H. by rewrite lookup_empty in H. }
  intros w i w' HI HP HS k a.
  destruct HS as [i F HF|i run F HF Ha|i m t F HF|run outcome k0 r0 Hk Hr0|i|res|res run Hl|i q F HF|i s0 q q' Hq|i s0 q F Hi0 Hq HF|i s0 q m t F Hi0 Hq HF];
    simpl; try apply HP.
  - intros Hk. destruct (HP _ _ Hk) as (r & Hr & Hid).
    destruct (lookup_alter_keeps (addClient (length (responses w))) run_id
                (heap w) a run r) as (r' & Hr' & Hid'); [done|done|].
    exists r'. split; [done|congruence].
  - intros [[<- <-]|[_ Hk]]%lookup_insert_Some.
    + eexists. split; [by apply list_lookup_middle|done].
    + destruct (HP _ _ Hk) as (r & Hr & Hid). exists r. split; [|done].
      rewrite lookup_app_l; [done|]. by eapply lookup_lt_Some.
  - intros Hk'. destruct (HP _ _ Hk') as (r & Hr & Hid).
    destruct (lookup_alter_keeps
                (λ r, setDone (addEvent (assistant_done (terminalText outcome)
                                           (s_threadId k0)) r))
                run_id (heap w) a run r) as (r' & Hr' & Hid'); [done|done|].
    exists r'. split; [done|congruence].
  - intros Hk. destruct (HP _ _ Hk) as (r & Hr & Hid).
    destruct (lookup_alter_keeps (deleteClient res) run_id (heap w) a run r)
      as (r' & Hr' & Hid'); [done|done|].
    exists r'. split; [done|congruence].
  - intros [[<- <-]|[_ Hk]]%lookup_insert_Some.
    + eexists. split; [by apply list_lookup_middle|done].
    + destruct (HP _ _ Hk) as (r & Hr & Hid). exists r. split; [|done].
      rewrite lookup_app_l; [done|]. by eapply lookup_lt_Some.
Qed.

Lemma accepted_history message threadId W :
  (∀ k thread, threads W !! k = Some thread → history thread = []) →
  ∀ k thread, threads (accepted node message threadId W) !! k = Some thread →
              history thread = [].
Proof.
  intros HP k thread. simpl. unfold chatThread.
  destruct (knownThread threadId W) as [known|] eqn:Hkn.
  - rewrite bool_decide_eq_true_2 by eauto. apply HP.
  - rewrite bool_decide_eq_false_2 by (intros [? ?]; done). simpl.
    intros [[_ <-]|[_ Hth]]%lookup_insert_Some; [done|]. by eapply HP.
Qed.

(** X5. No history is ever recorded. In every state the server reaches,
    every stored thread has an empty [history]: threads are created with
    one and nothing writes to it. *)
Theorem thread_history_empty inputs k thread :
  threads (exec node init inputs) !! k = Some thread → history thread = [].
Proof.
  revert k thread.
  apply (reach_ind (λ w, ∀ k thread, threads w !! k = Some thread → history thread = [])).
  { intros k thread H. simpl in H. by rewrite lookup_empty in H. }
  intros w i w' HI HP HS k thread.
  destruct HS as [i F HF|i run F HF Ha|i m t F HF|run outcome k0 r0 Hk Hr0|i|res|res run Hl|i q F HF|i s0 q q' Hq|i s0 q F Hi0 Hq HF|i s0 q m t F Hi0 Hq HF];
    simpl; try apply HP.
  - by apply (accepted_history m t (arrive w)).
  - by apply (accepted_history m t (with_pending (delete s0) w)).
Qed.

Lemma accepted_registries message threadId W k :
  (∀ i j, randomUUID node i = randomUUID node j → i = j) →
  (∀ a, runs W !! k = Some a → ∃ j, j < uuid_calls W ∧ k = randomUUID node j) →
  (∀ thread, threads W !! k = Some thread →
             ∃ j, j < uuid_calls W ∧ k = randomUUID node j) →
  (∀ a, runs W !! k = Some a → runs (accepted node message threadId W) !! k = Some a) ∧
  (∀ thread, threads W !! k = Some thread →
             threads (accepted node message threadId W) !! k = Some thread).
Proof.
  intros Hinj Hruns Hthreads. simpl. split.
  - intros a Ha. rewrite lookup_insert_ne; [done|]. intros <-.
    destruct (Hruns _ Ha) as (j & Hj & Heq). apply Hinj in Heq. lia.
  - intros thread Hth. unfold chatThread.
    destruct (knownThread threadId W) as [known|] eqn:Hkn.
    + by rewrite bool_decide_eq_true_2 by eauto.
    + rewrite bool_decide_eq_false_2 by (intros [? ?]; done). simpl.
      rewrite lookup_insert_ne; [done|]. intros <-.
      destruct (Hthreads _ Hth) as (j & Hj & Heq). apply Hinj in Heq. lia.
Qed.

Lemma Shape_registries w i w' k :
  (∀ i j, randomUUID node i = randomUUID node j → i = j) →
  Inv node w → Shape node w i w' →
  (∀ a, runs w !! k = Some a → runs w' !! k = Some a) ∧
  (∀ thread, threads w !! k = Some thread → threads w' !! k = Some thread).
Proof.
  intros Hinj HI HS.
  destruct HS as [i F HF|i run F HF Ha|i m t F HF|run outcome k0 r0 Hk Hr0|i|res|res run Hl|i q F HF|i s0 q q' Hq|i s0 q F Hi0 Hq HF|i s0 q m t F Hi0 Hq HF];
    simpl; try done.
  - apply (accepted_registries m t (arrive w) k Hinj).
    + intros a Ha. exact (inv_run_ids _ _ HI _ _ Ha).
    + intros thread Hth. exact (proj2 (inv_thread_ids _ _ HI _ _ Hth)).
  - apply (accepted_registries m t (with_pending (delete s0) w) k Hinj).
    + intros a Ha. exact (inv_run_ids _ _ HI _ _ Ha).
    + intros thread Hth. exact (proj2 (inv_thread_ids _ _ HI _ _ Hth)).
Qed.

(** X6. Nothing is evicted. The identifiers of [randomUUID] being pairwise
    distinct, a run id registered in a state the server reaches stays
    registered to the same run object, and a stored thread stays stored
    unchanged, whatever inputs follow. *)
Theorem registry_persistent pre post k :
  (∀ i j, randomUUID node i = randomUUID node j → i = j) →
  let w := exec node init pre in
  let w' := exec node w post in
  (∀ a, runs w !! k = Some a → runs w' !! k = Some a) ∧
  (∀ thread, threads w !! k = Some thread → threads w' !! k = Some thread).
Proof.
  intros Hinj w w'. unfold w'. pose proof (Inv_reach node pre) as HI. fold w in HI.
  clearbody w. clear w'. revert w HI.
  induction post as [|i post IH]; intros w HI; [done|].
  simpl. destruct (IH (step node w i)) as [IHr IHt]; [by apply Inv_step|].
  destruct (Shape_registries w i _ k Hinj HI (step_shape node w i HI)) as [Hr Ht].
  split; eauto.
Qed.

(** X7. The shape of a log. In every state the server reaches, the log of
    a run that is not done is the start and the end of the search, with one
    and the same card id, and nothing else; the log of a run that is done is
    those two events followed by one [assistant_done]. *)
Theorem log_shape inputs run r :
  heap (exec node init inputs) !! run = Some r →
  ∃ message cardId,
    if done r then
      ∃ text threadId,
        events r = [tool_start message cardId; tool_done fakeResults cardId;
                    assistant_done text threadId]
    else events r = [tool_start message cardId; tool_done fakeResults cardId].
Proof.
  intros Hr. pose proof (inv_phase _ _ (Inv_reach node inputs) _ _ Hr) as Hp.
  destruct (awaiting (exec node init inputs) !! run) as [k|].
  - destruct Hp as [-> [c ->]]. eauto.
  - destruct Hp as [-> (m & c & text & t & ->)]. eauto 6.
Qed.

(** ** From the request to the last event *)

Lemma Shape_awaiting_some w i w' (run : nat) k :
  Inv node w → Shape node w i w' → awaiting w !! run = Some k →
  (∀ outcome, i ≠ Settle run outcome) → awaiting w' !! run = Some k.
Proof.
  intros HI HS Hk Hi. pose proof (inv_awaiting_bound _ _ HI _ _ Hk) as Hlt.
  destruct HS as [i F HF|i a F HF Ha|i m t F HF|a outcome k0 r0 Hk0 Hr0|i|res|res a Hl|i q F HF|i s0 q q' Hq|i s0 q F Hi0 Hq HF|i s0 q m t F Hi0 Hq HF];
    simpl; try done.
  - rewrite lookup_insert_ne by lia. done.
  - rewrite lookup_delete_ne; [done|]. intros ->. by apply (Hi outcome).
  - rewrite lookup_insert_ne by lia. done.
Qed.

Lemma exec_awaiting_some inputs w (run : nat) k :
  Inv node w → awaiting w !! run = Some k → unsettled run inputs = true →
  awaiting (exec node w inputs) !! run = Some k.
Proof.
  revert w. induction inputs as [|i inputs IH]; intros w HI Hk Hu; [done|].
  simpl in Hu. apply andb_true_iff in Hu as [Hi Hu].
  simpl. apply IH; [by apply Inv_step| |done].
  eapply Shape_awaiting_some; [done|by apply step_shape|done|].
  intros outcome ->. by rewrite Nat.eqb_refl in Hi.
Qed.

(** X8. From the request to the terminal event. A valid POST /api/chat in a
    state the server reaches answers with a run id and a thread id and
    registers the run; whatever happens until the response generation of
    that run settles, the log of the run is then exactly: the start of the
    search for the message of the request, the end of the search with the
    same card id, and an [assistant_done] that carries the settled text (or
    the error text) and the thread id of the answer. *)
Theorem terminal_thread pre post body data message outcome :
  let w := exec node init pre in
  let w1 := step node w (Request (js "POST") (js "/api/chat") body) in
  let run := length (heap w) in
  let runId := randomUUID node (uuid_calls w) in
  let threadId := thread_id (chatThread node (prop (js "threadId") data) w) in
  let w3 := step node (exec node w1 post) (Settle run outcome) in
  JSON_parse node (if bool_decide (body = []) then js "{}" else body) = Some data →
  prop (js "message") data = Some (JStr message) → trim message ≠ [] →
  unsettled run post = true →
  callsOf (length (responses w)) w1 =
    corsCalls ++ jsonCalls node 200
      (JObj [(js "runId", JStr runId); (js "threadId", JStr threadId)]) ∧
  runs w1 !! runId = Some run ∧
  ∃ cardId,
    eventsOf run w3 =
      [tool_start message cardId; tool_done fakeResults cardId;
       assistant_done (terminalText outcome) threadId].
Proof.
  intros w w1 run runId threadId w3 Hparse Hm Ht Hu.
  assert (HI : Inv node w) by apply Inv_reach.
  assert (HI1 : Inv node w1) by by apply Inv_step.
  set (res := length (responses w)).
  assert (Hw1 : w1 = chat node res body
                  (setHeader res "Access-Control-Allow-Methods" "GET,POST,OPTIONS"
                     (setHeader res "Access-Control-Allow-Headers" "Content-Type"
                        (setHeader res "Access-Control-Allow-Origin" "*" (arrive w))))).
  { unfold w1. simpl. by rewrite handler_chat. }
  set (w0 := setHeader res "Access-Control-Allow-Methods" _ _) in Hw1.
  assert (Hx0 : responses w0 !! res =
                Some {| calls := corsCalls; received := []; destroyed := false |}).
  { unfold w0, setHeader, onRes. simpl.
    by rewrite !list_lookup_alter_eq, list_lookup_middle. }
  rewrite (chat_accepted _ _ _ _ _ _ Hparse Hm Ht) in Hw1.
  change (thread_id (chatThread node (prop (js "threadId") data) w0))
    with threadId in Hw1.
  change (uuid_calls w0) with (uuid_calls w) in Hw1. fold runId in Hw1.
  assert (Hk1 : awaiting w1 !! run =
                Some {| s_message := message; s_threadId := threadId |}).
  { rewrite Hw1. simpl. apply lookup_insert_eq. }
  split; [|split].
  - rewrite Hw1. erewrite callsOf_sendJson by (simpl; exact Hx0). done.
  - rewrite Hw1. simpl. apply lookup_insert_eq.
  - set (w2 := exec node w1 post) in *.
    assert (HI2 : Inv node w2) by by apply Inv_exec.
    pose proof (exec_awaiting_some post w1 run _ HI1 Hk1 Hu) as Hk2. fold w2 in Hk2.
    pose proof (inv_awaiting_bound _ _ HI2 _ _ Hk2) as Hlt.
    destruct (lookup_lt_is_Some_2 _ _ Hlt) as [r2 Hr2].
    pose proof (inv_phase _ _ HI2 _ _ Hr2) as Hp. rewrite Hk2 in Hp.
    destruct Hp as [_ [c Hev]]. exists c. unfold w3. simpl.
    rewrite (pipelineResume_unfold _ _ _ _ _ _ Hk2 Hr2).
    unfold eventsOf, settled. simpl. rewrite list_lookup_alter_eq, Hr2. simpl.
    by rewrite Hev.
Qed.

(** ** The calls on a response object *)

Lemma inOrder_snoc before data :
  List.filter isEnd before = [] → inOrder (before ++ [End data]).
Proof. intros H. right. eauto. Qed.

Lemma inOrder_open ops : List.filter isEnd ops = [] → inOrder ops.
Proof. by left. Qed.

(** What the handler calls on the response object of its request: the CORS
    headers first, and an [end], if any, last. *)
Lemma handler_calls res method pathname body w x :
  responses w !! res = Some x → calls x = [] →
  ∃ ops, callsOf res (handler node res method pathname body w) = corsCalls ++ ops ∧
         inOrder ops.
Proof.
  intros Hx Hc. unfold handler.
  set (w1 := setHeader res "Access-Control-Allow-Methods" _ _).
  assert (Hx1 : responses w1 !! res =
                Some {| calls := corsCalls; received := received x;
                        destroyed := destroyed x |}).
  { unfold w1, setHeader, onRes. simpl.
    rewrite !list_lookup_alter_eq, Hx. simpl. unfold called. simpl. by rewrite Hc. }
  clearbody w1.
  assert (Hnf : ∃ ops, callsOf res (notFound res w1) = corsCalls ++ ops ∧ inOrder ops).
  { exists [SetStatus 404; End None]. split; [|by apply (inOrder_snoc [_])].
    unfold callsOf, notFound, setStatus, end_, onRes. simpl.
    by rewrite !list_lookup_alter_eq, Hx1. }
  assert (Hsj : ∀ statusCode data W,
            responses W = responses w1 →
            ∃ ops, callsOf res (sendJson node res statusCode data W) = corsCalls ++ ops ∧
                   inOrder ops).
  { intros statusCode data W HW. exists (jsonCalls node statusCode data).
    split; [|by apply (inOrder_snoc [_; _; _])].
    erewrite callsOf_sendJson by (rewrite HW; exact Hx1). done. }
  case_bool_decide.
  { exists [SetStatus 204; End None]. split; [|by apply (inOrder_snoc [_])].
    unfold callsOf, setStatus, end_, onRes. simpl.
    by rewrite !list_lookup_alter_eq, Hx1. }
  destruct (if _ : bool then serveStatic node res pathname w1 else None)
    as [w'|] eqn:Hstatic.
  { destruct (_ && _ && _); [|done]. unfold serveStatic in Hstatic.
    destruct (fileRead node pathname) as [path|]; [|done]. simpl in Hstatic.
    destruct (readFile node path) as [data|]; [|done]. simpl in Hstatic.
    injection Hstatic as <-. eexists [_; _; _; _]. split.
    - unfold callsOf, setStatus, setHeader, end_, onRes. simpl.
      rewrite !list_lookup_alter_eq, Hx1. simpl. reflexivity.
    - by apply (inOrder_snoc [_; _; _]). }
  destruct (bool_decide (method = js "GET") && bool_decide (pathname = js "/api/health"));
    [by apply Hsj|].
  destruct (bool_decide (method = js "GET") && negb (bool_decide (pathname = []))
            && startsWith pathname (js "/api/stream/")).
  { destruct (runs w1 !! pop (split slash pathname)) as [run|] eqn:Hrun;
      [|unfold stream; by rewrite Hrun].
    rewrite (stream_found _ _ _ run) by done. cbv zeta.
    eexists (sseCalls ++ (Write <$> _)). split.
    - unfold callsOf, flushHeaders, setHeader, onRes. simpl.
      rewrite !list_lookup_alter_eq, Hx1. simpl. reflexivity.
    - apply inOrder_open. rewrite List.filter_app. simpl.
      apply filter_isEnd_writes. }
  destruct (bool_decide (method = js "POST") && bool_decide (pathname = js "/api/chat"));
    [|done].
  destruct (acceptable (messageOf node body)) eqn:Hacc.
  - destruct (acceptable_message node body Hacc) as (data & m & Hparse & Hm & Ht).
    rewrite (chat_accepted _ _ _ _ _ _ Hparse Hm Ht). by apply Hsj.
  - destruct (chat_rejected node res body w1 _ Hacc Hx1) as [msg ->]. by apply Hsj.
Qed.

(** The handler leaves the response objects of earlier requests alone. *)
Lemma handler_others res method pathname body w (s : nat) :
  s ≠ res →
  responses (handler node res method pathname body w) !! s = responses w !! s.
Proof.
  intros Hne.
  destruct (handler_shape node res method pathname body w)
    as [(F & HF & ->)|[(run & F & HF & Hrun & ->)|(m & t & F & HF & ->)]];
    simpl; by rewrite list_lookup_alter_ne.
Qed.

Lemma inOrder_cors ops : inOrder ops → inOrder (corsCalls ++ ops).
Proof.
  intros [H|(before & data & -> & H)].
  - left. by rewrite List.filter_app, H.
  - right. exists (corsCalls ++ before), data. split; [by rewrite app_assoc|].
    by rewrite List.filter_app, H.
Qed.

(** The same for the pieces of the handler. *)
Lemma api_calls res method pathname w d :
  responses w !! res = Some {| calls := corsCalls; received := []; destroyed := d |} →
  ∃ ops, callsOf res (api node res method pathname w) = corsCalls ++ ops ∧ inOrder ops.
Proof.
  intros Hx. unfold api.
  destruct (bool_decide (method = js "GET") && bool_decide (pathname = js "/api/health")).
  { exists (jsonCalls node 200 (JObj [(js "status", JStr (js "ok"))])).
    split; [|by apply (inOrder_snoc [_; _; _])].
    by erewrite callsOf_sendJson by exact Hx. }
  destruct (bool_decide (method = js "GET") && negb (bool_decide (pathname = []))
            && startsWith pathname (js "/api/stream/")).
  { destruct (runs w !! pop (split slash pathname)) as [run|] eqn:Hrun.
    - rewrite (stream_found _ _ _ run) by done. cbv zeta.
      eexists (sseCalls ++ (Write <$> _)). split.
      + unfold callsOf, flushHeaders, setHeader, onRes. simpl.
        rewrite !list_lookup_alter_eq, Hx. simpl. reflexivity.
      + apply inOrder_open. rewrite List.filter_app. simpl.
        apply filter_isEnd_writes.
    - unfold stream. rewrite Hrun.
      exists [SetStatus 404; End None]. split; [|by apply (inOrder_snoc [_])].
      unfold callsOf, notFound, setStatus, end_, onRes. simpl.
      by rewrite !list_lookup_alter_eq, Hx. }
  destruct (bool_decide (method = js "POST") && bool_decide (pathname = js "/api/chat")).
  { exists []. split; [|by left]. unfold callsOf. simpl. by rewrite Hx. }
  exists [SetStatus 404; End None]. split; [|by apply (inOrder_snoc [_])].
  unfold callsOf, notFound, setStatus, end_, onRes. simpl.
  by rewrite !list_lookup_alter_eq, Hx.
Qed.

Lemma handlerEntry_calls res method pathname w x :
  responses w !! res = Some x → calls x = [] → received x = [] →
  ∃ ops, callsOf res (handlerEntry node res method pathname w) = corsCalls ++ ops ∧
         inOrder ops.
Proof.
  intros Hx Hc Hrx. unfold handlerEntry.
  pose proof (cors_set res x w Hx Hc) as Hx1. rewrite Hrx in Hx1.
  set (w1 := setHeader res "Access-Control-Allow-Methods" _ _) in *. clearbody w1.
  case_bool_decide.
  { exists [SetStatus 204; End None]. split; [|by apply (inOrder_snoc [_])].
    unfold callsOf, setStatus, end_, onRes. simpl.
    by rewrite !list_lookup_alter_eq, Hx1. }
  destruct (_ && _ && negb (startsWith pathname (js "/api"))); [|by eapply api_calls].
  destruct (fileRead node pathname) as [path|]; [|by eapply api_calls].
  exists []. split; [|by left]. unfold callsOf. simpl. by rewrite Hx1.
Qed.

Lemma handlerEntry_others res method pathname w (s : nat) :
  s ≠ res →
  responses (handlerEntry node res method pathname w) !! s = responses w !! s.
Proof.
  intros Hne.
  destruct (handlerEntry_shape node res method pathname w)
    as [(F & HF & ->)|[(run & F & HF & Hrun & ->)|(p & F & HF & ->)]];
    simpl; by rewrite list_lookup_alter_ne.
Qed.

(** The answer to a chat request, and to a static request. *)
Lemma chat_calls res body w d :
  responses w !! res = Some {| calls := corsCalls; received := []; destroyed := d |} →
  ∃ statusCode data,
    callsOf res (chat node res body w) = corsCalls ++ jsonCalls node statusCode data.
Proof.
  intros Hx. destruct (acceptable (messageOf node body)) eqn:Hacc.
  - destruct (acceptable_message node body Hacc) as (data & m & Hparse & Hm & Ht).
    rewrite (chat_accepted _ _ _ _ _ _ Hparse Hm Ht). eexists _, _.
    by erewrite callsOf_sendJson by (simpl; exact Hx).
  - destruct (chat_rejected node res body w _ Hacc Hx) as [msg ->]. eexists _, _.
    by erewrite callsOf_sendJson by exact Hx.
Qed.

Lemma chat_others res body w (s : nat) :
  s ≠ res → responses (chat node res body w) !! s = responses w !! s.
Proof.
  intros Hne.
  destruct (chat_shape node res body w) as [(F & HF & ->)|(m & t & F & HF & ->)];
    simpl; by rewrite list_lookup_alter_ne.
Qed.

Lemma handlerResume_calls res pathname w d :
  responses w !! res = Some {| calls := corsCalls; received := []; destroyed := d |} →
  startsWith pathname (js "/api") = false →
  callsOf res (handlerResume node res pathname w) =
    corsCalls ++
    match fileRead node pathname ≫= readFile node with
    | Some data =>
        [SetStatus 200;
         SetHeader (js "Content-Type")
           (js (contentType (pop (split dot (resolved node pathname)))));
         SetHeader (js "Access-Control-Allow-Origin") (js "*");
         End (Some data)]
    | None => [SetStatus 404; End None]
    end.
Proof.
  intros Hx Hapi. unfold handlerResume, serveStatic.
  assert (Hnf : callsOf res (api node res (js "GET") pathname w) =
                corsCalls ++ [SetStatus 404; End None]).
  { rewrite api_static by done.
    unfold callsOf, notFound, setStatus, end_, onRes. simpl.
    by rewrite !list_lookup_alter_eq, Hx. }
  unfold fileRead. destruct (startsWith (resolved node pathname) (publicDir node)); simpl;
    [|done].
  destruct (readFile node (resolved node pathname)) as [data|]; simpl; [|done].
  unfold callsOf, setStatus, setHeader, end_, onRes. simpl.
  by rewrite !list_lookup_alter_eq, Hx.
Qed.

Lemma handlerResume_others res pathname w (s : nat) :
  startsWith pathname (js "/api") = false → s ≠ res →
  responses (handlerResume node res pathname w) !! s = responses w !! s.
Proof.
  intros Hapi Hne.
  destruct (handlerResume_shape node res pathname w Hapi) as (F & HF & ->).
  simpl. by rewrite list_lookup_alter_ne.
Qed.

Lemma calls_invariant inputs (s : nat) x :
  responses (exec node init inputs) !! s = Some x →
  ∃ ops, calls x = corsCalls ++ ops ∧ inOrder ops.
Proof.
  assert (H : ∀ w, Inv node w →
            (∀ s x, responses w !! s = Some x →
                    ∃ ops, calls x = corsCalls ++ ops ∧ inOrder ops) →
            ∀ s x, responses (exec node w inputs) !! s = Some x →
                   ∃ ops, calls x = corsCalls ++ ops ∧ inOrder ops).
  { induction inputs as [|i inputs IH]; intros w HI HK; [done|].
    simpl. apply IH; [by apply Inv_step|]. clear IH s x. intros s x.
    assert (Hold : ∀ rs, rs !! s = Some x → s ≠ length (responses w) →
                         rs = responses w ++ [newResponse] →
                         ∃ ops, calls x = corsCalls ++ ops ∧ inOrder ops).
    { intros rs Hx Hne ->. apply (HK s). rewrite lookup_app_l in Hx; [done|].
      apply lookup_lt_Some in Hx. rewrite length_app in Hx. simpl in Hx. lia. }
    destruct i as [method pathname body|run outcome|res|res|method pathname|res chunk|res|res];
      simpl.
    - destruct (decide (s = length (responses w))) as [->|Hne].
      + intros Hx.
        destruct (handler_calls (length (responses w)) method pathname body (arrive w)
                    newResponse) as (ops & Hops & Hord);
          [by apply list_lookup_middle|done|].
        unfold callsOf in Hops. rewrite Hx in Hops. exists ops. split; done.
      + rewrite handler_others by done. intros Hx. by eapply Hold.
    - destruct (awaiting w !! run) as [k|] eqn:Hk;
        [|unfold pipelineResume; rewrite Hk; apply HK].
      destruct (heap w !! run) as [r|] eqn:Hr.
      2:{ apply (inv_awaiting_bound _ _ HI) in Hk. apply lookup_ge_None in Hr. lia. }
      rewrite (pipelineResume_unfold _ _ _ _ _ _ Hk Hr). unfold settled. simpl.
      destruct (decide (s ∈ clients r)) as [Hin|Hnin];
        [|rewrite !broadcast_notin by done; apply HK].
      rewrite !broadcast_in by eauto using inv_nodup.
      destruct (responses w !! s) as [x0|] eqn:Hx0; [|done].
      simpl. intros [= <-]. destruct (HK _ _ Hx0) as (ops & Hops & Hord).
      pose proof (inv_phase _ _ HI _ _ Hr) as Hp. rewrite Hk in Hp.
      destruct Hp as [Hd _].
      pose proof (inv_open _ _ HI _ _ _ Hr Hin Hd) as H0.
      unfold ended, callsOf in H0. rewrite Hx0 in H0. simpl in H0.
      apply length_zero_iff_nil in H0. rewrite Hops, List.filter_app in H0.
      apply app_eq_nil in H0 as [_ H0]. simpl.
      eexists (ops ++ [_; _]). split; [by rewrite Hops, <- !app_assoc|].
      right. eexists (ops ++ [_]), _. split; [by rewrite <- app_assoc|].
      by rewrite List.filter_app, H0.
    - intros Hx.
      apply lookup_alter_Some in Hx as [[-> (x0 & Hx0 & ->)]|[_ Hx]];
        [exact (HK _ _ Hx0)|exact (HK _ _ Hx)].
    - destruct (close_listeners w !! res); apply HK.
    - destruct (decide (s = length (responses w))) as [->|Hne].
      + intros Hx.
        destruct (handlerEntry_calls (length (responses w)) method pathname (arrive w)
                    newResponse) as (ops & Hops & Hord);
          [by apply list_lookup_middle|done|done|].
        unfold callsOf in Hops. rewrite Hx in Hops. exists ops. split; done.
      + rewrite handlerEntry_others by done. intros Hx. by eapply Hold.
    - unfold onData. destruct (pending w !! res) as [[p|b]|]; apply HK.
    - unfold onEnd. destruct (pending w !! res) as [[p|b]|] eqn:Hp; try apply HK.
      destruct (unpend_facts node res _ w HI Hp) as (_ & _ & _ & d & Hx0).
      destruct (decide (s = res)) as [->|Hne].
      + intros Hx. destruct (chat_calls res b _ d Hx0) as (code & data & Hc).
        unfold callsOf in Hc. rewrite Hx in Hc. eexists. split; [exact Hc|].
        by apply (inOrder_snoc [_; _; _]).
      + rewrite chat_others by done. apply HK.
    - unfold onRead. destruct (pending w !! res) as [[p|b]|] eqn:Hp; try apply HK.
      destruct (unpend_facts node res _ w HI Hp) as (_ & _ & _ & d & Hx0).
      pose proof (inv_reading _ _ HI _ _ Hp) as Hapi.
      destruct (decide (s = res)) as [->|Hne].
      + intros Hx. pose proof (handlerResume_calls res p _ d Hx0 Hapi) as Hc.
        unfold callsOf in Hc. rewrite Hx in Hc. eexists. split; [exact Hc|].
        destruct (fileRead node p ≫= readFile node);
          [by apply (inOrder_snoc [_; _; _])|by apply (inOrder_snoc [_])].
      + rewrite handlerResume_others by done. apply HK. }
  apply H; [apply Inv_init|]. intros s' x' Hx'. done.
Qed.

(** X9. CORS on every response. In every state the server reaches, the
    first calls on every response object are the three CORS headers,
    whatever the method, the path and the outcome of the request. *)
Theorem cors_first inputs (s : nat) x :
  responses (exec node init inputs) !! s = Some x →
  ∃ ops, calls x = corsCalls ++ ops.
Proof.
  intros Hx. destruct (calls_invariant inputs s x Hx) as (ops & Hops & _). eauto.
Qed.

(** X10. Nothing after the end. In every state the server reaches, [end]
    has been called at most once on every response object, and no call
    follows it: no write after end, no second end. *)
Theorem calls_in_order inputs (s : nat) x :
  responses (exec node init inputs) !! s = Some x → inOrder (calls x).
Proof.
  intros Hx. destruct (calls_invariant inputs s x Hx) as (ops & -> & Hord).
  by apply inOrder_cors.
Qed.

(** ** Routes *)

Lemma sameData_onRes res F w w' : sameData w w' → sameData w (onRes res F w').
Proof. done. Qed.

Lemma sameData_refl w : sameData w w.
Proof. done. Qed.

Lemma sameData_arrive w w' : sameData (arrive w) w' → sameData w w'.
Proof. done. Qed.

Lemma sameData_sendJson res statusCode data w w' :
  sameData w w' → sameData w (sendJson node res statusCode data w').
Proof. done. Qed.

Lemma sameData_stream res pathname w : sameData w (stream node res pathname w).
Proof.
  destruct (runs w !! pop (split slash pathname)) as [run|] eqn:Hrun;
    [|unfold stream; by rewrite Hrun].
  rewrite (stream_found _ _ _ run) by done. cbv zeta.
  repeat (split; [done|]). split; [simpl; by rewrite length_alter|].
  intros a. unfold eventsOf. simpl.
  destruct (decide (a = run)) as [->|Hne]; [|by rewrite list_lookup_alter_ne].
  rewrite list_lookup_alter_eq. by destruct (heap w !! run).
Qed.

(** What the handler does beyond answering, route by route: nothing,
    unless the request is a POST /api/chat with an acceptable message. *)
Lemma handler_sameData res method pathname body w :
  sameData w (handler node res method pathname body w) ∨
  (method = js "POST" ∧ pathname = js "/api/chat" ∧
   acceptable (messageOf node body) = true).
Proof.
  unfold handler.
  set (w1 := setHeader res "Access-Control-Allow-Methods" _ _).
  assert (H1 : sameData w w1) by done.
  assert (Hx : ∀ W, sameData w1 W → sameData w W) by done.
  clearbody w1.
  case_bool_decide; [by left|].
  destruct (if _ : bool then serveStatic node res pathname w1 else None)
    as [w'|] eqn:Hstatic.
  { left. destruct (_ && _ && _); [|done]. unfold serveStatic in Hstatic.
    destruct (fileRead node pathname) as [path|]; [|done]. simpl in Hstatic.
    destruct (readFile node path) as [data|]; [|done]. simpl in Hstatic.
    injection Hstatic as <-. by apply Hx. }
  destruct (bool_decide (method = js "GET") && bool_decide (pathname = js "/api/health"));
    [left; by apply Hx|].
  destruct (bool_decide (method = js "GET") && negb (bool_decide (pathname = []))
            && startsWith pathname (js "/api/stream/"));
    [left; apply Hx, sameData_stream|].
  destruct (bool_decide (method = js "POST") && bool_decide (pathname = js "/api/chat"))
    eqn:Hroute; [|left; by apply Hx].
  apply andb_true_iff in Hroute as [Hm Hp].
  apply bool_decide_eq_true in Hm, Hp.
  destruct (acceptable (messageOf node body)) eqn:Hacc; [by right|left].
  destruct (responses w1 !! res) as [x|] eqn:Hres.
  - destruct (chat_rejected node res body w1 x Hacc Hres) as [msg ->]. by apply Hx.
  - apply Hx. unfold chat, messageOf in *.
    destruct (JSON_parse node _) as [data|]; [|done]. simpl in Hacc.
    destruct data as [| | | | |props]; try done.
    destruct (prop (js "message") (JObj props)) as [[| | |m| |]|]; try done.
    simpl in Hacc. apply negb_false_iff in Hacc. by rewrite Hacc.
Qed.

(** X11. Only an accepted chat request creates anything. In any state, a
    request that is not a POST /api/chat with an acceptable message leaves
    the run registry, the thread store, the suspended pipelines, the count
    of identifiers drawn, the number of run objects, and the log and the
    [done] flag of every run as they were, whatever its method, path and
    body. *)
Theorem only_chat_creates w method pathname body :
  ¬ (method = js "POST" ∧ pathname = js "/api/chat" ∧
     acceptable (messageOf node body) = true) →
  sameData w (step node w (Request method pathname body)).
Proof.
  intros Hnot. simpl.
  destruct (handler_sameData (length (responses w)) method pathname body (arrive w))
    as [H|H]; [by apply sameData_arrive|done].
Qed.

(** X12. No route, no file: 404. A request whose method is not OPTIONS,
    GET or POST, a POST to another path than /api/chat, a GET without a
    path, and a GET under /api that is neither /api/health nor under
    /api/stream/ are all answered with the CORS headers, status 404 and an
    empty body; the disk is not consulted for the latter, whatever files
    exist. *)
Theorem unknown_route w method pathname body :
  (method ≠ js "OPTIONS" ∧ method ≠ js "GET" ∧ method ≠ js "POST") ∨
  (method = js "POST" ∧ pathname ≠ js "/api/chat") ∨
  (method = js "GET" ∧ pathname = []) ∨
  (method = js "GET" ∧ startsWith pathname (js "/api") = true ∧
   pathname ≠ js "/api/health" ∧ startsWith pathname (js "/api/stream/") = false) →
  callsOf (length (responses w)) (step node w (Request method pathname body)) =
  corsCalls ++ [SetStatus 404; End None].
Proof.
  intros Hroute. simpl. set (res := length (responses w)).
  assert (Hgoal : callsOf res
            (notFound res
               (setHeader res "Access-Control-Allow-Methods" "GET,POST,OPTIONS"
                  (setHeader res "Access-Control-Allow-Headers" "Content-Type"
                     (setHeader res "Access-Control-Allow-Origin" "*" (arrive w)))))
            = corsCalls ++ [SetStatus 404; End None]).
  { unfold callsOf, notFound, setStatus, end_, setHeader, onRes. simpl.
    by rewrite !list_lookup_alter_eq, list_lookup_middle. }
  unfold handler.
  destruct Hroute as [(Ho & Hg & Hp)|[(-> & Hp)|[(-> & ->)|(-> & Hapi & Hh & Hs)]]].
  - rewrite (bool_decide_eq_false_2 (method = js "OPTIONS")) by done.
    rewrite (bool_decide_eq_false_2 (method = js "GET")) by done.
    rewrite (bool_decide_eq_false_2 (method = js "POST")) by done.
    exact Hgoal.
  - rewrite (bool_decide_eq_false_2 (pathname = js "/api/chat")) by done.
    exact Hgoal.
  - exact Hgoal.
  - rewrite Hapi, Hs. rewrite (bool_decide_eq_false_2 (pathname = js "/api/health")) by done.
    cbn [negb]. rewrite !andb_false_r. exact Hgoal.
Qed.










(** ** A whole exchange, piece by piece *)

Lemma idle_pieces W (res : nat) body :
  pending W !! res = None →
  exec node W [Data res body; EndOfBody res; FileRead res] = W.
Proof.
  intros H. simpl. unfold onData. rewrite H. unfold onEnd. rewrite H.
  unfold onRead. by rewrite H.
Qed.

Lemma unpend_pend W (res : nat) q :
  pending W !! res = None →
  with_pending (delete res) (with_pending <[res := q]> W) = W.
Proof.
  intros H. destruct W. unfold with_pending. simpl in *. f_equal.
  by apply delete_insert_id.
Qed.

Lemma pieces_reading W (res : nat) pathname body :
  pending W !! res = None →
  exec node (with_pending <[res := Reading pathname]> W)
    [Data res body; EndOfBody res; FileRead res] = handlerResume node res pathname W.
Proof.
  intros H. set (W1 := with_pending <[res := Reading pathname]> W).
  assert (H1 : pending W1 !! res = Some (Reading pathname)) by apply lookup_insert_eq.
  cbn [exec foldl step]. unfold onData. rewrite H1. unfold onEnd. rewrite H1.
  unfold onRead. rewrite H1. unfold W1. by rewrite unpend_pend.
Qed.

Lemma stream_pending res pathname W :
  pending (stream node res pathname W) = pending W.
Proof.
  destruct (runs W !! pop (split slash pathname)) as [run|] eqn:Hrun;
    [|unfold stream; by rewrite Hrun].
  by rewrite (stream_found _ _ _ run).
Qed.

Lemma chat_pending res body W : pending (chat node res body W) = pending W.
Proof.
  by destruct (chat_shape node res body W) as [(F & _ & ->)|(m & t & F & _ & ->)].
Qed.

Lemma pieces_receiving W (res : nat) body :
  pending W !! res = None →
  exec node (with_pending <[res := Receiving []]> W)
    [Data res body; EndOfBody res; FileRead res] = chat node res body W.
Proof.
  intros H. set (W1 := with_pending <[res := Receiving []]> W).
  assert (H1 : pending W1 !! res = Some (Receiving [])) by apply lookup_insert_eq.
  cbn [exec foldl step]. unfold onData. rewrite H1.
  set (W2 := with_pending <[res := Receiving ([] ++ body)]> W1).
  assert (H2 : pending W2 !! res = Some (Receiving body)) by apply lookup_insert_eq.
  assert (HW : with_pending (delete res) W2 = W).
  { unfold W2, W1. destruct W. unfold with_pending. simpl in *. f_equal.
    rewrite insert_insert_eq. by apply delete_insert_id. }
  unfold onEnd. rewrite H2, HW. unfold onRead. by rewrite chat_pending, H.
Qed.

(** X22. A whole exchange is its pieces, one after the other. In a state
    the server reaches, handling a request in one step comes to the same
    as the call of the handler followed at once by the body of the request,
    the end of the body, and the settling of the file read: for a chat
    request the ['data'] and ['end'] listeners do the work, for a static
    request the continuation of the handler does, and for every other
    request the handler has answered before it returns and the later pieces
    find nothing to do. *)
Theorem request_in_pieces inputs method pathname body :
  let w := exec node init inputs in
  let res := length (responses w) in
  step node w (Request method pathname body) =
  exec node w [Incoming method pathname; Data res body; EndOfBody res; FileRead res].
Proof.
  intros w res. pose proof (Inv_reach node inputs) as HI. fold w in HI.
  assert (Hnone : pending w !! res = None).
  { destruct (pending w !! res) as [p|] eqn:Hp; [|done].
    destruct (inv_pending _ _ HI _ _ Hp) as (_ & d & Hx).
    apply lookup_lt_Some in Hx. unfold res in Hx. lia. }
  change (exec node w (Incoming method pathname :: ?l))
    with (exec node (step node w (Incoming method pathname)) l).
  cbn [step]. fold res. unfold handler, handlerEntry.
  set (w1 := setHeader res "Access-Control-Allow-Methods" _ _).
  assert (Hp1 : pending w1 !! res = None) by done.
  clearbody w1. clear HI Hnone.
  assert (Hnf : exec node (notFound res w1) [Data res body; EndOfBody res; FileRead res]
                = notFound res w1) by by apply idle_pieces.
  case_bool_decide as Ho; [by rewrite idle_pieces|].
  destruct (bool_decide (method = js "GET") && negb (bool_decide (pathname = []))
            && negb (startsWith pathname (js "/api"))) eqn:Hc.
  - apply andb_true_iff in Hc as [Hc Hapi]. apply andb_true_iff in Hc as [Hg _].
    apply negb_true_iff in Hapi. apply bool_decide_eq_true in Hg. subst method.
    assert (Hs : startsWith pathname (js "/api/stream/") = false).
    { destruct (startsWith pathname (js "/api/stream/")) eqn:E; [|done].
      apply (startsWith_app _ (js "/api") (js "/stream/")) in E. congruence. }
    assert (Hh : bool_decide (pathname = js "/api/health") = false).
    { apply bool_decide_eq_false. intros ->. done. }
    rewrite Hs, Hh, !andb_false_r.
    rewrite (bool_decide_eq_false_2 (js "GET" = js "POST")) by done. cbn [andb].
    destruct (fileRead node pathname) as [path|] eqn:Hf.
    + rewrite pieces_reading by done.
      unfold handlerResume. by rewrite api_static.
    + rewrite api_static by done. rewrite Hnf.
      unfold serveStatic. by rewrite Hf.
  - unfold api.
    destruct (bool_decide (method = js "GET") && bool_decide (pathname = js "/api/health")).
    { by rewrite idle_pieces. }
    destruct (bool_decide (method = js "GET") && negb (bool_decide (pathname = []))
              && startsWith pathname (js "/api/stream/")).
    { rewrite idle_pieces; [done|]. by rewrite stream_pending. }
    destruct (bool_decide (method = js "POST") && bool_decide (pathname = js "/api/chat"));
      [|by rewrite Hnf].
    by rewrite pieces_receiving.
Qed.

(** X23. The answer to a pending request. Take a request that is pending
    in a state the server reaches, whatever has happened since the handler
    was called for it. When the body of a chat request ends, the body that
    has been collected is judged: if its [message] is missing, is not a
    string or is blank, the answer is a 400 with an error object and the
    data of the server stays as it is; otherwise a run is created and
    registered under a new id and the answer is a 200 with the run id and a
    thread id. When the file read of a static request settles, the answer is
    a 200 with the content type of the extension and the file, or a 404 if
    the file cannot be read, and the data of the server stays as it is. For
    a request that is not pending, these events change nothing. *)
Theorem pending_answer inputs (s : nat) :
  let w := exec node init inputs in
  match pending w !! s with
  | Some (Receiving body) =>
      let w' := step node w (EndOfBody s) in
      if acceptable (messageOf node body) then
        runs w' = <[randomUUID node (uuid_calls w) := length (heap w)]> (runs w) ∧
        length (heap w') = S (length (heap w)) ∧
        ∃ threadId,
          callsOf s w' =
          corsCalls ++ jsonCalls node 200
            (JObj [(js "runId", JStr (randomUUID node (uuid_calls w)));
                   (js "threadId", JStr threadId)])
      else
        sameData w w' ∧
        ∃ msg, callsOf s w' = corsCalls ++ jsonCalls node 400 (errorBody msg)
  | Some (Reading pathname) =>
      let w' := step node w (FileRead s) in
      sameData w w' ∧
      callsOf s w' =
        corsCalls ++
        match fileRead node pathname ≫= readFile node with
        | Some data =>
            [SetStatus 200;
             SetHeader (js "Content-Type")
               (js (contentType (pop (split dot (resolved node pathname)))));
             SetHeader (js "Access-Control-Allow-Origin") (js "*");
             End (Some data)]
        | None => [SetStatus 404; End None]
        end
  | None =>
      step node w (EndOfBody s) = w ∧ step node w (FileRead s) = w ∧
      ∀ chunk, step node w (Data s chunk) = w
  end.
Proof.
  intros w. pose proof (Inv_reach node inputs) as HI. fold w in HI.
  destruct (pending w !! s) as [[pathname|body]|] eqn:Hq.
  - destruct (unpend_facts node s _ w HI Hq) as (_ & _ & _ & d & Hx0).
    pose proof (inv_reading _ _ HI _ _ Hq) as Hapi.
    cbn zeta. simpl step. unfold onRead. rewrite Hq. split.
    + by destruct (handlerResume_shape node s pathname (with_pending (delete s) w) Hapi)
        as (F & _ & ->).
    + exact (handlerResume_calls s pathname _ d Hx0 Hapi).
  - destruct (unpend_facts node s _ w HI Hq) as (_ & _ & _ & d & Hx0).
    cbn zeta. simpl step. unfold onEnd. rewrite Hq.
    destruct (acceptable (messageOf node body)) eqn:Hacc.
    + destruct (acceptable_message node body Hacc) as (data & m & Hparse & Hm & Ht).
      rewrite (chat_accepted _ _ _ _ _ _ Hparse Hm Ht).
      split; [done|]. split; [simpl; rewrite length_app; simpl; lia|].
      eexists. by erewrite callsOf_sendJson by (simpl; exact Hx0).
    + destruct (chat_rejected node s body _ _ Hacc Hx0) as [msg ->].
      split; [done|]. exists msg. by erewrite callsOf_sendJson by exact Hx0.
  - simpl. unfold onEnd, onRead, onData. by rewrite Hq.
Qed.

(** ** The run id of a stream request *)

Lemma split_nonempty sep s : split sep s ≠ [].
Proof.
  destruct s as [|c s]; [done|]. simpl.
  destruct (c =? sep)%N; [done|]. by destruct (split sep s).
Qed.

Lemma split_app sep a b :
  split sep (a ++ sep :: b) = split sep a ++ split sep b.
Proof.
  induction a as [|c a IH]; simpl.
  - by rewrite N.eqb_refl.
  - destruct (c =? sep)%N; [by rewrite IH|]. rewrite IH.
    pose proof (split_nonempty sep a). by destruct (split sep a).
Qed.

Lemma split_single sep s : sep ∉ s → split sep s = [s].
Proof.
  induction s as [|c s IH]; [done|]. intros Hn.
  apply not_elem_of_cons in Hn as [Hc Hn]. simpl.
  rewrite (proj2 (N.eqb_neq c sep)) by done. by rewrite IH.
Qed.

Lemma pop_split_last p id : slash ∉ id → pop (split slash (p ++ slash :: id)) = id.
Proof.
  intros Hn. rewrite split_app, (split_single slash id) by done.
  unfold pop. by rewrite last_snoc.
Qed.

(** X15. The run id is the last segment of the path. In a state the server
    reaches, a GET for a path under /api/stream/ that ends in a slash
    followed by an id without slashes, whatever lies in between, is looked
    up under that id: if no run is registered under it, the answer is the
    CORS headers, status 404 and an empty body; if one is, the response
    object joins the clients of that run and receives its log. *)
Theorem stream_lookup inputs p id body :
  let w := exec node init inputs in
  let res := length (responses w) in
  let w' := step node w (Request (js "GET") (p ++ slash :: id) body) in
  slash ∉ id → startsWith (p ++ slash :: id) (js "/api/stream/") = true →
  match runs w !! id with
  | None => callsOf res w' = corsCalls ++ [SetStatus 404; End None]
  | Some run =>
      res ∈ clientsOf run w' ∧ receivedBy res w' = payload node <$> eventsOf run w
  end.
Proof.
  intros w res w' Hid Hp.
  pose proof (Inv_reach node inputs) as HI. fold w in HI.
  pose proof (pop_split_last p id Hid) as Hpop.
  destruct (runs w !! id) as [run|] eqn:Hrun.
  - pose proof (inv_runs _ _ HI _ _ Hrun) as Hlt.
    destruct (lookup_lt_is_Some_2 _ _ Hlt) as [r Hr].
    destruct (attach_facts node w (p ++ slash :: id) body run r HI Hp)
      as (x & Hr' & Hs' & Hx' & _ & Hrx & _); [by rewrite Hpop|done|].
    fold res w' in Hr', Hs', Hx'.
    unfold clientsOf, receivedBy, eventsOf. by rewrite Hr', Hx', Hr.
  - unfold w'. simpl. rewrite handler_stream by done. unfold stream.
    change (runs (setHeader _ _ _ (setHeader _ _ _ (setHeader _ _ _ (arrive w)))))
      with (runs w). rewrite Hpop, Hrun.
    unfold callsOf, notFound, setStatus, end_, setHeader, onRes. simpl.
    by rewrite !list_lookup_alter_eq, list_lookup_middle.
Qed.

(** ** Blank messages *)

Lemma trimStart_nil s : trimStart s = [] ↔ forallb isWhiteSpace s = true.
Proof.
  induction s as [|c s IH]; simpl; [done|].
  destruct (isWhiteSpace c); simpl; [done|]. split; done.
Qed.

Lemma trimStart_head s c t : trimStart s = c :: t → isWhiteSpace c = false.
Proof.
  induction s as [|c' s IH]; simpl; [done|].
  destruct (isWhiteSpace c') eqn:E; [done|]. by intros [= <- _].
Qed.

Lemma forallb_rev (f : N → bool) l : forallb f (rev l) = forallb f l.
Proof.
  induction l as [|c l IH]; simpl; [done|].
  rewrite forallb_app, IH. simpl. rewrite andb_true_r. apply andb_comm.
Qed.

Lemma trim_nil s : trim s = [] ↔ forallb isWhiteSpace s = true.
Proof.
  unfold trim. split.
  - intros H. apply (f_equal (@rev N)) in H. rewrite rev_involutive in H. simpl in H.
    apply trimStart_nil in H. rewrite forallb_rev in H.
    destruct (trimStart s) as [|c t] eqn:E; [by apply trimStart_nil|].
    apply trimStart_head in E. simpl in H. by rewrite E in H.
  - intros H. apply trimStart_nil in H. by rewrite H.
Qed.

(** X16. Which messages are taken. A string message is acceptable exactly
    when one of its code units is not white space: the empty string and
    the strings of blanks, tabs, line ends and the like are turned down,
    every other string is taken. *)
Theorem message_accepted_iff m :
  acceptable (Some (JStr m)) = true ↔ ∃ c, c ∈ m ∧ isWhiteSpace c = false.
Proof.
  simpl. rewrite negb_true_iff, bool_decide_eq_false. split.
  - intros Ht. assert (Hn : forallb isWhiteSpace m ≠ true).
    { intros H. by apply Ht, trim_nil. }
    clear Ht. induction m as [|c m IH]; [done|].
    destruct (isWhiteSpace c) eqn:E.
    + simpl in Hn. rewrite E in Hn. destruct (IH Hn) as (c' & Hin & Hc').
      exists c'. split; [by apply elem_of_cons; right|done].
    + exists c. split; [apply list_elem_of_here|done].
  - intros (c & Hin & Hc) Ht. apply trim_nil in Ht.
    rewrite forallb_forall in Ht. apply list_elem_of_In in Hin.
    rewrite (Ht c Hin) in Hc. done.
Qed.

(** ** Observers *)

(** X17. One run per observer. In every state the server reaches, a
    response object is a client of at most one run. *)
Theorem attach_unique inputs a b ra rb (s : nat) :
  let w := exec node init inputs in
  heap w !! a = Some ra → heap w !! b = Some rb →
  s ∈ clients ra → s ∈ clients rb → a = b.
Proof.
  intros w Ha Hb Hsa Hsb. pose proof (Inv_reach node inputs) as HI. fold w in HI.
  pose proof (inv_listen _ _ HI _ _ _ Ha Hsa).
  pose proof (inv_listen _ _ HI _ _ _ Hb Hsb). congruence.
Qed.

(** X18. Observers agree. In every state the server reaches, two clients
    of the same run whose sockets are sound have received the same chunks,
    in the same order, whenever each of them attached. *)
Theorem observers_agree inputs run r (s1 s2 : nat) x1 x2 :
  let w := exec node init inputs in
  heap w !! run = Some r → s1 ∈ clients r → s2 ∈ clients r →
  responses w !! s1 = Some x1 → responses w !! s2 = Some x2 →
  destroyed x1 = false → destroyed x2 = false →
  received x1 = received x2.
Proof.
  intros w Hr Hs1 Hs2 Hx1 Hx2 Hd1 Hd2.
  pose proof (Inv_reach node inputs) as HI. fold w in HI.
  rewrite (inv_received _ _ HI _ _ _ _ Hr Hs1 Hx1 Hd1).
  by rewrite (inv_received _ _ HI _ _ _ _ Hr Hs2 Hx2 Hd2).
Qed.

(** A response object that no run has as a client and whose request is
    not pending: a step calls nothing on it, and it stays that way. *)
Lemma detached_step w i (s : nat) :
  Inv node w → s < length (responses w) → (∀ run, s ∉ clientsOf run w) →
  pending w !! s = None →
  (∀ run, s ∉ clientsOf run (step node w i)) ∧
  callsOf s (step node w i) = callsOf s w ∧
  s < length (responses (step node w i)) ∧
  pending (step node w i) !! s = None.
Proof.
  intros HI Hlt Hout Hpend.
  assert (Hout' : ∀ run r, heap w !! run = Some r → s ∉ clients r).
  { intros run r Hr. specialize (Hout run). unfold clientsOf in Hout.
    by rewrite Hr in Hout. }
  assert (Hgrow : ∀ (F : Response → Response) rs,
            rs = responses w ++ [newResponse] →
            from_option calls [] (alter F (length (responses w)) rs !! s) = callsOf s w ∧
            s < length (alter F (length (responses w)) rs)).
  { intros F rs ->. unfold callsOf.
    rewrite length_alter, length_app, list_lookup_alter_ne, lookup_app_l by lia.
    split; [done|lia]. }
  assert (Hnew : ∀ a run,
            s ∉ from_option clients []
                  (alter (addClient (length (responses w))) a (heap w) !! run)).
  { intros a run.
    destruct (decide (run = a)) as [->|Hne];
      [|rewrite list_lookup_alter_ne by done; apply Hout].
    rewrite list_lookup_alter_eq.
    destruct (heap w !! a) as [r|] eqn:Hr; [|apply not_elem_of_nil]. simpl.
    case_bool_decide; [by eapply Hout'|].
    intros [Hin|Hin%list_elem_of_singleton]%elem_of_app; [by eapply Hout'|lia]. }
  assert (Hacc : ∀ m t W run, heap W = heap w →
            s ∉ clientsOf run (accepted node m t W)).
  { intros m t W run HW. unfold clientsOf. simpl. rewrite HW.
    destruct ((heap w ++ _) !! run) as [r|] eqn:Hr; [|apply not_elem_of_nil].
    apply lookup_snoc_Some in Hr as [[_ Hr]|[_ <-]]; [by eapply Hout'|].
    apply not_elem_of_nil. }
  pose proof (step_shape node w i HI) as HS.
  destruct HS as [i F HF|i a F HF Ha|i m t F HF|a outcome k r0 Hk Hr0|i|res|res a Hl|i q F HF|i s0 q q' Hq|i s0 q F Hi0 Hq HF|i s0 q m t F Hi0 Hq HF].
  - split; [exact Hout|]. destruct (Hgrow F _ eq_refl). done.
  - split; [|destruct (Hgrow F _ eq_refl); done].
    intros run. unfold clientsOf. simpl. apply Hnew.
  - split; [intros run; by apply Hacc|]. destruct (Hgrow F _ eq_refl). done.
  - split; [|split; [|split; [|done]]].
    + intros run. unfold clientsOf, settled. simpl.
      destruct (decide (run = a)) as [->|Hne];
        [|rewrite list_lookup_alter_ne by done; apply Hout].
      rewrite list_lookup_alter_eq, Hr0. simpl. by eapply Hout'.
    + unfold callsOf, settled. simpl.
      by rewrite !broadcast_notin by (by eapply Hout').
    + unfold settled. simpl. by rewrite !broadcast_length.
  - done.
  - split; [exact Hout|]. unfold callsOf. simpl. rewrite length_alter.
    split; [|done].
    destruct (decide (s = res)) as [->|Hne]; [|by rewrite list_lookup_alter_ne].
    rewrite list_lookup_alter_eq. by destruct (responses w !! res).
  - split; [|done]. intros run. unfold clientsOf. simpl.
    destruct (decide (run = a)) as [->|Hne];
      [|rewrite list_lookup_alter_ne by done; apply Hout].
    rewrite list_lookup_alter_eq.
    destruct (heap w !! a) as [r|] eqn:Hr; [|apply not_elem_of_nil]. simpl.
    intros [_ Hin]%list_elem_of_filter. by eapply Hout'.
  - split; [exact Hout|]. destruct (Hgrow F _ eq_refl) as [Hc Hl].
    split; [done|]. split; [done|]. simpl. rewrite lookup_insert_ne by lia. done.
  - split; [exact Hout|]. split; [done|]. split; [done|]. simpl.
    rewrite lookup_insert_ne; [done|]. intros ->. congruence.
  - assert (Hne : s ≠ s0) by (intros ->; congruence).
    split; [exact Hout|]. unfold callsOf. simpl.
    rewrite length_alter, list_lookup_alter_ne, lookup_delete_ne by done. done.
  - assert (Hne : s ≠ s0) by (intros ->; congruence).
    split; [intros run; by apply Hacc|]. unfold callsOf. simpl.
    rewrite length_alter, list_lookup_alter_ne, lookup_delete_ne by done. done.
Qed.

(** X19. Nothing is sent to an observer that has left. Take a response
    object, in a state the server reaches, whose request is not pending:
    the request was answered, or the response was attached to a run. Once
    its ['close'] event has fired, no input whatsoever makes the server call
    anything more on it: no write, no [end]. A response object whose
    request is pending when it closes is another matter: its answer is
    still to come, and will be made to it. *)
Theorem silent_after_close pre post (s : nat) :
  let w := step node (exec node init pre) (Close s) in
  s < length (responses w) → pending w !! s = None →
  callsOf s (exec node w post) = callsOf s w.
Proof.
  intros w Hlt Hpend.
  assert (HI : Inv node w) by apply Inv_step, Inv_reach.
  assert (Hout : ∀ run, s ∉ clientsOf run w).
  { intros run. apply close_detaches, Inv_reach. }
  clearbody w. revert w Hlt Hpend HI Hout.
  induction post as [|i post IH]; intros w Hlt Hpend HI Hout; [done|].
  destruct (detached_step w i s HI Hlt Hout Hpend) as (Hout' & Hc & Hlt' & Hpend').
  simpl. rewrite IH; [done|done|done|by apply Inv_step|done].
Qed.

(** ** Paths without dot-dot stay inside the public directory *)

Lemma split_no_sep sep s seg : seg ∈ split sep s → sep ∉ seg.
Proof.
  revert seg. induction s as [|c s IH]; intros seg; simpl.
  - intros ->%list_elem_of_singleton. apply not_elem_of_nil.
  - destruct (c =? sep)%N eqn:E.
    + intros [->|Hin]%elem_of_cons; [apply not_elem_of_nil|by apply IH].
    + pose proof (split_nonempty sep s) as Hne.
      destruct (split sep s) as [|h t]; [done|].
      intros [->|Hin]%elem_of_cons.
      * apply not_elem_of_cons. split; [by apply N.eqb_neq in E|].
        apply IH, list_elem_of_here.
      * apply IH. by apply elem_of_cons; right.
Qed.

Lemma normalizeStep_clean b stack seg :
  cleanSegment seg → normalizeStep b stack seg = seg :: stack.
Proof.
  intros (H1 & H2 & H3 & _). unfold normalizeStep.
  by rewrite !bool_decide_eq_false_2 by done.
Qed.

Lemma normalize_push b stack segs :
  Forall cleanSegment segs →
  foldl (normalizeStep b) stack segs = rev segs ++ stack.
Proof.
  revert stack. induction segs as [|seg segs IH]; intros stack Hc; [done|].
  apply Forall_cons in Hc as [Hseg Hc]. simpl.
  rewrite normalizeStep_clean by done. rewrite IH by done.
  by rewrite <- app_assoc.
Qed.

Lemma normalize_clean stack segs :
  Forall cleanSegment stack → Forall (λ seg, slash ∉ seg) segs →
  Forall cleanSegment (foldl (normalizeStep false) stack segs).
Proof.
  revert stack. induction segs as [|seg segs IH]; intros stack Hst Hs; [done|].
  apply Forall_cons in Hs as [Hseg Hs]. simpl. apply IH; [|done].
  unfold normalizeStep.
  destruct (bool_decide (seg = []) || bool_decide (seg = js ".")) eqn:E1; [done|].
  apply orb_false_iff in E1 as [E1 E2]. apply bool_decide_eq_false in E1, E2.
  case_bool_decide as E3.
  - destruct stack as [|top rest]; [done|]. apply Forall_cons in Hst as [Htop Hst].
    case_bool_decide; [by apply Forall_cons|done].
  - apply Forall_cons. split; [|done]. repeat split; done.
Qed.

Lemma normalize_grow stack segs :
  js ".." ∉ segs →
  ∃ extra, foldl (normalizeStep false) stack segs = extra ++ stack.
Proof.
  revert stack. induction segs as [|seg segs IH]; intros stack Hn; [by exists []|].
  apply not_elem_of_cons in Hn as [Hseg Hn]. simpl.
  unfold normalizeStep at 2.
  rewrite (bool_decide_eq_false_2 (seg = js "..")) by done.
  destruct (bool_decide (seg = []) || bool_decide (seg = js ".")); [by apply IH|].
  destruct (IH (seg :: stack) Hn) as [extra ->].
  exists (extra ++ [seg]). by rewrite <- app_assoc.
Qed.

Lemma split_join segs :
  segs ≠ [] → Forall (λ seg, slash ∉ seg) segs →
  split slash (join [slash] segs) = segs.
Proof.
  induction segs as [|x segs IH]; [done|]. intros _ Hs.
  apply Forall_cons in Hs as [Hx Hs].
  destruct segs as [|y segs]; [by apply split_single|].
  change (join [slash] (x :: y :: segs)) with (x ++ slash :: join [slash] (y :: segs)).
  rewrite split_app, split_single by done. rewrite IH by done. done.
Qed.

Lemma join_app sep a b :
  a ≠ [] → b ≠ [] → join sep (a ++ b) = join sep a ++ sep ++ join sep b.
Proof.
  induction a as [|x a IH]; [done|]. intros _ Hb.
  destruct a as [|y a].
  - simpl. by destruct b.
  - change (join sep ((x :: y :: a) ++ b)) with (x ++ sep ++ join sep ((y :: a) ++ b)).
    rewrite IH by done. simpl. by rewrite <- !app_assoc.
Qed.

Lemma startsWith_self p q : startsWith (p ++ q) p = true.
Proof. induction p as [|c p IH]; [by destruct q|]. simpl. by rewrite N.eqb_refl. Qed.

Lemma startsWith_head c s : startsWith (c :: s) [c] = true.
Proof. cbn [startsWith]. rewrite N.eqb_refl. by destruct s. Qed.

(** [path.resolve(a, b)] for an absolute [a] and a relative [b]. *)
Lemma resolvePath_relative cwd a b :
  startsWith a [slash] = true → b ≠ [] → startsWith b [slash] = false →
  resolvePath cwd [a; b] = slash :: normalizeString false (a ++ slash :: b ++ [slash]).
Proof.
  intros Ha Hb Hrel.
  assert (Hne : a ≠ []) by (intros E; by rewrite E in Ha).
  unfold resolvePath.
  change (rev [a; b] ++ [cwd]) with [b; a; cwd].
  change (foldl resolveStep ([], false) [b; a; cwd])
    with (resolveStep (resolveStep (resolveStep ([], false) b) a) cwd).
  assert (H1 : resolveStep ([], false) b = (b ++ [slash], false)).
  { unfold resolveStep. cbn [fst snd]. rewrite bool_decide_eq_false_2 by done.
    by rewrite Hrel, app_nil_r. }
  assert (H2 : resolveStep (b ++ [slash], false) a = (a ++ slash :: b ++ [slash], true)).
  { unfold resolveStep. cbn [fst snd]. rewrite bool_decide_eq_false_2 by done.
    by rewrite Ha. }
  rewrite H1, H2. unfold resolveStep. cbn [fst snd negb]. done.
Qed.

(** The public directory, as a stack of clean segments topped by [public]. *)
Lemma publicDir_stack :
  startsWith (cwd node) [slash] = true →
  ∃ stack, Forall cleanSegment (js "public" :: stack) ∧
           publicDir node = slash :: join [slash] (rev (js "public" :: stack)).
Proof.
  intros Habs.
  assert (Hne : cwd node ≠ []) by (intros E; by rewrite E in Habs).
  exists (foldl (normalizeStep false) [] (split slash (cwd node))).
  assert (Hclean : Forall cleanSegment
                     (foldl (normalizeStep false) [] (split slash (cwd node)))).
  { apply normalize_clean; [done|]. apply Forall_forall. intros seg.
    apply split_no_sep. }
  split.
  - apply Forall_cons. split; [|done]. repeat split; try done.
    intros Hin. by repeat (apply elem_of_cons in Hin as [Hin|Hin]; [done|]);
      apply elem_of_nil in Hin.
  - unfold publicDir. rewrite resolvePath_relative by done.
    unfold normalizeString. rewrite split_app, foldl_app. reflexivity.
Qed.

(** X20. Confinement of dot-dot-free paths. The current directory being an
    absolute path, a request path that begins with a slash and has no
    segment equal to [..] resolves to the public directory itself or to a
    path below it, and the prefix test of the handler lets it through. So
    the only way out of the public directory is through a [..] segment. *)
Theorem dotdot_free_confined pathname :
  startsWith (cwd node) [slash] = true →
  startsWith pathname [slash] = true →
  js ".." ∉ split slash pathname →
  insideDir (publicDir node) (resolved node pathname) = true ∧
  fileRead node pathname = Some (resolved node pathname).
Proof.
  intros Habs Hp Hdd.
  destruct (publicDir_stack Habs) as (stack & Hclean & Hpub).
  set (P := js "public" :: stack) in *.
  assert (Hslash : Forall (λ seg, slash ∉ seg) (rev P)).
  { apply Forall_forall. intros seg Hin. apply list_elem_of_In, in_rev in Hin.
    rewrite Forall_forall in Hclean. by destruct (Hclean seg (proj2 (list_elem_of_In _ _) Hin))
      as (_ & _ & _ & ?). }
  assert (HrevP : rev P ≠ []).
  { unfold P. simpl. intros E. by apply app_eq_nil in E as [_ E]. }
  assert (Hfp : ∃ rest, filePath pathname = slash :: rest ∧ js ".." ∉ split slash rest).
  { unfold filePath. case_bool_decide as E.
    - exists (js "index.html"). split; [done|].
      intros Hin. by repeat (apply elem_of_cons in Hin as [Hin|Hin]; [done|]);
        apply elem_of_nil in Hin.
    - destruct pathname as [|c rest]; [done|]. cbn [startsWith] in Hp.
      apply andb_true_iff in Hp as [Hc _]. apply N.eqb_eq in Hc. subst c.
      exists rest. split; [done|]. intros Hin. apply Hdd.
      change (slash :: rest) with ([] ++ slash :: rest). rewrite split_app.
      apply elem_of_app. by right. }
  destruct Hfp as (rest & Hfp & Hrest).
  assert (Hres : ∃ extra,
            resolved node pathname = slash :: join [slash] (rev P ++ rev extra)).
  { unfold resolved. rewrite Hfp.
    rewrite resolvePath_relative;
      [|rewrite Hpub; apply startsWith_head|done|reflexivity].
    rewrite Hpub. unfold normalizeString.
    change ((slash :: join [slash] (rev P)) ++ slash :: (dot :: slash :: rest) ++ [slash])
      with ((slash :: join [slash] (rev P)) ++ slash :: ([dot] ++ slash :: rest ++ [slash])).
    rewrite split_app. change (slash :: join [slash] (rev P))
      with ([] ++ slash :: join [slash] (rev P)).
    rewrite split_app, split_join by done.
    rewrite split_app. replace (rest ++ [slash]) with (rest ++ slash :: []) by done.
    rewrite split_app. rewrite !foldl_app.
    change (foldl (normalizeStep false) [] (split slash [])) with (@nil (list N)).
    rewrite (normalize_push false [] (rev P)).
    2:{ apply Forall_forall. intros seg Hin. apply list_elem_of_In, in_rev in Hin.
        rewrite Forall_forall in Hclean. apply Hclean. by apply list_elem_of_In. }
    rewrite rev_involutive, app_nil_r.
    change (foldl (normalizeStep false) P (split slash [dot])) with P.
    destruct (normalize_grow P (split slash rest) Hrest) as [extra ->].
    change (foldl (normalizeStep false) (extra ++ P) (split slash []))
      with (extra ++ P).
    exists extra. by rewrite rev_app_distr. }
  destruct Hres as (extra & Hres).
  assert (Hin : insideDir (publicDir node) (resolved node pathname) = true).
  { unfold insideDir. rewrite Hres, Hpub.
    destruct (rev extra) as [|e es] eqn:E.
    - rewrite app_nil_r. by rewrite bool_decide_eq_true_2.
    - rewrite join_app by done. apply orb_true_iff. right.
      replace (slash :: join [slash] (rev P) ++ [slash] ++ join [slash] (e :: es))
        with (((slash :: join [slash] (rev P)) ++ [slash]) ++ join [slash] (e :: es))
        by (by rewrite <- app_assoc).
      apply startsWith_self. }
  split; [done|]. unfold fileRead.
  assert (Hpre : startsWith (resolved node pathname) (publicDir node) = true).
  { unfold insideDir in Hin. apply orb_true_iff in Hin as [Heq|Hpre].
    - apply bool_decide_eq_true in Heq. rewrite Heq.
      rewrite <- (app_nil_r (publicDir node)) at 1. apply startsWith_self.
    - by apply startsWith_app in Hpre. }
  by rewrite Hpre.
Qed.

(** ** Card ids *)

(** Where the run objects of the next state come from: an older run object
    whose log has at most grown, or the run object of an accepted chat
    request, whose card id is an identifier drawn during that request. *)
Lemma Shape_heap_back w i w' run r' :
  Inv node w → Shape node w i w' → heap w' !! run = Some r' →
  (uuid_calls w ≤ uuid_calls w')%nat ∧
  ((∃ r later, heap w !! run = Some r ∧ events r' = events r ++ later) ∨
   (run = length (heap w) ∧
    ∃ m j, (uuid_calls w ≤ j < uuid_calls w')%nat ∧
           events r' = [tool_start m (randomUUID node j);
                        tool_done fakeResults (randomUUID node j)])).
Proof.
  intros HI HS.
  assert (Hsame : ∀ r, heap w !! run = Some r →
            ∃ r0 later, heap w !! run = Some r0 ∧ events r = events r0 ++ later).
  { intros r Hr. exists r, []. by rewrite app_nil_r. }
  destruct HS as [i F HF|i a F HF Ha|i m t F HF|a outcome k r0 Hk Hr0|i|res|res a Hl|i q F HF|i s0 q q' Hq|i s0 q F Hi0 Hq HF|i s0 q m t F Hi0 Hq HF];
    simpl; intros Hr'; (split; [try done|]); try (left; by apply Hsame).
  - left. apply lookup_alter_Some in Hr' as [[-> (r & Hr & ->)]|[_ Hr']];
      [|by apply Hsame].
    exists r, []. by rewrite app_nil_r.
  - destruct (bool_decide _); lia.
  - apply lookup_snoc_Some in Hr' as [[_ Hr']|[-> <-]]; [left; by apply Hsame|].
    right. split; [done|]. eexists m, _. split; [|reflexivity].
    destruct (bool_decide _); lia.
  - left. apply lookup_alter_Some in Hr' as [[-> (r & Hr & ->)]|[_ Hr']];
      [|by apply Hsame].
    eexists r, [_]. split; [done|]. reflexivity.
  - left. apply lookup_alter_Some in Hr' as [[-> (r & Hr & ->)]|[_ Hr']];
      [|by apply Hsame].
    exists r, []. by rewrite app_nil_r.
  - destruct (bool_decide _); lia.
  - apply lookup_snoc_Some in Hr' as [[_ Hr']|[-> <-]]; [left; by apply Hsame|].
    right. split; [done|]. eexists m, _. split; [|reflexivity].
    destruct (bool_decide _); lia.
Qed.

(** The card ids of the run objects are identifiers drawn in the order in
    which the runs were created. *)
Lemma card_order inputs a r :
  heap (exec node init inputs) !! a = Some r →
  ∃ m j rest,
    j < uuid_calls (exec node init inputs) ∧
    events r = tool_start m (randomUUID node j)
               :: tool_done fakeResults (randomUUID node j) :: rest ∧
    ∀ b rb, b < a → heap (exec node init inputs) !! b = Some rb →
            ∃ mb jb restb,
              jb < j ∧
              events rb = tool_start mb (randomUUID node jb)
                          :: tool_done fakeResults (randomUUID node jb) :: restb.
Proof.
  revert a r.
  apply (reach_ind (λ w, ∀ a r, heap w !! a = Some r →
    ∃ m j rest,
      j < uuid_calls w ∧
      events r = tool_start m (randomUUID node j)
                 :: tool_done fakeResults (randomUUID node j) :: rest ∧
      ∀ b rb, b < a → heap w !! b = Some rb →
              ∃ mb jb restb,
                jb < j ∧
                events rb = tool_start mb (randomUUID node jb)
                            :: tool_done fakeResults (randomUUID node jb) :: restb)).
  { intros a r H. done. }
  intros w i w' HI HP HS a r' Hr'.
  destruct (Shape_heap_back w i w' a r' HI HS Hr')
    as [Hmono [(r & later & Hr & Hev)|(-> & m & j & Hj & Hev)]].
  - destruct (HP a r Hr) as (m & j & rest & Hj & Hevr & Hbelow).
    exists m, j, (rest ++ later). split; [lia|]. split; [by rewrite Hev, Hevr|].
    intros b rb' Hb Hrb'.
    destruct (Shape_heap_back w i w' b rb' HI HS Hrb')
      as [_ [(rb & laterb & Hrb & Hevb)|(-> & _)]].
    + destruct (Hbelow b rb Hb Hrb) as (mb & jb & restb & Hjb & Hevrb).
      exists mb, jb, (restb ++ laterb). split; [done|]. by rewrite Hevb, Hevrb.
    + apply lookup_lt_Some in Hr. lia.
  - exists m, j, []. split; [lia|]. split; [done|].
    intros b rb' Hb Hrb'.
    destruct (Shape_heap_back w i w' b rb' HI HS Hrb')
      as [_ [(rb & laterb & Hrb & Hevb)|(-> & _)]]; [|lia].
    destruct (HP b rb Hrb) as (mb & jb & restb & Hjb & Hevrb & _).
    exists mb, jb, (restb ++ laterb). split; [lia|]. by rewrite Hevb, Hevrb.
Qed.

(** X21. Card ids are not reused. The identifiers of [randomUUID] being
    pairwise distinct, in every state the server reaches the [tool_start]
    events of two different runs carry different card ids. *)
Theorem card_ids_distinct inputs a b ra rb ma mb ca cb resta restb :
  (∀ i j, randomUUID node i = randomUUID node j → i = j) →
  a ≠ b →
  heap (exec node init inputs) !! a = Some ra →
  heap (exec node init inputs) !! b = Some rb →
  events ra = tool_start ma ca :: resta →
  events rb = tool_start mb cb :: restb →
  ca ≠ cb.
Proof.
  intros Hinj Hne Ha Hb Hea Heb Heq. subst cb.
  assert (Hlt : ∀ lo hi rlo rhi mlo mhi restlo resthi,
            lo < hi →
            heap (exec node init inputs) !! lo = Some rlo →
            heap (exec node init inputs) !! hi = Some rhi →
            events rlo = tool_start mlo ca :: restlo →
            events rhi = tool_start mhi ca :: resthi → False).
  { intros lo hi rlo rhi mlo mhi restlo resthi Hlh Hlo Hhi Helo Hehi.
    destruct (card_order inputs hi rhi Hhi) as (m & j & rest & _ & Hev & Hbelow).
    destruct (Hbelow lo rlo Hlh Hlo) as (m' & j' & rest' & Hj' & Hev').
    rewrite Hev in Hehi. rewrite Hev' in Helo.
    injection Hehi as _ Hc _. injection Helo as _ Hc' _.
    rewrite <- Hc' in Hc. apply Hinj in Hc. lia. }
  destruct (decide (a < b)); [by eapply (Hlt a b)|].
  eapply (Hlt b a); [lia|done..].
Qed.

End More.
(** ** The claims on a concrete platform *)

Import Scenario.

(** A run is started, an observer attaches, and the pipeline finishes. *)
Lemma replay_completeness_witness :
  startsWith (js "/api/stream/0") (js "/api/stream/") = true ∧
  runs (exec node init [chatHello]) !! pop (split slash (js "/api/stream/0")) = Some 0 ∧
  connected (length (responses (exec node init [chatHello]))) [settleOk] = true ∧
  ∃ later,
    eventsOf 0 (exec node (step node (exec node init [chatHello]) (Request (js "GET") (js "/api/stream/0") [])) [settleOk])
    = eventsOf 0 (exec node init [chatHello]) ++ later ∧
    receivedBy (length (responses (exec node init [chatHello]))) (step node (exec node init [chatHello]) (Request (js "GET") (js "/api/stream/0") []))
    = payload node <$> eventsOf 0 (exec node init [chatHello]) ∧
    receivedBy (length (responses (exec node init [chatHello])))
      (exec node (step node (exec node init [chatHello]) (Request (js "GET") (js "/api/stream/0") [])) [settleOk])
    = (payload node <$> eventsOf 0 (exec node init [chatHello])) ++ (payload node <$> later).
Proof.
  assert (H1 : startsWith (js "/api/stream/0") (js "/api/stream/") = true)
    by reflexivity.
  assert (H2 : runs (exec node init [chatHello]) !! pop (split slash (js "/api/stream/0")) = Some 0)
    by (vm_compute; reflexivity).
  assert (H3 : connected (length (responses (exec node init [chatHello]))) [settleOk] = true)
    by (vm_compute; reflexivity).
  split; [exact H1|]. split; [exact H2|]. split; [exact H3|].
  exact (replay_completeness node [chatHello] [settleOk] (js "/api/stream/0") [] 0
           H1 H2 H3).
Defined.

(** C2, at the input where the code falls short of it. The pipeline of
    run 0 is over when the observer attaches: it receives the three events
    of the log, and [end] is not called on its response object, then or
    ever after. *)
Theorem late_attach_never_closed :
  let w := exec node init [chatHello; settleOk; attach0] in
  (done <$> heap w !! 0) = Some true ∧
  length (eventsOf 0 w) = 3 ∧
  receivedBy 1 w = payload node <$> eventsOf 0 w ∧
  ∀ post, ended 1 (exec node w post) = 0.
Proof.
  split; [vm_compute; reflexivity|]. split; [vm_compute; reflexivity|].
  split; [vm_compute; reflexivity|]. intros post.
  assert (Hlen : length (responses (exec node init [chatHello; settleOk])) = 1)
    by (vm_compute; reflexivity).
  edestruct (late_attach_open node [chatHello; settleOk] post (js "/api/stream/0") [] 0)
    as [_ H];
    [reflexivity|vm_compute; reflexivity|vm_compute; reflexivity|reflexivity|].
  assert (Hw : step node (exec node init [chatHello; settleOk])
                 (Request (js "GET") (js "/api/stream/0") [])
               = exec node init [chatHello; settleOk; attach0])
    by (vm_compute; reflexivity).
  rewrite Hlen, Hw in H. exact H.
Qed.

(** C3 as stated fails: after the [finally] block of run 0 the run is done
    and the observer that had attached is still in its set of clients. *)
Lemma post_completion_counterexample :
  ∃ r, heap (exec node init [chatHello; attach0; settleOk]) !! 0 = Some r ∧
       done r = true ∧ clients r = [1].
Proof. eexists. split; [vm_compute; reflexivity|]. split; reflexivity. Qed.

Lemma post_completion_witness :
  ∃ r1, heap (exec node init [chatHello; attach0]) !! 0 = Some r1 ∧ done r1 = false ∧
  ∃ r2 r3,
    heap (step node (exec node init [chatHello; attach0]) (Settle 0 (Fulfilled (js "ok")))) !! 0 = Some r2 ∧
    done r2 = true ∧ clients r2 = clients r1 ∧
    (∀ s, s ∈ clients r1 → ended s (step node (exec node init [chatHello; attach0]) (Settle 0 (Fulfilled (js "ok")))) = 1) ∧
    heap (exec node (step node (exec node init [chatHello; attach0]) (Settle 0 (Fulfilled (js "ok")))) [attach0; Close 1]) !! 0 = Some r3 ∧
    done r3 = true ∧ events r3 = events r2.
Proof.
  eexists. split; [vm_compute; reflexivity|]. split; [reflexivity|].
  apply (post_completion node [chatHello; attach0] [attach0; Close 1] 0 _
           (Fulfilled (js "ok"))); [vm_compute; reflexivity|reflexivity].
Defined.

(** C4 as stated fails: appending to run 0 once it is done is not turned
    down; the log grows by the event and the client gets it written. *)
Lemma append_after_done_counterexample :
  let w := exec node init [chatHello; attach0; settleOk] in
  (done <$> heap w !! 0) = Some true ∧
  eventsOf 0 (pushEvent node 0 extra w) = eventsOf 0 w ++ [extra] ∧
  callsOf 1 (pushEvent node 0 extra w) = callsOf 1 w ++ [Write (payload node extra)].
Proof. split; [|split]; vm_compute; reflexivity. Qed.

Lemma append_after_done_witness :
  ∃ r, heap (exec node init [chatHello; attach0; settleOk]) !! 0 = Some r ∧ done r = true ∧
       heap (pushEvent node 0 extra (exec node init [chatHello; attach0; settleOk])) !! 0 = Some (addEvent extra r) ∧
       eventsOf 0 (pushEvent node 0 extra (exec node init [chatHello; attach0; settleOk])) = events r ++ [extra] ∧
       ∀ s, s ∈ clients r →
            callsOf s (pushEvent node 0 extra (exec node init [chatHello; attach0; settleOk]))
            = callsOf s (exec node init [chatHello; attach0; settleOk]) ++ [Write (payload node extra)].
Proof.
  eexists. split; [vm_compute; reflexivity|]. split; [reflexivity|].
  apply (append_after_done node [chatHello; attach0; settleOk] 0 _ extra);
    [vm_compute; reflexivity|reflexivity].
Defined.

(** The response generation of run 0 throws while an observer is attached;
    later a second observer attaches, the first one leaves, and a stray
    settlement arrives. *)
Lemma single_terminal_event_witness :
  ∃ r1, heap (exec node init [chatHello; attach0]) !! 0 = Some r1 ∧
  length (List.filter isAssistantDone (events r1)) = (if done r1 then 1 else 0) ∧
  (done r1 = true →
   ∃ ev, last (events r1) = Some ev ∧ isAssistantDone ev = true) ∧
  (done r1 = false →
   ∃ threadId r2 r3,
     heap (step node (exec node init [chatHello; attach0]) (Settle 0 (Rejected {| err_message := Some (js "boom"); err_text := js "Error: boom" |}))) !! 0 = Some r2 ∧ done r2 = true ∧
     events r2 = events r1 ++ [assistant_done (terminalText (Rejected {| err_message := Some (js "boom"); err_text := js "Error: boom" |})) threadId] ∧
     heap (exec node (step node (exec node init [chatHello; attach0]) (Settle 0 (Rejected {| err_message := Some (js "boom"); err_text := js "Error: boom" |}))) [attach0; Close 1; settleOk]) !! 0 = Some r3 ∧ done r3 = true ∧
     events r3 = events r1 ++ [assistant_done (terminalText (Rejected {| err_message := Some (js "boom"); err_text := js "Error: boom" |})) threadId] ∧
     List.filter isAssistantDone (events r3) =
       [assistant_done (terminalText (Rejected {| err_message := Some (js "boom"); err_text := js "Error: boom" |})) threadId] ∧
     last (events r3) = Some (assistant_done (terminalText (Rejected {| err_message := Some (js "boom"); err_text := js "Error: boom" |})) threadId)).
Proof.
  eexists. split; [vm_compute; reflexivity|].
  apply (single_terminal_event node [chatHello; attach0] [attach0; Close 1; settleOk] 0 _
           (Rejected {| err_message := Some (js "boom"); err_text := js "Error: boom" |})).
  vm_compute; reflexivity.
Defined.

(** The response generation of run 0 throws while one observer is attached;
    later a second observer attaches and the first one disconnects. *)
Lemma closure_guarantee_witness :
  ∃ r1, heap (exec node init [chatHello; attach0]) !! 0 = Some r1 ∧ done r1 = false ∧
  ∃ k r2,
    awaiting (exec node init [chatHello; attach0]) !! 0 = Some k ∧
    heap (step node (exec node init [chatHello; attach0]) (Settle 0 (Rejected {| err_message := Some (js "boom"); err_text := js "Error: boom" |}))) !! 0 = Some r2 ∧
    done r2 = true ∧
    events r2 = events r1 ++
      [assistant_done (js "An error occurred: " ++ js "boom") (s_threadId k)] ∧
    (∀ s, s ∈ clients r1 →
          ended s (exec node init [chatHello; attach0]) = 0 ∧
          ended s (step node (exec node init [chatHello; attach0]) (Settle 0 (Rejected {| err_message := Some (js "boom"); err_text := js "Error: boom" |}))) = 1 ∧
          ended s (exec node (step node (exec node init [chatHello; attach0]) (Settle 0 (Rejected {| err_message := Some (js "boom"); err_text := js "Error: boom" |}))) [attach0; Close 1]) = 1) ∧
    awaiting (exec node (step node (exec node init [chatHello; attach0]) (Settle 0 (Rejected {| err_message := Some (js "boom"); err_text := js "Error: boom" |}))) [attach0; Close 1]) !! 0 = None ∧
    (∀ outcome', step node (exec node (step node (exec node init [chatHello; attach0]) (Settle 0 (Rejected {| err_message := Some (js "boom"); err_text := js "Error: boom" |}))) [attach0; Close 1]) (Settle 0 outcome') = (exec node (step node (exec node init [chatHello; attach0]) (Settle 0 (Rejected {| err_message := Some (js "boom"); err_text := js "Error: boom" |}))) [attach0; Close 1])).
Proof.
  eexists. split; [vm_compute; reflexivity|]. split; [reflexivity|].
  apply (closure_guarantee node [chatHello; attach0] [attach0; Close 1] 0 _
           (Rejected {| err_message := Some (js "boom"); err_text := js "Error: boom" |}));
    [vm_compute; reflexivity|reflexivity].
Defined.

(** C7 as stated fails. Two observers are attached to run 0 and the socket
    of the first one is destroyed. When the response generation settles, the
    append of the terminal event writes to both: the first observer gets
    nothing, the second one gets the event, and when the pipeline is over
    the first is still in the set of clients. It leaves the set when the
    ['close'] event of its request fires. *)
Lemma sink_failure_isolation_counterexample :
  let w := exec node init [chatHello; attach0; attach0; Break 1] in
  let w' := step node w settleOk in
  (destroyed <$> responses w !! 1) = Some true ∧
  receivedBy 1 w' = receivedBy 1 w ∧
  receivedBy 2 w' = receivedBy 2 w ++ [payload node (assistant_done (js "ok") (uuid 1))] ∧
  clientsOf 0 w' = [1; 2] ∧
  clientsOf 0 (step node w' (Close 1)) = [2].
Proof. repeat split; vm_compute; reflexivity. Qed.

Lemma sink_failure_isolation_witness :
  ∃ r, heap (exec node init [chatHello; attach0; attach0; Break 1]) !! 0 = Some r ∧
       eventsOf 0 (pushEvent node 0 extra (exec node init [chatHello; attach0; attach0; Break 1])) = events r ++ [extra] ∧
       clientsOf 0 (pushEvent node 0 extra (exec node init [chatHello; attach0; attach0; Break 1])) = clients r ∧
       (∀ s x, s ∈ clients r → responses (exec node init [chatHello; attach0; attach0; Break 1]) !! s = Some x →
               receivedBy s (pushEvent node 0 extra (exec node init [chatHello; attach0; attach0; Break 1]))
               = if writable x then received x ++ [payload node extra] else received x) ∧
       (done r = false →
        ∀ s x, s ∈ clients r → responses (exec node init [chatHello; attach0; attach0; Break 1]) !! s = Some x →
               writable x = negb (destroyed x)) ∧
       (∀ s, s ∈ clients r →
             clientsOf 0 (step node (pushEvent node 0 extra (exec node init [chatHello; attach0; attach0; Break 1])) (Close s)) = filter (λ c, c ≠ s) (clients r)).
Proof.
  eexists. split; [vm_compute; reflexivity|].
  apply (sink_failure_isolation node [chatHello; attach0; attach0; Break 1] 0 _ extra).
  vm_compute; reflexivity.
Defined.

(** A second request names the thread of the first one. *)
Lemma thread_resolution_witness :
  (∀ i j, randomUUID node i = randomUUID node j → i = j) ∧
  (∀ i, randomUUID node i ≠ []) ∧
  JSON_parse node (if bool_decide ((stringify helloAgain) = []) then js "{}" else (stringify helloAgain)) = Some helloAgain ∧
  prop (js "message") helloAgain = Some (JStr (js "hello")) ∧
  trim (js "hello") ≠ [] ∧
  (runs (exec node init [chatHello]) !! (randomUUID node (uuid_calls (exec node init [chatHello]))) = None ∧
   ∀ i, i < uuid_calls (exec node init [chatHello]) → randomUUID node i ≠ (randomUUID node (uuid_calls (exec node init [chatHello])))) ∧
  (∀ t thread,
     prop (js "threadId") helloAgain = Some (JStr t) →
     threads (exec node init [chatHello]) !! t = Some thread →
     threads (step node (exec node init [chatHello]) (Request (js "POST") (js "/api/chat") (stringify helloAgain))) = threads (exec node init [chatHello]) ∧
     callsOf (length (responses (exec node init [chatHello]))) (step node (exec node init [chatHello]) (Request (js "POST") (js "/api/chat") (stringify helloAgain))) =
     corsCalls ++ jsonCalls node 200
       (JObj [(js "runId", JStr (randomUUID node (uuid_calls (exec node init [chatHello])))); (js "threadId", JStr t)])) ∧
  ((∀ t, prop (js "threadId") helloAgain = Some (JStr t) →
         threads (exec node init [chatHello]) !! t = None) →
   threads (exec node init [chatHello]) !! (randomUUID node (S (uuid_calls (exec node init [chatHello])))) = None ∧
   threads (step node (exec node init [chatHello]) (Request (js "POST") (js "/api/chat") (stringify helloAgain))) =
     <[(randomUUID node (S (uuid_calls (exec node init [chatHello])))) := {| thread_id := (randomUUID node (S (uuid_calls (exec node init [chatHello])))); history := [] |}]> (threads (exec node init [chatHello])) ∧
   callsOf (length (responses (exec node init [chatHello]))) (step node (exec node init [chatHello]) (Request (js "POST") (js "/api/chat") (stringify helloAgain))) =
   corsCalls ++ jsonCalls node 200
     (JObj [(js "runId", JStr (randomUUID node (uuid_calls (exec node init [chatHello])))); (js "threadId", JStr (randomUUID node (S (uuid_calls (exec node init [chatHello])))))])).
Proof.
  assert (Hinj : ∀ i j, randomUUID node i = randomUUID node j → i = j).
  { simpl. unfold uuid. intros i j [= H]. lia. }
  assert (Hne : ∀ i, randomUUID node i ≠ []) by done.
  assert (Hparse : JSON_parse node (if bool_decide ((stringify helloAgain) = []) then js "{}" else (stringify helloAgain)) = Some helloAgain)
    by (vm_compute; reflexivity).
  assert (Hm : prop (js "message") helloAgain = Some (JStr (js "hello")))
    by reflexivity.
  assert (Ht : trim (js "hello") ≠ []) by (by vm_compute).
  split; [exact Hinj|]. split; [exact Hne|]. split; [exact Hparse|].
  split; [exact Hm|]. split; [exact Ht|].
  exact (thread_resolution node [chatHello] (stringify helloAgain) helloAgain (js "hello")
           Hinj Hne Hparse Hm Ht).
Defined.

(** C10, at the input where the code falls short of it. The public
    directory is /app/public; the path /../public-secret/key resolves to
    /app/public-secret/key, which is not inside it but does begin with its
    name; the handler reads that file and serves it with status 200. *)
Theorem static_escape :
  let pathname := js "/../public-secret/key" in
  let w' := step node init (Request GET pathname []) in
  publicDir node = js "/app/public" ∧
  fileRead node pathname = Some (js "/app/public-secret/key") ∧
  insideDir (publicDir node) (js "/app/public-secret/key") = false ∧
  callsOf 0 w' =
    corsCalls ++ [SetStatus 200; SetHeader (js "Content-Type") (js "text/plain");
                  SetHeader (js "Access-Control-Allow-Origin") (js "*");
                  End (Some (js "secret"))] ∧
  receivedBy 0 w' = [js "secret"].
Proof. repeat split; vm_compute; reflexivity. Qed.

(** ** The scenarios of the specification *)

(** A first request: a new run and a new thread; the stream of the run
    yields the start and the end of the search, then the answer, which
    quotes the message and carries the thread id. *)
Example scenario_A :
  let w := exec node init
             [chatHello; Settle 0 (Fulfilled (generateAssistantResponse (js "hello") fakeResults));
              attach0] in
  callsOf 0 w = corsCalls ++ jsonCalls node 200
                  (JObj [(js "runId", JStr (uuid 0)); (js "threadId", JStr (uuid 1))]) ∧
  receivedBy 1 w =
    payload node <$>
      [tool_start (js "hello") (uuid 2); tool_done fakeResults (uuid 2);
       assistant_done (js "You said: hello. I found 1 search result(s).") (uuid 1)].
Proof. split; vm_compute; reflexivity. Qed.

(** A stream for a run that was never created: 404 at once. *)
Example scenario_C :
  callsOf 0 (exec node init [Request GET (js "/api/stream/nope") []])
  = corsCalls ++ [SetStatus 404; End None].
Proof. vm_compute; reflexivity. Qed.

(** A second observer attaches after the search is done and before the
    answer: it gets the two tool events at once, then the answer. *)
Example scenario_D :
  receivedBy 2 (exec node init [chatHello; attach0; attach0])
  = payload node <$> [tool_start (js "hello") (uuid 2); tool_done fakeResults (uuid 2)] ∧
  receivedBy 2 (exec node init [chatHello; attach0; attach0; settleOk])
  = payload node <$> [tool_start (js "hello") (uuid 2); tool_done fakeResults (uuid 2);
                      assistant_done (js "ok") (uuid 1)].
Proof. split; vm_compute; reflexivity. Qed.

(** Served from the public directory, with the type of the extension. *)
Example static_script :
  callsOf 0 (exec node init [Request GET (js "/script.js") []])
  = corsCalls ++ [SetStatus 200; SetHeader (js "Content-Type") (js "application/javascript");
                  SetHeader (js "Access-Control-Allow-Origin") (js "*");
                  End (Some (js "send()"))].
Proof. vm_compute; reflexivity. Qed.

(** A chat request whose body comes in two chunks, an observer of another
    run leaving in between: the answer is the one to the whole body. *)
Example chat_in_chunks :
  let body := stringify hello in
  callsOf 2 (exec node init
               [chatHello; attach0; Incoming POST (js "/api/chat");
                Data 2 (take 5 body); Close 1; Data 2 (drop 5 body); EndOfBody 2])
  = corsCalls ++ jsonCalls node 200
      (JObj [(js "runId", JStr (uuid 3)); (js "threadId", JStr (uuid 4))]).
Proof. vm_compute; reflexivity. Qed.

(** A static request whose peer has gone, socket destroyed and ['close']
    event fired, before the file has been read: the answer is made all the
    same, and nothing of it arrives. *)
Example static_after_close :
  let w := exec node init [Incoming GET (js "/script.js"); Break 0; Close 0; FileRead 0] in
  callsOf 0 w
  = corsCalls ++ [SetStatus 200; SetHeader (js "Content-Type") (js "application/javascript");
                  SetHeader (js "Access-Control-Allow-Origin") (js "*");
                  End (Some (js "send()"))] ∧
  receivedBy 0 w = [].
Proof. split; vm_compute; reflexivity. Qed.

(** ** The further properties on the concrete platform *)

Ltac decided := refine (bool_decide_unpack _ _); vm_compute; exact I.


Lemma registry_consistent_witness :
  runs (exec node init [chatHello]) !! uuid 0 = Some 0 ∧
  ∃ r, heap (exec node init [chatHello]) !! 0 = Some r ∧ run_id r = uuid 0.
Proof.
  assert (H : runs (exec node init [chatHello]) !! uuid 0 = Some 0) by (vm_compute; reflexivity).
  split; [exact H|]. exact (registry_consistent node [chatHello] (uuid 0) 0 H).
Defined.

Lemma thread_history_empty_witness :
  ∃ thread, threads (exec node init [chatHello]) !! uuid 1 = Some thread ∧ history thread = [].
Proof.
  eexists. split; [vm_compute; reflexivity|].
  apply (thread_history_empty node [chatHello] (uuid 1)). vm_compute; reflexivity.
Defined.

Lemma registry_persistent_witness :
  (∀ i j, randomUUID node i = randomUUID node j → i = j) ∧
  (∀ a, runs (exec node init [chatHello]) !! uuid 0 = Some a →
        runs (exec node (exec node init [chatHello]) [chatHello; settleOk]) !! uuid 0 = Some a) ∧
  (∀ thread, threads (exec node init [chatHello]) !! uuid 0 = Some thread →
             threads (exec node (exec node init [chatHello]) [chatHello; settleOk]) !! uuid 0 = Some thread).
Proof.
  assert (Hinj : ∀ i j, randomUUID node i = randomUUID node j → i = j).
  { simpl. unfold uuid. intros i j [= H]. lia. }
  split; [exact Hinj|].
  exact (registry_persistent node [chatHello] [chatHello; settleOk] (uuid 0) Hinj).
Defined.

Lemma log_shape_witness :
  ∃ r, heap (exec node init [chatHello; settleOk]) !! 0 = Some r ∧
  ∃ message cardId,
    if done r then
      ∃ text threadId,
        events r = [tool_start message cardId; tool_done fakeResults cardId;
                    assistant_done text threadId]
    else events r = [tool_start message cardId; tool_done fakeResults cardId].
Proof.
  eexists. split; [vm_compute; reflexivity|].
  apply (log_shape node [chatHello; settleOk] 0). vm_compute; reflexivity.
Defined.

(** The first request of a server, an observer, and the answer. *)
Lemma terminal_thread_witness :
  JSON_parse node (if bool_decide ((stringify hello) = []) then js "{}" else (stringify hello)) = Some hello ∧
  prop (js "message") hello = Some (JStr (js "hello")) ∧
  trim (js "hello") ≠ [] ∧
  unsettled (length (heap (exec node init []))) [attach0] = true ∧
  callsOf (length (responses (exec node init []))) (step node (exec node init []) (Request (js "POST") (js "/api/chat") (stringify hello))) =
    corsCalls ++ jsonCalls node 200
      (JObj [(js "runId", JStr (randomUUID node (uuid_calls (exec node init [])))); (js "threadId", JStr (thread_id (chatThread node (prop (js "threadId") hello) (exec node init []))))]) ∧
  runs (step node (exec node init []) (Request (js "POST") (js "/api/chat") (stringify hello))) !! (randomUUID node (uuid_calls (exec node init []))) = Some (length (heap (exec node init []))) ∧
  ∃ cardId,
    eventsOf (length (heap (exec node init []))) (step node (exec node (step node (exec node init []) (Request (js "POST") (js "/api/chat") (stringify hello))) [attach0]) (Settle (length (heap (exec node init []))) (Fulfilled (js "ok")))) =
      [tool_start (js "hello") cardId; tool_done fakeResults cardId;
       assistant_done (terminalText (Fulfilled (js "ok"))) (thread_id (chatThread node (prop (js "threadId") hello) (exec node init [])))].
Proof.
  assert (Hparse : JSON_parse node (if bool_decide ((stringify hello) = []) then js "{}" else (stringify hello)) = Some hello) by (vm_compute; reflexivity).
  assert (Hm : prop (js "message") hello = Some (JStr (js "hello"))) by reflexivity.
  assert (Ht : trim (js "hello") ≠ []) by (by vm_compute).
  assert (Hu : unsettled (length (heap (exec node init []))) [attach0] = true) by (vm_compute; reflexivity).
  split; [exact Hparse|]. split; [exact Hm|]. split; [exact Ht|]. split; [exact Hu|].
  exact (terminal_thread node [] [attach0] (stringify hello) hello (js "hello") (Fulfilled (js "ok"))
           Hparse Hm Ht Hu).
Defined.

Lemma cors_first_witness :
  ∃ x, responses (exec node init [chatHello; attach0; settleOk]) !! 1 = Some x ∧ ∃ ops, calls x = corsCalls ++ ops.
Proof.
  eexists. split; [vm_compute; reflexivity|].
  apply (cors_first node [chatHello; attach0; settleOk] 1). vm_compute; reflexivity.
Defined.

Lemma calls_in_order_witness :
  ∃ x, responses (exec node init [chatHello; attach0; settleOk]) !! 1 = Some x ∧ inOrder (calls x).
Proof.
  eexists. split; [vm_compute; reflexivity|].
  apply (calls_in_order node [chatHello; attach0; settleOk] 1). vm_compute; reflexivity.
Defined.

(** A health check on a server with one run. *)
Lemma only_chat_creates_witness :
  ¬ (js "GET" = js "POST" ∧ js "/api/health" = js "/api/chat" ∧
     acceptable (messageOf node []) = true) ∧
  sameData (exec node init [chatHello]) (step node (exec node init [chatHello]) (Request (js "GET") (js "/api/health") [])).
Proof.
  assert (H : ¬ (js "GET" = js "POST" ∧ js "/api/health" = js "/api/chat" ∧
                 acceptable (messageOf node []) = true)).
  { intros [H _]. vm_compute in H. discriminate H. }
  split; [exact H|].
  exact (only_chat_creates node (exec node init [chatHello]) (js "GET") (js "/api/health") [] H).
Defined.

(** A PUT, which no route takes. *)
Lemma unknown_route_witness :
  ((js "PUT" ≠ js "OPTIONS" ∧ js "PUT" ≠ js "GET" ∧ js "PUT" ≠ js "POST") ∨
   (js "PUT" = js "POST" ∧ js "/api/chat" ≠ js "/api/chat") ∨
   (js "PUT" = js "GET" ∧ js "/api/chat" = []) ∨
   (js "PUT" = js "GET" ∧ startsWith (js "/api/chat") (js "/api") = true ∧
    js "/api/chat" ≠ js "/api/health" ∧
    startsWith (js "/api/chat") (js "/api/stream/") = false)) ∧
  callsOf (length (responses init))
    (step node init (Request (js "PUT") (js "/api/chat") (stringify hello))) =
  corsCalls ++ [SetStatus 404; End None].
Proof.
  assert (H : (js "PUT" ≠ js "OPTIONS" ∧ js "PUT" ≠ js "GET" ∧ js "PUT" ≠ js "POST") ∨
              (js "PUT" = js "POST" ∧ js "/api/chat" ≠ js "/api/chat") ∨
              (js "PUT" = js "GET" ∧ js "/api/chat" = []) ∨
              (js "PUT" = js "GET" ∧ startsWith (js "/api/chat") (js "/api") = true ∧
               js "/api/chat" ≠ js "/api/health" ∧
               startsWith (js "/api/chat") (js "/api/stream/") = false)).
  { left. repeat split; intros E; vm_compute in E; discriminate E. }
  split; [exact H|].
  exact (unknown_route node init (js "PUT") (js "/api/chat") (stringify hello) H).
Defined.



Lemma stream_lookup_witness :
  (slash ∉ js "0") ∧
  startsWith (js "/api/stream" ++ slash :: js "0") (js "/api/stream/") = true ∧
  match runs (exec node init [chatHello]) !! js "0" with
  | None =>
      callsOf (length (responses (exec node init [chatHello])))
        (step node (exec node init [chatHello]) (Request (js "GET") (js "/api/stream" ++ slash :: js "0") []))
      = corsCalls ++ [SetStatus 404; End None]
  | Some run =>
      length (responses (exec node init [chatHello])) ∈
        clientsOf run
          (step node (exec node init [chatHello]) (Request (js "GET") (js "/api/stream" ++ slash :: js "0") [])) ∧
      receivedBy (length (responses (exec node init [chatHello])))
        (step node (exec node init [chatHello]) (Request (js "GET") (js "/api/stream" ++ slash :: js "0") []))
      = payload node <$> eventsOf run (exec node init [chatHello])
  end.
Proof.
  assert (H1 : slash ∉ js "0") by decided.
  assert (H2 : startsWith (js "/api/stream" ++ slash :: js "0") (js "/api/stream/") = true)
    by reflexivity.
  split; [exact H1|]. split; [exact H2|].
  exact (stream_lookup node [chatHello] (js "/api/stream") (js "0") [] H1 H2).
Defined.

Lemma attach_unique_witness :
  ∃ r, heap (exec node init [chatHello; attach0]) !! 0 = Some r ∧ 1 ∈ clients r ∧ 0 = 0.
Proof.
  eexists. split; [vm_compute; reflexivity|]. split; [decided|].
  eapply (attach_unique node [chatHello; attach0] 0 0 _ _ 1);
    [vm_compute; reflexivity|vm_compute; reflexivity|decided|decided].
Defined.

(** One observer attaches before the answer, one after it. *)
Lemma observers_agree_witness :
  ∃ r x1 x2,
    heap (exec node init [chatHello; attach0; settleOk; attach0]) !! 0 = Some r ∧ 1 ∈ clients r ∧ 2 ∈ clients r ∧
    responses (exec node init [chatHello; attach0; settleOk; attach0]) !! 1 = Some x1 ∧ responses (exec node init [chatHello; attach0; settleOk; attach0]) !! 2 = Some x2 ∧
    destroyed x1 = false ∧ destroyed x2 = false ∧ received x1 = received x2.
Proof.
  eexists _, _, _. split; [vm_compute; reflexivity|]. split; [decided|].
  split; [decided|]. split; [vm_compute; reflexivity|].
  split; [vm_compute; reflexivity|]. split; [reflexivity|]. split; [reflexivity|].
  eapply (observers_agree node [chatHello; attach0; settleOk; attach0] 0 _ 1 2);
    [vm_compute; reflexivity|decided|decided|vm_compute; reflexivity
    |vm_compute; reflexivity|reflexivity|reflexivity].
Defined.

(** The observer leaves before the answer; then the pipeline finishes and
    another chat request comes in, piece by piece. *)
Lemma silent_after_close_witness :
  1 < length (responses (step node (exec node init [chatHello; attach0]) (Close 1))) ∧
  pending (step node (exec node init [chatHello; attach0]) (Close 1)) !! 1 = None ∧
  callsOf 1 (exec node (step node (exec node init [chatHello; attach0]) (Close 1)) [settleOk; Incoming POST (js "/api/chat"); Data 2 (stringify hello); EndOfBody 2]) = callsOf 1 (step node (exec node init [chatHello; attach0]) (Close 1)).
Proof.
  assert (H : 1 < length (responses (step node (exec node init [chatHello; attach0]) (Close 1)))) by (vm_compute; lia).
  assert (Hp : pending (step node (exec node init [chatHello; attach0]) (Close 1)) !! 1 = None) by (vm_compute; reflexivity).
  split; [exact H|]. split; [exact Hp|].
  exact (silent_after_close node [chatHello; attach0] [settleOk; Incoming POST (js "/api/chat"); Data 2 (stringify hello); EndOfBody 2] 1 H Hp).
Defined.

Lemma dotdot_free_confined_witness :
  startsWith (cwd node) [slash] = true ∧
  startsWith (js "/script.js") [slash] = true ∧
  (js ".." ∉ split slash (js "/script.js")) ∧
  insideDir (publicDir node) (resolved node (js "/script.js")) = true ∧
  fileRead node (js "/script.js") = Some (resolved node (js "/script.js")).
Proof.
  assert (H1 : startsWith (cwd node) [slash] = true) by reflexivity.
  assert (H2 : startsWith (js "/script.js") [slash] = true) by reflexivity.
  assert (H3 : js ".." ∉ split slash (js "/script.js")) by decided.
  split; [exact H1|]. split; [exact H2|]. split; [exact H3|].
  exact (dotdot_free_confined node (js "/script.js") H1 H2 H3).
Defined.

(** Two runs, two card ids. *)
Lemma card_ids_distinct_witness :
  ∃ ra rb,
    (∀ i j, randomUUID node i = randomUUID node j → i = j) ∧ 0 ≠ 1 ∧
    heap (exec node init [chatHello; chatHello]) !! 0 = Some ra ∧
    heap (exec node init [chatHello; chatHello]) !! 1 = Some rb ∧
    events ra = tool_start (js "hello") (uuid 2) :: [tool_done fakeResults (uuid 2)] ∧
    events rb = tool_start (js "hello") (uuid 5) :: [tool_done fakeResults (uuid 5)] ∧
    uuid 2 ≠ uuid 5.
Proof.
  assert (Hinj : ∀ i j, randomUUID node i = randomUUID node j → i = j).
  { simpl. unfold uuid. intros i j [= H]. lia. }
  eexists _, _. split; [exact Hinj|]. split; [lia|].
  split; [vm_compute; reflexivity|]. split; [vm_compute; reflexivity|].
  split; [vm_compute; reflexivity|]. split; [vm_compute; reflexivity|].
  eapply (card_ids_distinct node [chatHello; chatHello] 0 1 _ _
            (js "hello") (js "hello") (uuid 2) (uuid 5)
            [tool_done fakeResults (uuid 2)] [tool_done fakeResults (uuid 5)] Hinj);
    [lia|vm_compute; reflexivity|vm_compute; reflexivity
    |vm_compute; reflexivity|vm_compute; reflexivity].
Defined.
